(** * The connection core of the Cap'n Proto RPC package ([rpc/rpc.go])

    A shallow embedding of [Conn] and of the functions of [rpc.go]:
    the message dispatcher [handleMessage] with its per-kind handlers,
    [Bootstrap], [Close], and the cap-table code.  The connection is a
    record of its tables, the functions are programs of a small state
    monad whose outcomes are a normal return, a Go panic, or a blocked
    goroutine. *)

From Stdlib Require Import NArith ZArith String List Lia.
From stdpp Require Import base option list gmap strings.

Local Open Scope N_scope.

(** ** Identifiers

    [questionID], [answerID], [exportID], [importID] and [embargoID] are
    all [uint32] in the source. *)

Abbreviation questionID := N (only parsing).
Abbreviation answerID := N (only parsing).
Abbreviation exportID := N (only parsing).
Abbreviation importID := N (only parsing).
Abbreviation embargoID := N (only parsing).

Definition uint32_max : N := 4294967295.

(** [capnp.Method]: only the two identifiers matter here. *)
Record Method := mkMethod { InterfaceID : N; MethodID : N }.

(** [capnp.PipelineOp]: one step of a transform, a pointer-field index. *)
Record PipelineOp := mkOp { Field : N }.

(** ** Errors

    The sentinel errors of the package (declared outside [rpc.go] and
    told apart by name), the errors built with [fmt.Errorf] in
    [rpc.go], the wrappers applied to a peer's exception, the errors of
    a context, and those of the decoder and of the transport. *)

Inductive error : Type :=
| ErrConnClosed
| errShutdown
| errQuestionReused
| errNoMainInterface
| errBadTarget
| errDisembargoNonImport
| errDisembargoMissingAnswer
| errUnimplemented
| errOverRelease (id : N)
| errDecode (what : string)
| errUnknownQuestion (id : N)
| errCapTableExport (id : N)
| errCapTableAnswer (id : N)
| errReceiverCanceled
| errNullClient
| errTransform
| errException (reason : string)
| MethodError (m : Method) (e : error)
| bootstrapError (e : error)
| questionError (id : N) (m : option Method) (e : error)
| Abort (reason : string)
| ctxCanceled
| ctxDeadlineExceeded
| errTransport (what : string).

(** [err == errUnimplemented] compares with the sentinel value. *)
Definition is_errUnimplemented (e : error) : bool :=
  match e with errUnimplemented => true | _ => false end.

(** Modelled from the spec: the texts of the sentinel errors, which are
    declared outside [rpc.go]; the spec quotes "question ID reused",
    "no main interface" and "bad target".  [Error] is the [Error()]
    method used when an error is put on the wire. *)
Fixpoint Error (e : error) : string :=
  match e with
  | ErrConnClosed => "connection closed"
  | errShutdown => "shutdown"
  | errQuestionReused => "question ID reused"
  | errNoMainInterface => "no main interface"
  | errBadTarget => "bad target"
  | errDisembargoNonImport => "disembargo target is not a promised answer"
  | errDisembargoMissingAnswer => "disembargo target answer not found"
  | errUnimplemented => "unimplemented"
  | errOverRelease _ => "export released more often than referenced"
  | errDecode what => what
  | errUnknownQuestion _ => "received return for unknown question"
  | errCapTableExport _ => "rpc: capability table references unknown export ID"
  | errCapTableAnswer _ => "rpc: capability table references unknown answer ID"
  | errReceiverCanceled => "receiver reported canceled"
  | errNullClient => "null client"
  | errTransform => "transform does not select a pointer"
  | errException reason => reason
  | MethodError _ e' => Error e'
  | bootstrapError e' => Error e'
  | questionError _ _ e' => Error e'
  | Abort reason => reason
  | ctxCanceled => "context canceled"
  | ctxDeadlineExceeded => "context deadline exceeded"
  | errTransport what => what
  end.

(** The result of an accessor of the generated wire code, which returns
    a value and an [error]. *)
Inductive res (A : Type) : Type :=
| Ok (a : A)
| Fail (e : error).
Arguments Ok {A} a.
Arguments Fail {A} e.

(** ** Pointers and clients *)

(** The value a [capnp.Ptr] points at: null, a struct with its pointer
    fields, an interface pointer (an index into the cap table of its
    message), or data without pointers. *)
Inductive PtrVal : Type :=
| PNull
| PStruct (ptrs : list PtrVal)
| PInterface (cap : N)
| PData (bytes : list N).

(** [capnp.Client] values, told apart the way the connection tells them
    apart: nil, a capability of the local vat, the proxy of an import,
    the pipeline client of an answer or of a question (a reference into
    the question store), and an error client. *)
Inductive Client : Type :=
| NilClient
| LocalClient (n : N)
| ImportClient (id : importID)
| AnswerPipeline (id : answerID) (transform : list PipelineOp)
| QuestionPipeline (q : nat) (transform : list PipelineOp)
| ErrorClient (e : error).

(** A [capnp.Ptr] is a pointer into a segment of a message; the clients
    it can reach are the [CapTable] of that message. *)
Record Ptr := mkPtr { ptr_val : PtrVal; ptr_caps : list Client }.

(** [capnp.Call], with the fields [rpc.go] sets; the context of an
    inbound call is the one whose cancel function the answer keeps. *)
Record Call := mkCall { call_Method : Method; call_Params : Ptr }.

(** ** Messages

    The wire messages as the generated accessors show them: [Which()]
    is the constructor, a pointer field is the [res] its accessor
    returns. *)

Record Exception := mkException { exc_Reason : string }.

Inductive PromisedAnswer_Op : Type :=
| Op_noop
| Op_getPointerField (f : N)
| Op_other (which : N).

Record PromisedAnswer := mkPromisedAnswer {
  pa_QuestionId : N;
  pa_Transform : res (list PromisedAnswer_Op) }.

Inductive MessageTarget : Type :=
| MT_importedCap (id : N)
| MT_promisedAnswer (pa : res PromisedAnswer)
| MT_other (which : N).

Inductive CapDescriptor : Type :=
| CD_none
| CD_senderHosted (id : N)
| CD_senderPromise (id : N)
| CD_receiverHosted (id : N)
| CD_receiverAnswer (pa : res PromisedAnswer)
| CD_other (which : N).

Record Payload := mkPayload {
  pl_Content : res PtrVal;
  pl_CapTable : res (list CapDescriptor) }.

Inductive Return_body : Type :=
| Return_results (r : res Payload)
| Return_exception (e : res Exception)
| Return_canceled
| Return_other (which : N).

Record Return := mkReturn {
  ret_AnswerId : N;
  ret_ReleaseParamCaps : bool;
  ret_body : Return_body }.

Record Finish := mkFinish {
  fin_QuestionId : N;
  fin_ReleaseResultCaps : bool }.

Record Bootstrap_msg := mkBootstrap { boot_QuestionId : N }.

Record Release := mkRelease { rel_Id : N; rel_ReferenceCount : N }.

Record Call_msg := mkCallMsg {
  call_QuestionId : N;
  call_Target : res MessageTarget;
  call_InterfaceId : N;
  call_MethodId : N;
  call_Params_msg : res Payload }.

Inductive Disembargo_context : Type :=
| DC_senderLoopback (id : N)
| DC_receiverLoopback (id : N)
| DC_accept
| DC_provide (id : N)
| DC_other (which : N).

Record Disembargo := mkDisembargo {
  dis_Target : res MessageTarget;
  dis_Context : Disembargo_context }.

Inductive Message : Type :=
| Msg_unimplemented (orig : Message)
| Msg_abort (exc : res Exception)
| Msg_return (r : res Return)
| Msg_finish (f : res Finish)
| Msg_bootstrap (b : res Bootstrap_msg)
| Msg_call (cm : res Call_msg)
| Msg_release (r : res Release)
| Msg_disembargo (d : res Disembargo)
| Msg_other (which : N).

(** ** The tables *)

(** Modelled from the spec: [idgen] (its file is not [rpc.go]) allocates
    and recycles 32-bit IDs: the next unused ID and the released
    ones. *)
Record idgen := mkIdgen { gen_i : N; gen_free : list N }.

(** Modelled from the spec: [idgen.next] prefers the reuse of a released
    ID to a new one (section 3). *)
Definition idgen_next (g : idgen) : N * idgen :=
  match gen_free g with
  | i :: rest => (i, mkIdgen (gen_i g) rest)
  | [] => (gen_i g, mkIdgen ((gen_i g + 1) mod (uint32_max + 1)) [])
  end.

(** Modelled from the spec: [idgen.remove] returns an ID to the pool. *)
Definition idgen_remove (i : N) (g : idgen) : idgen :=
  mkIdgen (gen_i g) (i :: gen_free g).

(** Modelled from the spec: the states of a question's resolution slot
    (section 3); [rpc.go] names [questionResolved] and
    [questionCanceled], the pending state is declared with them. *)
Inductive questionState : Type :=
| questionInProgress
| questionResolved
| questionCanceled.

Definition questionState_eqb (a b : questionState) : bool :=
  match a, b with
  | questionInProgress, questionInProgress => true
  | questionResolved, questionResolved => true
  | questionCanceled, questionCanceled => true
  | _, _ => false
  end.

(** Modelled from the spec: the [question] struct (section 3): its ID,
    the optional method (absent for bootstrap), the param caps, the
    resolution slot, and whether [start] has been called. *)
Record question := mkQuestion {
  q_id : questionID;
  q_method : option Method;
  q_paramCaps : list exportID;
  q_state : questionState;
  q_obj : option Ptr;
  q_err : option error;
  q_started : bool }.

(** Modelled from the spec: the [export] struct (section 3): its ID, the
    local capability and the number of references the peer claims. *)
Record export := mkExport { e_id : exportID; e_client : Client; e_refs : Z }.

(** Modelled from the spec: the [impent] struct (section 3): the number
    of local references of an import. *)
Record impent := mkImpent { i_refs : Z }.

(** Modelled from the spec: an entry of an answer's queue of pipelined
    calls (section 3): the transform, the answer the call will resolve
    (kept by ID) and the call. *)
Record pcall := mkPcall {
  pc_transform : list PipelineOp;
  pc_result : answerID;
  pc_call : Call }.

(** Modelled from the spec: an entry of an answer's queue of
    disembargoes (section 3). *)
Record qdisembargo := mkQdisembargo {
  qd_transform : list PipelineOp;
  qd_id : embargoID;
  qd_target : MessageTarget }.

(** Modelled from the spec: the [answer] struct (section 3): its ID,
    whether its context has been canceled, the resolution slot, the
    result caps, the queue of pipelined calls and the queue of
    disembargoes. *)
Record answer := mkAnswer {
  a_id : answerID;
  a_canceled : bool;
  a_done : bool;
  a_obj : option Ptr;
  a_err : option error;
  a_resultCaps : list exportID;
  a_queue : list pcall;
  a_disembargoes : list qdisembargo }.

(** What the connection writes with the [log] package. *)
Inductive LogEntry : Type :=
| LogErr (prefix : string) (e : error)
| LogAbort (a : error)
| LogQuestionError (e : error)
| LogUnknownCap (which : N)
| LogUnimplemented (m : Message).

(** A local call started by [lockedCall] and joined to an answer by
    [go joinAnswer(result, answer)]. *)
Record RoutedCall := mkRouted {
  rc_client : Client;
  rc_call : Call;
  rc_result : answerID }.

(** [Conn].  [questions] holds pointers: a question outlives its table
    entry, so the structs live in [qheap] and the table holds indices
    into it.  [out] is the channel to the send loop, oldest message
    first; [tr_sent] and [tr_closed] are what the transport has been
    asked to do; [calls] and [lifted] record the local calls started
    and the embargoes lifted. *)
Record Conn := mkConn {
  mainFunc : option (res Client);
  mgr_err : option error;
  out : list Message;
  tr_sent : list Message;
  tr_closed : bool;
  log : list LogEntry;
  mu_held : bool;
  questions : list (option nat);
  qheap : list question;
  questionIDs : idgen;
  exports : list (option export);
  exportIDs : idgen;
  embargoes : list (option unit);
  embargoIDs : idgen;
  answers : gmap N answer;
  imports : gmap N impent;
  calls : list RoutedCall;
  lifted : list embargoID }.

(** Field updates of [Conn]. *)

Definition set_mgr_err (v : option error) (c : Conn) : Conn :=
  mkConn (mainFunc c) v (out c) (tr_sent c) (tr_closed c) (log c) (mu_held c) (questions c) (qheap c) (questionIDs c) (exports c) (exportIDs c) (embargoes c) (embargoIDs c) (answers c) (imports c) (calls c) (lifted c).

Definition set_out (v : list Message) (c : Conn) : Conn :=
  mkConn (mainFunc c) (mgr_err c) v (tr_sent c) (tr_closed c) (log c) (mu_held c) (questions c) (qheap c) (questionIDs c) (exports c) (exportIDs c) (embargoes c) (embargoIDs c) (answers c) (imports c) (calls c) (lifted c).

Definition set_tr_sent (v : list Message) (c : Conn) : Conn :=
  mkConn (mainFunc c) (mgr_err c) (out c) v (tr_closed c) (log c) (mu_held c) (questions c) (qheap c) (questionIDs c) (exports c) (exportIDs c) (embargoes c) (embargoIDs c) (answers c) (imports c) (calls c) (lifted c).

Definition set_tr_closed (v : bool) (c : Conn) : Conn :=
  mkConn (mainFunc c) (mgr_err c) (out c) (tr_sent c) v (log c) (mu_held c) (questions c) (qheap c) (questionIDs c) (exports c) (exportIDs c) (embargoes c) (embargoIDs c) (answers c) (imports c) (calls c) (lifted c).

Definition set_log (v : list LogEntry) (c : Conn) : Conn :=
  mkConn (mainFunc c) (mgr_err c) (out c) (tr_sent c) (tr_closed c) v (mu_held c) (questions c) (qheap c) (questionIDs c) (exports c) (exportIDs c) (embargoes c) (embargoIDs c) (answers c) (imports c) (calls c) (lifted c).

Definition set_mu_held (v : bool) (c : Conn) : Conn :=
  mkConn (mainFunc c) (mgr_err c) (out c) (tr_sent c) (tr_closed c) (log c) v (questions c) (qheap c) (questionIDs c) (exports c) (exportIDs c) (embargoes c) (embargoIDs c) (answers c) (imports c) (calls c) (lifted c).

Definition set_questions (v : list (option nat)) (c : Conn) : Conn :=
  mkConn (mainFunc c) (mgr_err c) (out c) (tr_sent c) (tr_closed c) (log c) (mu_held c) v (qheap c) (questionIDs c) (exports c) (exportIDs c) (embargoes c) (embargoIDs c) (answers c) (imports c) (calls c) (lifted c).

Definition set_qheap (v : list question) (c : Conn) : Conn :=
  mkConn (mainFunc c) (mgr_err c) (out c) (tr_sent c) (tr_closed c) (log c) (mu_held c) (questions c) v (questionIDs c) (exports c) (exportIDs c) (embargoes c) (embargoIDs c) (answers c) (imports c) (calls c) (lifted c).

Definition set_questionIDs (v : idgen) (c : Conn) : Conn :=
  mkConn (mainFunc c) (mgr_err c) (out c) (tr_sent c) (tr_closed c) (log c) (mu_held c) (questions c) (qheap c) v (exports c) (exportIDs c) (embargoes c) (embargoIDs c) (answers c) (imports c) (calls c) (lifted c).

Definition set_exports (v : list (option export)) (c : Conn) : Conn :=
  mkConn (mainFunc c) (mgr_err c) (out c) (tr_sent c) (tr_closed c) (log c) (mu_held c) (questions c) (qheap c) (questionIDs c) v (exportIDs c) (embargoes c) (embargoIDs c) (answers c) (imports c) (calls c) (lifted c).

Definition set_exportIDs (v : idgen) (c : Conn) : Conn :=
  mkConn (mainFunc c) (mgr_err c) (out c) (tr_sent c) (tr_closed c) (log c) (mu_held c) (questions c) (qheap c) (questionIDs c) (exports c) v (embargoes c) (embargoIDs c) (answers c) (imports c) (calls c) (lifted c).

Definition set_embargoes (v : list (option unit)) (c : Conn) : Conn :=
  mkConn (mainFunc c) (mgr_err c) (out c) (tr_sent c) (tr_closed c) (log c) (mu_held c) (questions c) (qheap c) (questionIDs c) (exports c) (exportIDs c) v (embargoIDs c) (answers c) (imports c) (calls c) (lifted c).

Definition set_embargoIDs (v : idgen) (c : Conn) : Conn :=
  mkConn (mainFunc c) (mgr_err c) (out c) (tr_sent c) (tr_closed c) (log c) (mu_held c) (questions c) (qheap c) (questionIDs c) (exports c) (exportIDs c) (embargoes c) v (answers c) (imports c) (calls c) (lifted c).

Definition set_answers (v : gmap N answer) (c : Conn) : Conn :=
  mkConn (mainFunc c) (mgr_err c) (out c) (tr_sent c) (tr_closed c) (log c) (mu_held c) (questions c) (qheap c) (questionIDs c) (exports c) (exportIDs c) (embargoes c) (embargoIDs c) v (imports c) (calls c) (lifted c).

Definition set_imports (v : gmap N impent) (c : Conn) : Conn :=
  mkConn (mainFunc c) (mgr_err c) (out c) (tr_sent c) (tr_closed c) (log c) (mu_held c) (questions c) (qheap c) (questionIDs c) (exports c) (exportIDs c) (embargoes c) (embargoIDs c) (answers c) v (calls c) (lifted c).

Definition set_calls (v : list RoutedCall) (c : Conn) : Conn :=
  mkConn (mainFunc c) (mgr_err c) (out c) (tr_sent c) (tr_closed c) (log c) (mu_held c) (questions c) (qheap c) (questionIDs c) (exports c) (exportIDs c) (embargoes c) (embargoIDs c) (answers c) (imports c) v (lifted c).

Definition set_lifted (v : list embargoID) (c : Conn) : Conn :=
  mkConn (mainFunc c) (mgr_err c) (out c) (tr_sent c) (tr_closed c) (log c) (mu_held c) (questions c) (qheap c) (questionIDs c) (exports c) (exportIDs c) (embargoes c) (embargoIDs c) (answers c) (imports c) (calls c) v.

(** ** The monad of connection code

    A function of [rpc.go] reads and writes the connection; it returns,
    panics (a nil dereference, an explicit [panic]), or blocks (a
    receive on a channel nobody will send on). *)

Inductive outcome (A : Type) : Type :=
| Done (a : A) (c : Conn)
| Panic (why : string)
| Blocked.
Arguments Done {A} a c.
Arguments Panic {A} why.
Arguments Blocked {A}.

Definition M (A : Type) : Type := Conn -> outcome A.

Definition ret {A : Type} (a : A) : M A := fun c => Done a c.

Definition bind {A B : Type} (m : M A) (k : A -> M B) : M B :=
  fun c =>
    match m c with
    | Done a c' => k a c'
    | Panic why => Panic why
    | Blocked => Blocked
    end.

Notation "'let*' x ':=' m 'in' k" := (bind m (fun x => k))
  (at level 10, x name, m at level 100, k at level 200).
Notation "m ';;' k" := (bind m (fun _ => k))
  (at level 100, k at level 200, right associativity).

Definition gets {A : Type} (f : Conn -> A) : M A := fun c => Done (f c) c.

Definition modify (f : Conn -> Conn) : M unit := fun c => Done tt (f c).

Definition panic {A : Type} (why : string) : M A := fun _ => Panic why.

(** [for _, x := range l { f(x) }] *)
Fixpoint forM_ {A : Type} (l : list A) (f : A -> M unit) : M unit :=
  match l with
  | [] => ret tt
  | x :: rest => f x ;; forM_ rest f
  end.

(** [log.Println] and friends. *)
Definition logf (e : LogEntry) : M unit :=
  modify (fun c => set_log (log c ++ [e]) c).

(** [c.mu.Lock()]: a receive on the mutex channel. *)
Definition mu_Lock : M unit :=
  fun c => if mu_held c then Blocked else Done tt (set_mu_held true c).

(** [c.mu.Unlock()]: a send on the mutex channel, whose buffer has
    room for the one token. *)
Definition mu_Unlock : M unit :=
  fun c => if mu_held c then Done tt (set_mu_held false c) else Blocked.

(** ** The manager

    The manager is declared outside [rpc.go]; the connection keeps its
    terminal error in [mgr_err]. *)

(** Modelled from the spec: [manager.shutdown] (section 4.1) sets the
    terminal error at most once: the first caller wins and is told so,
    later callers observe that the shutdown already happened. *)
Definition manager_shutdown (e : error) : M bool :=
  fun c =>
    match mgr_err c with
    | None => Done true (set_mgr_err (Some e) c)
    | Some _ => Done false c
    end.

(** Modelled from the spec: the [finish] signal of the manager (section
    4.1) has fired exactly when the terminal error is set. *)
Definition manager_finished (c : Conn) : bool :=
  match mgr_err c with Some _ => true | None => false end.

(** Modelled from the spec: [manager.wait] (section 4.1) blocks until
    [finish] is signaled. *)
Definition manager_wait : M unit :=
  fun c => if manager_finished c then Done tt c else Blocked.

(** Modelled from the spec: [manager.err] (section 4.1) reads the
    terminal error. *)
Definition manager_err : M (option error) := gets mgr_err.

(** Modelled from the spec: [sendMessage] enqueues a message for the
    send loop (section 4.2); the enqueue fails with the terminal error
    when the connection is shutting down (section 4.6).  On a full
    buffer the enqueue makes the caller wait (section 5): the model
    gives the outcome once that wait is over, for a send loop that
    keeps draining, so that [out] is the sequence of the messages
    enqueued, and it has no state in which the caller is still waiting.
    On a connection that is shut down the model takes the failing
    case. *)
Definition sendMessage (m : Message) : M (option error) :=
  fun c =>
    match mgr_err c with
    | None => Done None (set_out (out c ++ [m]) c)
    | Some e => Done (Some e) c
    end.

(** Modelled from the spec: [toException] puts the text of an error in
    a wire exception. *)
Definition toException (err : error) : Exception := mkException (Error err).

(** ** Constructors of outbound messages *)

Definition newUnimplementedMessage (m : Message) : Message := Msg_unimplemented m.

Definition newAbortMessage (err : error) : Message := Msg_abort (Ok (toException err)).

Definition newFinishMessage (id : questionID) (release : bool) : Message :=
  Msg_finish (Ok (mkFinish id release)).

(** [newReturnMessage] followed by [setReturnException]. *)
Definition newReturnException (id : answerID) (err : error) : Message :=
  Msg_return (Ok (mkReturn id false (Return_exception (Ok (toException err))))).

Definition newReturnResults (id : answerID) (p : Payload) : Message :=
  Msg_return (Ok (mkReturn id false (Return_results (Ok p)))).

(** [newDisembargoMessage] with [receiverLoopback], then [SetTarget]. *)
Definition newDisembargoReply (id : embargoID) (target : MessageTarget) : Message :=
  Msg_disembargo (Ok (mkDisembargo (Ok target) (DC_receiverLoopback id))).

Definition newBootstrapMessage (id : questionID) : Message :=
  Msg_bootstrap (Ok (mkBootstrap id)).

(** [abort] sends an abort message and shuts the manager down. *)
Definition abort (err : error) : M unit :=
  sendMessage (newAbortMessage err) ;;
  manager_shutdown err ;;
  ret tt.

(** ** Table operations declared outside [rpc.go] *)

#[global] Instance Method_eq_dec : EqDecision Method.
Proof. solve_decision. Defined.

#[global] Instance PipelineOp_eq_dec : EqDecision PipelineOp.
Proof. solve_decision. Defined.

#[global] Instance error_eq_dec : EqDecision error.
Proof. solve_decision. Defined.

#[global] Instance Client_eq_dec : EqDecision Client.
Proof. solve_decision. Defined.

#[global] Instance questionState_eq_dec : EqDecision questionState.
Proof. solve_decision. Defined.

(** Writing slot [i] of a table kept in a slice, growing the slice when
    the slot is past its end. *)
Definition set_slot {A : Type} (i : nat) (v : option A) (l : list (option A))
  : list (option A) :=
  if decide (i < length l)%nat then <[i := v]> l
  else l ++ replicate (i - length l)%nat None ++ [v].

Definition get_slot {A : Type} (i : nat) (l : list (option A)) : option A :=
  match l !! i with
  | Some (Some x) => Some x
  | _ => None
  end.

(** *** Exports *)

(** Modelled from the spec: [findExport] looks an export up by ID. *)
Definition findExport (id : exportID) (c : Conn) : option export :=
  get_slot (N.to_nat id) (exports c).

(** Modelled from the spec: [releaseExport] (section 4.3, release)
    decrements the export's refcount by [refs]; when it reaches zero
    the entry is dropped and the ID recycled; a negative or
    over-release is a protocol error (abort). *)
Definition releaseExport (id : exportID) (refs : Z) : M unit :=
  let* oe := gets (findExport id) in
  let cur := match oe with Some e => e_refs e | None => 0%Z end in
  if ((refs <? 0) || (cur <? refs))%Z then abort (errOverRelease id)
  else
    match oe with
    | None => ret tt
    | Some e =>
      if (cur =? refs)%Z then
        modify (fun c =>
          set_exportIDs (idgen_remove id (exportIDs c))
            (set_exports (<[N.to_nat id := None]> (exports c)) c))
      else
        modify (fun c =>
          set_exports
            (<[N.to_nat id := Some (mkExport (e_id e) (e_client e) (e_refs e - refs))]>
               (exports c)) c)
    end.

(** Modelled from the spec: the export entry a client already has
    (section 4.3.3, reuse of an export entry). *)
Fixpoint find_export_client (cl : Client) (l : list (option export)) : option export :=
  match l with
  | [] => None
  | Some e :: rest =>
    if bool_decide (e_client e = cl) then Some e else find_export_client cl rest
  | None :: rest => find_export_client cl rest
  end.

(** Modelled from the spec: the same, in the export table of the
    connection. *)
Definition export_of_client (cl : Client) (c : Conn) : option export :=
  find_export_client cl (exports c).

(** Modelled from the spec: adding an export (section 4.3.3, last
    rule): allocate or reuse an export entry and increment its
    refcount. *)
Definition addExport (cl : Client) : M exportID :=
  fun c =>
    match export_of_client cl c with
    | Some e =>
      Done (e_id e)
        (set_exports
           (<[N.to_nat (e_id e) := Some (mkExport (e_id e) (e_client e) (e_refs e + 1))]>
              (exports c)) c)
    | None =>
      let '(id, g) := idgen_next (exportIDs c) in
      Done id
        (set_exportIDs g
           (set_exports (set_slot (N.to_nat id) (Some (mkExport id cl 1)) (exports c)) c))
    end.

(** *** Imports *)

(** Modelled from the spec: [addImport] (section 4.3.2) finds or
    creates the import entry, increments its refcount by one and
    returns its proxy client. *)
Definition addImport (id : importID) : M Client :=
  modify (fun c =>
    let n := match imports c !! id with Some i => i_refs i | None => 0%Z end in
    set_imports (<[id := mkImpent (n + 1)]> (imports c)) c) ;;
  ret (ImportClient id).

(** *** Questions *)

(** Modelled from the spec: [newQuestion] (section 4.4) allocates an ID
    and enters a pending question under it. *)
Definition newQuestion (method : option Method) : M nat :=
  fun c =>
    let '(id, g) := idgen_next (questionIDs c) in
    let r := length (qheap c) in
    Done r
      (set_questionIDs g
         (set_questions (set_slot (N.to_nat id) (Some r) (questions c))
            (set_qheap
               (qheap c ++ [mkQuestion id method [] questionInProgress None None false])
               c))).

(** Modelled from the spec: [popQuestion] (section 4.4) looks the
    question up, removes it and recycles the ID; nil when absent. *)
Definition popQuestion (id : questionID) : M (option nat) :=
  fun c =>
    match get_slot (N.to_nat id) (questions c) with
    | None => Done None c
    | Some r =>
      Done (Some r)
        (set_questionIDs (idgen_remove id (questionIDs c))
           (set_questions (<[N.to_nat id := None]> (questions c)) c))
    end.

(** Reading the struct a question pointer refers to. *)
Definition question_at (r : nat) : M question :=
  fun c =>
    match qheap c !! r with
    | Some q => Done q c
    | None => Panic "invalid memory address or nil pointer dereference"
    end.

Definition set_question (r : nat) (q : question) : M unit :=
  modify (fun c => set_qheap (<[r := q]> (qheap c)) c).

(** Modelled from the spec: [question.fulfill] is a terminal transition
    of a question, idempotent after the first (section 4.4). *)
Definition question_fulfill (r : nat) (obj : Ptr) : M unit :=
  let* q := question_at r in
  match q_state q with
  | questionInProgress =>
    set_question r
      (mkQuestion (q_id q) (q_method q) (q_paramCaps q) questionResolved
         (Some obj) (q_err q) (q_started q))
  | _ => ret tt
  end.

(** Modelled from the spec: [question.reject] is the other terminal
    transition, to the given state, idempotent after the first (section
    4.4); it tells whether it made the transition. *)
Definition question_reject (r : nat) (state : questionState) (err : error) : M bool :=
  let* q := question_at r in
  match q_state q with
  | questionInProgress =>
    set_question r
      (mkQuestion (q_id q) (q_method q) (q_paramCaps q) state
         (q_obj q) (Some err) (q_started q)) ;;
    ret true
  | _ => ret false
  end.

(** Modelled from the spec: [start] signals that the send has been
    enqueued (section 4.4). *)
Definition question_start (r : nat) : M unit :=
  let* q := question_at r in
  set_question r
    (mkQuestion (q_id q) (q_method q) (q_paramCaps q) (q_state q)
       (q_obj q) (q_err q) true).

(** Modelled from the spec: cancellation of a question's context
    (section 4.4): before resolution the question becomes canceled and
    [finish { releaseResultCaps = true }] is sent; prior to [start] a
    cancellation sends no finish. *)
Definition question_cancel (r : nat) (ctxerr : error) : M unit :=
  let* q := question_at r in
  if q_started q then
    let* rejected := question_reject r questionCanceled ctxerr in
    if (rejected : bool) then sendMessage (newFinishMessage (q_id q) true) ;; ret tt
    else ret tt
  else ret tt.

(** *** Answers *)

(** Modelled from the spec: an answer as it is inserted: pending, with
    nothing queued. *)
Definition newAnswer (id : answerID) : answer :=
  mkAnswer id false false None None [] [] [].

(** Modelled from the spec: [insertAnswer] (section 4.3, bootstrap)
    inserts a new answer at [id]; nil when [id] is already in use.  The
    pointer it returns is kept as the ID, the key of the arena. *)
Definition insertAnswer (id : answerID) : M (option answerID) :=
  fun c =>
    match answers c !! id with
    | Some _ => Done None c
    | None => Done (Some id) (set_answers (<[id := newAnswer id]> (answers c)) c)
    end.

(** Modelled from the spec: [popAnswer] (section 4.3, finish) looks the
    answer up and removes it; nil when absent. *)
Definition popAnswer (id : answerID) : M (option answer) :=
  fun c => Done (answers c !! id) (set_answers (delete id (answers c)) c).

Definition alter_answer (f : answer -> answer) (id : answerID) : M unit :=
  modify (fun c => set_answers (alter f id (answers c)) c).

(** Modelled from the spec: the answer's [cancel] handle (section 3)
    cancels the context of its local execution. *)
Definition answer_cancel (id : answerID) : M unit :=
  alter_answer (fun a =>
    mkAnswer (a_id a) true (a_done a) (a_obj a) (a_err a) (a_resultCaps a)
      (a_queue a) (a_disembargoes a)) id.

(** Modelled from the spec: [pipelineClient] (section 4.3.2) is the
    answer's pipeline client bound to a transform. *)
Definition pipelineClient (a : answer) (transform : list PipelineOp) : Client :=
  AnswerPipeline (a_id a) transform.

(** Modelled from the spec: [lockedCall] initiates a local call on a
    capability and [go joinAnswer(result, answer)] splices its future
    answer into the new answer (section 4.3.1); the pair is recorded. *)
Definition lockedCall (client : Client) (cl : Call) (result : answerID) : M unit :=
  modify (fun c => set_calls (calls c ++ [mkRouted client cl result]) c).

(** Modelled from the spec: [capnp.TransformPtr]: a transform is an
    ordered list of pointer-field indices selecting sub-structures of
    the result; the empty transform is the result root (section
    4.3.1).  A null struct has null fields. *)
Fixpoint TransformPtr (v : PtrVal) (transform : list PipelineOp) : res PtrVal :=
  match transform with
  | [] => Ok v
  | op :: rest =>
    match v with
    | PStruct ptrs => TransformPtr (default PNull (ptrs !! N.to_nat (Field op))) rest
    | PNull => TransformPtr PNull rest
    | _ => Fail errTransform
    end
  end.

(** [out.Interface().Client()]: the entry of the message's cap table an
    interface pointer names; nil for any other pointer. *)
Definition Ptr_Client (v : PtrVal) (caps : list Client) : Client :=
  match v with
  | PInterface i => default NilClient (caps !! N.to_nat i)
  | _ => NilClient
  end.

Definition nullPtr : Ptr := mkPtr PNull [].

(** [clientFromResolution] retrieves a client from a resolved question
    or answer by applying a transform. *)
Definition clientFromResolution (transform : list PipelineOp) (obj : Ptr)
    (err : option error) : Client :=
  match err with
  | Some e => ErrorClient e
  | None =>
    match TransformPtr (ptr_val obj) transform with
    | Fail e => ErrorClient e
    | Ok out =>
      match Ptr_Client out (ptr_caps obj) with
      | NilClient => ErrorClient errNullClient
      | c => c
      end
    end
  end.

(** [promisedAnswerOpsToTransform]: [getPointerField] appends a step,
    [noop] and any other op append nothing. *)
Fixpoint promisedAnswerOpsToTransform (l : list PromisedAnswer_Op) : list PipelineOp :=
  match l with
  | [] => []
  | Op_getPointerField f :: rest => mkOp f :: promisedAnswerOpsToTransform rest
  | _ :: rest => promisedAnswerOpsToTransform rest
  end.

(** [transformToPromisedAnswer]: one [getPointerField] op per step, the
    field converted with [uint16]. *)
Definition transformToPromisedAnswer (transform : list PipelineOp) : list PromisedAnswer_Op :=
  map (fun op => Op_getPointerField (Field op mod 65536)) transform.

(** *** Outbound cap tables *)

(** A question pointer whose question is still in the table. *)
Definition question_outstanding (r : nat) (c : Conn) : option question :=
  match qheap c !! r with
  | Some q =>
    match get_slot (N.to_nat (q_id q)) (questions c) with
    | Some r' => if bool_decide (r' = r) then Some q else None
    | None => None
    end
  | None => None
  end.

(** Modelled from the spec: [descriptorForClient] (section 4.3.3)
    classifies a client: an import of this connection is
    [receiverHosted], the pipeline of an outstanding question is
    [receiverAnswer], any other client is exported as [senderHosted]. *)
Definition descriptorForClient (client : Client) : M CapDescriptor :=
  fun c =>
    let exported := (let* id := addExport client in ret (CD_senderHosted id)) in
    match client with
    | NilClient => Done CD_none c
    | ImportClient id =>
      match imports c !! id with
      | Some _ => Done (CD_receiverHosted id) c
      | None => exported c
      end
    | QuestionPipeline r transform =>
      match question_outstanding r c with
      | Some q =>
        Done (CD_receiverAnswer
                (Ok (mkPromisedAnswer (q_id q) (Ok (transformToPromisedAnswer transform))))) c
      | None => exported c
      end
    | _ => exported c
    end.

(** The loop of [makeCapTable] over the message's cap table. *)
Fixpoint makeCapTable_loop (msgtab : list Client) : M (list CapDescriptor) :=
  match msgtab with
  | [] => ret []
  | client :: rest =>
    let* desc :=
      (match client with
       | NilClient => ret CD_none
       | _ => descriptorForClient client
       end) in
    let* t := makeCapTable_loop rest in
    ret (desc :: t)
  end.

(** [makeCapTable] converts the clients in the segment's message into
    capability descriptors.  [alloc] is the error of
    [rpccapnp.NewCapDescriptor_List], the allocation of the list in the
    segment; [msgtab] is [s.Message().CapTable].  The result is the
    descriptor list and the returned error. *)
Definition makeCapTable (alloc : option error) (msgtab : list Client)
  : M (list CapDescriptor * option error) :=
  match alloc with
  | Some _ => ret ([], None)
  | None =>
    let* t := makeCapTable_loop msgtab in
    ret (t, None)
  end.

(** What the segment answers to the calls of [fillParams]:
    [cl.PlaceParams], [payload.SetContent], the allocation inside
    [makeCapTable], and [payload.SetCapTable]. *)
Record SegmentCalls := mkSegmentCalls {
  seg_PlaceParams : res Ptr;
  seg_SetContent : option error;
  seg_NewCapDescriptor_List : option error;
  seg_SetCapTable : option error }.

(** [fillParams] fills a payload (empty at first) with the parameters of
    a call and the cap table of its message; the result is the payload
    as it is left and the returned error. *)
Definition fillParams (seg : SegmentCalls) : M (Payload * option error) :=
  let payload := mkPayload (Ok PNull) (Ok []) in
  match seg_PlaceParams seg with
  | Fail err => ret (payload, Some err)
  | Ok params =>
    match seg_SetContent seg with
    | Some err => ret (payload, Some err)
    | None =>
      let payload := mkPayload (Ok (ptr_val params)) (pl_CapTable payload) in
      let* r := makeCapTable (seg_NewCapDescriptor_List seg) (ptr_caps params) in
      match snd r with
      | Some err => ret (payload, Some err)
      | None =>
        match seg_SetCapTable seg with
        | Some err => ret (payload, Some err)
        | None => ret (mkPayload (pl_Content payload) (Ok (fst r)), None)
        end
      end
    end
  end.

(** The export IDs that appear in a descriptor list. *)
Definition senderHosted_ids (l : list CapDescriptor) : list exportID :=
  omap (fun d => match d with CD_senderHosted id => Some id | _ => None end) l.

(** Modelled from the spec: once an answer is resolved its queued
    pipelined calls are dispatched to the resolved target in queue
    order, and its disembargoes drain last (section 3). *)
Definition dispatch_queue (obj : Ptr) (err : option error) (a : option answer) : M unit :=
  match a with
  | None => ret tt
  | Some a =>
    forM_ (a_queue a) (fun pc =>
      lockedCall (clientFromResolution (pc_transform pc) obj err)
        (pc_call pc) (pc_result pc)) ;;
    forM_ (a_disembargoes a) (fun d =>
      sendMessage (newDisembargoReply (qd_id d) (qd_target d)) ;; ret tt)
  end.

(** Modelled from the spec: [answer.fulfill] resolves the answer with a
    pointer, records the exports that appear in the result as its
    result caps, sends [return { results }] to the peer and dispatches
    the queue; its error is that of the send. *)
Definition answer_fulfill (id : answerID) (obj : Ptr) : M (option error) :=
  let* old := gets (fun c => answers c !! id) in
  let* ct := makeCapTable None (ptr_caps obj) in
  alter_answer (fun a =>
    mkAnswer (a_id a) (a_canceled a) true (Some obj) None
      (senderHosted_ids (fst ct)) [] []) id ;;
  let* serr := sendMessage
    (newReturnResults id (mkPayload (Ok (ptr_val obj)) (Ok (fst ct)))) in
  dispatch_queue obj None old ;;
  ret serr.

(** Modelled from the spec: [answer.reject] resolves the answer with an
    error, sends [return { exception }] to the peer and dispatches the
    queue; its error is that of the send. *)
Definition answer_reject (id : answerID) (err : error) : M (option error) :=
  let* old := gets (fun c => answers c !! id) in
  alter_answer (fun a =>
    mkAnswer (a_id a) (a_canceled a) true None (Some err)
      (a_resultCaps a) [] []) id ;;
  let* serr := sendMessage (newReturnException id err) in
  dispatch_queue nullPtr (Some err) old ;;
  ret serr.

(** Modelled from the spec: [queueCall] enqueues a call on the answer's
    pipeline queue, keyed by its transform (section 4.3.1). *)
Definition queueCall (id : answerID) (pc : pcall) : M (option error) :=
  alter_answer (fun a =>
    mkAnswer (a_id a) (a_canceled a) (a_done a) (a_obj a) (a_err a)
      (a_resultCaps a) (a_queue a ++ [pc]) (a_disembargoes a)) id ;;
  ret None.

(** Modelled from the spec: [queueDisembargo] (section 4.5): on a
    pending answer the disembargo is enqueued behind the queued calls;
    on a resolved answer nothing is queued. *)
Definition queueDisembargo (a : answer) (d : qdisembargo) : M (bool * option error) :=
  if a_done a then ret (false, None)
  else
    alter_answer (fun a =>
      mkAnswer (a_id a) (a_canceled a) (a_done a) (a_obj a) (a_err a)
        (a_resultCaps a) (a_queue a) (a_disembargoes a ++ [d])) (a_id a) ;;
    ret (true, None).

(** Modelled from the spec: [c.disembargo] (section 4.5) looks the
    embargo up in the registry, completes it and recycles the ID. *)
Definition disembargo (id : embargoID) : M unit :=
  fun c =>
    match get_slot (N.to_nat id) (embargoes c) with
    | None => Done tt c
    | Some _ =>
      Done tt
        (set_lifted (lifted c ++ [id])
           (set_embargoIDs (idgen_remove id (embargoIDs c))
              (set_embargoes (<[N.to_nat id := None]> (embargoes c)) c)))
    end.

(** ** The functions of [rpc.go] *)

(** The accessors of [rpccapnp.Message].  A handler calls the accessor
    of the union member [handleMessage] has dispatched on; on another
    member the accessor has nothing to decode. *)
Definition Message_Return (m : Message) : res Return :=
  match m with Msg_return r => r | _ => Fail (errDecode "return") end.

Definition Message_Finish (m : Message) : res Finish :=
  match m with Msg_finish f => f | _ => Fail (errDecode "finish") end.

Definition Message_Bootstrap (m : Message) : res Bootstrap_msg :=
  match m with Msg_bootstrap b => b | _ => Fail (errDecode "bootstrap") end.

Definition Message_Call (m : Message) : res Call_msg :=
  match m with Msg_call cm => cm | _ => Fail (errDecode "call") end.

Definition Message_Release (m : Message) : res Release :=
  match m with Msg_release r => r | _ => Fail (errDecode "release") end.

Definition Message_Disembargo (m : Message) : res Disembargo :=
  match m with Msg_disembargo d => d | _ => Fail (errDecode "disembargo") end.

(** Modelled from the spec: [copyAbort] decodes the exception of an
    abort message into an [Abort] error (section 4.3, abort); the zero
    value comes with the error when the exception does not decode. *)
Definition copyAbort (m : Message) : error * option error :=
  match m with
  | Msg_abort (Ok exc) => (Abort (exc_Reason exc), None)
  | Msg_abort (Fail err) => (Abort "", Some err)
  | _ => (Abort "", Some (errDecode "abort"))
  end.

(** The loop of [populateMessageCapTable]: [caps] is the cap table of
    the message, to which [msg.AddCap] appends. *)
Fixpoint populate_loop (ctab : list CapDescriptor) (caps : list Client)
  : M (list Client * option error) :=
  match ctab with
  | [] => ret (caps, None)
  | desc :: rest =>
    match desc with
    | CD_none => populate_loop rest (caps ++ [NilClient])
    | CD_senderHosted id =>
      let* client := addImport id in
      populate_loop rest (caps ++ [client])
    | CD_senderPromise id =>
      let* client := addImport id in
      populate_loop rest (caps ++ [client])
    | CD_receiverHosted id =>
      let* e := gets (findExport id) in
      match e with
      | None => ret (caps, Some (errCapTableExport id))
      | Some e => populate_loop rest (caps ++ [e_client e])
      end
    | CD_receiverAnswer (Fail err) => ret (caps, Some err)
    | CD_receiverAnswer (Ok recvAns) =>
      let id := pa_QuestionId recvAns in
      let* a := gets (fun c => answers c !! id) in
      match a with
      | None => ret (caps, Some (errCapTableAnswer id))
      | Some a =>
        match pa_Transform recvAns with
        | Fail err => ret (caps, Some err)
        | Ok recvTransform =>
          let transform := promisedAnswerOpsToTransform recvTransform in
          populate_loop rest (caps ++ [pipelineClient a transform])
        end
      end
    | CD_other which =>
      logf (LogUnknownCap which) ;;
      ret (caps, Some errUnimplemented)
    end
  end.

(** [populateMessageCapTable] converts the descriptors in the payload
    into clients and sets them on the message the payload is a part of.
    The result is the cap table of the message and the returned
    error. *)
Definition populateMessageCapTable (payload : Payload) : M (list Client * option error) :=
  match pl_CapTable payload with
  | Fail err => ret ([], Some err)
  | Ok ctab => populate_loop ctab []
  end.

(** [handleReturnMessage] handles a received return message.  The
    caller is holding onto [c.mu]. *)
Definition handleReturnMessage (m : Message) : M (option error) :=
  match Message_Return m with
  | Fail err => ret (Some err)
  | Ok r =>
    let id := ret_AnswerId r in
    let* oq := popQuestion id in
    match oq with
    | None => ret (Some (errUnknownQuestion id))
    | Some q =>
      let* q0 := question_at q in
      (if ret_ReleaseParamCaps r
       then forM_ (q_paramCaps q0) (fun id => releaseExport id 1)
       else ret tt) ;;
      let* q1 := question_at q in
      let qstate := q_state q1 in
      if questionState_eqb qstate questionCanceled then
        (* We already sent the finish message. *)
        ret None
      else
        match ret_body r with
        | Return_results (Fail err) => ret (Some err)
        | Return_results (Ok results) =>
          let* pc := populateMessageCapTable results in
          match snd pc with
          | Some err =>
            if is_errUnimplemented err then
              sendMessage (newUnimplementedMessage m) ;;
              ret (Some errUnimplemented)
            else
              abort err ;;
              ret (Some err)
          | None =>
            match pl_Content results with
            | Fail err => ret (Some err)
            | Ok content =>
              question_fulfill q (mkPtr content (fst pc)) ;;
              sendMessage (newFinishMessage id false) ;;
              ret None
            end
          end
        | Return_exception (Fail err) => ret (Some err)
        | Return_exception (Ok exc) =>
          let e := errException (exc_Reason exc) in
          let e := match q_method q1 with
                   | Some meth => MethodError meth e
                   | None => bootstrapError e
                   end in
          question_reject q questionResolved e ;;
          sendMessage (newFinishMessage id true) ;;
          ret None
        | Return_canceled =>
          let err := questionError id (q_method q1) errReceiverCanceled in
          logf (LogQuestionError err) ;;
          question_reject q questionResolved err ;;
          ret None
        | Return_other _ =>
          sendMessage (newUnimplementedMessage m) ;;
          ret (Some errUnimplemented)
        end
    end
  end.

(** [handleBootstrapMessage] handles a received bootstrap message.  The
    caller holds onto [c.mu].  The deferred [cancel] runs last; when the
    ID is reused it cancels a context that nothing holds. *)
Definition handleBootstrapMessage (id : answerID) : M (option error) :=
  let* oa := insertAnswer id in
  match oa with
  | None =>
    (* Question ID reused, error out. *)
    sendMessage (newReturnException id errQuestionReused)
  | Some a =>
    let* mainFunc := gets mainFunc in
    let* r :=
      (match mainFunc with
       | None => answer_reject a errNoMainInterface
       | Some (Fail _) => answer_reject a errNoMainInterface
       | Some (Ok main) => answer_fulfill a (mkPtr (PInterface 0) [main])
       end) in
    answer_cancel a ;;
    ret r
  end.

(** [routeCallMessage]: [result] is the new answer. *)
Definition routeCallMessage (result : answerID) (mt : MessageTarget) (cl : Call)
  : M (option error) :=
  match mt with
  | MT_importedCap id =>
    let* e := gets (findExport id) in
    match e with
    | None => ret (Some errBadTarget)
    | Some e =>
      lockedCall (e_client e) cl result ;;
      ret None
    end
  | MT_promisedAnswer (Fail err) => ret (Some err)
  | MT_promisedAnswer (Ok mpromise) =>
    let id := pa_QuestionId mpromise in
    if id =? result then
      (* Grandfather paradox. *)
      ret (Some errBadTarget)
    else
      let* pa := gets (fun c => answers c !! id) in
      match pa with
      | None => ret (Some errBadTarget)
      | Some pa =>
        match pa_Transform mpromise with
        | Fail err => ret (Some err)
        | Ok mtrans =>
          let transform := promisedAnswerOpsToTransform mtrans in
          if a_done pa then
            let client :=
              clientFromResolution transform (default nullPtr (a_obj pa)) (a_err pa) in
            lockedCall client cl result ;;
            ret None
          else queueCall id (mkPcall transform result cl)
        end
      end
  | MT_other _ => panic "unreachable"
  end.

Definition is_call_target (mt : MessageTarget) : bool :=
  match mt with
  | MT_importedCap _ | MT_promisedAnswer _ => true
  | MT_other _ => false
  end.

(** [paramContent.Struct()]: a pointer that is not a struct reads as the
    null struct. *)
Definition Ptr_Struct (v : PtrVal) : PtrVal :=
  match v with
  | PStruct _ => v
  | _ => PNull
  end.

(** [handleCallMessage] handles a received call message.  It mutates
    the capability table of its parameter.  The caller holds onto
    [c.mu]. *)
Definition handleCallMessage (m : Message) : M (option error) :=
  match Message_Call m with
  | Fail err => ret (Some err)
  | Ok mcall =>
    match call_Target mcall with
    | Fail err => ret (Some err)
    | Ok mt =>
      if negb (is_call_target mt) then sendMessage (newUnimplementedMessage m)
      else
        match call_Params_msg mcall with
        | Fail err => ret (Some err)
        | Ok mparams =>
          let* pc := populateMessageCapTable mparams in
          match snd pc with
          | Some err =>
            if is_errUnimplemented err then sendMessage (newUnimplementedMessage m)
            else
              abort err ;;
              ret (Some err)
          | None =>
            let id := call_QuestionId mcall in
            let* oa := insertAnswer id in
            match oa with
            | None =>
              (* Question ID reused, error out. *)
              abort errQuestionReused ;;
              ret (Some errQuestionReused)
            | Some a =>
              let meth := mkMethod (call_InterfaceId mcall) (call_MethodId mcall) in
              match pl_Content mparams with
              | Fail err => ret (Some err)
              | Ok paramContent =>
                let cl := mkCall meth (mkPtr (Ptr_Struct paramContent) (fst pc)) in
                let* rerr := routeCallMessage a mt cl in
                match rerr with
                | Some err => answer_reject a err
                | None => ret None
                end
              end
            end
          end
        end
    end
  end.

Definition handleDisembargoMessage (msg : Message) : M (option error) :=
  match Message_Disembargo msg with
  | Fail err => ret (Some err)
  | Ok d =>
    match dis_Target d with
    | Fail err => ret (Some err)
    | Ok dtarget =>
      match dis_Context d with
      | DC_senderLoopback id =>
        match dtarget with
        | MT_promisedAnswer (Fail err) => ret (Some err)
        | MT_promisedAnswer (Ok dpa) =>
          let aid := pa_QuestionId dpa in
          let* a := gets (fun c => answers c !! aid) in
          match a with
          | None => ret (Some errDisembargoMissingAnswer)
          | Some a =>
            match pa_Transform dpa with
            | Fail err => ret (Some err)
            | Ok dtrans =>
              let transform := promisedAnswerOpsToTransform dtrans in
              let* qr := queueDisembargo a (mkQdisembargo transform id dtarget) in
              match snd qr with
              | Some err => ret (Some err)
              | None =>
                if negb (fst qr) then
                  (* There's nothing to embargo; everything's been delivered.
                     [rd.SetTarget(dtarget)] writes the target into the
                     reply; a reply that cannot be built is not part of
                     the model. *)
                  sendMessage (newDisembargoReply id dtarget) ;;
                  ret None
                else ret None
              end
            end
          end
        | _ => ret (Some errDisembargoNonImport)
        end
      | DC_receiverLoopback id =>
        disembargo id ;;
        ret None
      | _ =>
        sendMessage (newUnimplementedMessage msg) ;;
        ret None
      end
    end
  end.

(** [if err != nil { log.Println(prefix, err) }] *)
Definition log_if_err (prefix : string) (err : option error) : M unit :=
  match err with
  | Some e => logf (LogErr prefix e)
  | None => ret tt
  end.

(** [handleMessage] is run from the receive goroutine to process a
    single message; [c.mu] is not held at its start. *)
Definition handleMessage (m : Message) : M unit :=
  match m with
  | Msg_unimplemented _ =>
    (* no-op for now to avoid feedback loop *)
    ret tt
  | Msg_abort _ =>
    let '(a, err) := copyAbort m in
    log_if_err "rpc: decode abort:" err ;;
    logf (LogAbort a) ;;
    manager_shutdown a ;;
    ret tt
  | Msg_return _ =>
    mu_Lock ;;
    let* err := handleReturnMessage m in
    mu_Unlock ;;
    log_if_err "rpc: handle return:" err
  | Msg_finish _ =>
    match Message_Finish m with
    | Fail err => logf (LogErr "rpc: decode finish:" err)
    | Ok mfin =>
      let id := fin_QuestionId mfin in
      mu_Lock ;;
      let* oa := popAnswer id in
      match oa with
      | None => panic "invalid memory address or nil pointer dereference"
      | Some a =>
        (* a.cancel(): the answer has left the table with its context *)
        (if fin_ReleaseResultCaps mfin
         then forM_ (a_resultCaps a) (fun id => releaseExport id 1)
         else ret tt) ;;
        mu_Unlock
      end
    end
  | Msg_bootstrap _ =>
    match Message_Bootstrap m with
    | Fail err => logf (LogErr "rpc: decode bootstrap:" err)
    | Ok boot =>
      let id := boot_QuestionId boot in
      mu_Lock ;;
      let* err := handleBootstrapMessage id in
      mu_Unlock ;;
      log_if_err "rpc: handle bootstrap:" err
    end
  | Msg_call _ =>
    mu_Lock ;;
    let* err := handleCallMessage m in
    mu_Unlock ;;
    log_if_err "rpc: handle call:" err
  | Msg_release _ =>
    match Message_Release m with
    | Fail err => logf (LogErr "rpc: decode release:" err)
    | Ok rel =>
      let id := rel_Id rel in
      let refs := Z.of_N (rel_ReferenceCount rel) in
      mu_Lock ;;
      releaseExport id refs ;;
      mu_Unlock
    end
  | Msg_disembargo _ =>
    mu_Lock ;;
    let* err := handleDisembargoMessage m in
    mu_Unlock ;;
    match err with
    | Some err =>
      (* Any failure in a disembargo is a protocol violation. *)
      abort err
    | None => ret tt
    end
  | Msg_other _ =>
    logf (LogUnimplemented m) ;;
    sendMessage (newUnimplementedMessage m) ;;
    ret tt
  end.

(** The case a [select] of [Bootstrap] takes.  A case can be taken only
    when its channel operation is ready; [Send_out] is the enqueue once
    the buffer has room, as in [sendMessage]. *)
Inductive lock_select : Type :=
| Lock_mu
| Lock_ctxDone
| Lock_finish.

Inductive send_select : Type :=
| Send_out
| Send_ctxDone
| Send_finish.

(** [Bootstrap] returns the receiver's main interface.  [ctx] is
    [ctx.Err()], set exactly when [ctx.Done()] is closed. *)
Definition Bootstrap (ctx : option error) (s1 : lock_select) (s2 : send_select)
  : M Client :=
  match s1 with
  | Lock_ctxDone =>
    match ctx with
    | Some e => ret (ErrorClient e)
    | None => fun _ => Blocked
    end
  | Lock_finish =>
    let* e := manager_err in
    match e with
    | Some e => ret (ErrorClient e)
    | None => fun _ => Blocked
    end
  | Lock_mu =>
    mu_Lock ;;
    let* q := newQuestion None in
    let* q0 := question_at q in
    let msg := newBootstrapMessage (q_id q0) in
    let* r :=
      (match s2 with
       | Send_out =>
         modify (fun c => set_out (out c ++ [msg]) c) ;;
         question_start q ;;
         ret (QuestionPipeline q [])
       | Send_ctxDone =>
         match ctx with
         | Some e =>
           popQuestion (q_id q0) ;;
           ret (ErrorClient e)
         | None => fun _ => Blocked
         end
       | Send_finish =>
         let* e := manager_err in
         match e with
         | Some e =>
           popQuestion (q_id q0) ;;
           ret (ErrorClient e)
         | None => fun _ => Blocked
         end
       end) in
    (* defer c.mu.Unlock() *)
    mu_Unlock ;;
    ret r
  end.

(** [Close] closes the connection.  [werr] and [cerr] are what the
    transport returns from [SendMessage] and [Close]. *)
Definition Close (werr cerr : option error) : M (option error) :=
  (* Stop helper goroutines. *)
  let* first := manager_shutdown ErrConnClosed in
  if negb first then ret (Some ErrConnClosed)
  else
    manager_wait ;;
    (* Hang up. *)
    let n := newAbortMessage errShutdown in
    modify (fun c => set_tr_sent (tr_sent c ++ [n]) c) ;;
    modify (set_tr_closed true) ;;
    match werr with
    | Some e => ret (Some e)
    | None =>
      match cerr with
      | Some e => ret (Some e)
      | None => ret None
      end
    end.

(** [NewConn] with the bootstrap factory its options set:
    [MainInterface(client)] gives [Some (Ok client)], [BootstrapFunc(f)]
    gives what [f] returns, no option gives [None].  The result is the
    connection as the goroutines [NewConn] starts find it: all tables
    empty, the mutex free. *)
Definition NewConn (mainFunc : option (res Client)) : Conn :=
  mkConn mainFunc None [] [] false [] false [] [] (mkIdgen 0 []) []
    (mkIdgen 0 []) [] (mkIdgen 0 []) ∅ ∅ [] [].

(** ** Connections used as examples

    Each is reached from [NewConn] by running the functions above. *)

Definition after {A : Type} (m : M A) (c : Conn) : Conn :=
  match m c with
  | Done _ c' => c'
  | _ => c
  end.

(** A connection that has sent a bootstrap (question 0), exports a
    local capability as export 0, and whose caller then canceled the
    bootstrap, so that [finish { releaseResultCaps = true }] is out. *)
Definition conn_canceled_bootstrap : Conn :=
  after (question_cancel 0 ctxCanceled)
    (after (addExport (LocalClient 7))
       (after (Bootstrap None Lock_mu Send_out) (NewConn None))).

(** The same connection before the cancellation. *)
Definition conn_pending_bootstrap : Conn :=
  after (addExport (LocalClient 7))
    (after (Bootstrap None Lock_mu Send_out) (NewConn None)).

(** The peer's late [return { results }] for question 0, whose payload
    names our export 0 and the peer's export 5. *)
Definition return_results_0 : Message :=
  Msg_return (Ok (mkReturn 0 false
    (Return_results (Ok (mkPayload (Ok (PInterface 0))
       (Ok [CD_receiverHosted 0; CD_senderHosted 5])))))).

(** ** What a step leaves alone *)

(** Every field but the export table, its ID pool, the outbound queue
    and the terminal error: what releasing exports cannot change. *)
Definition release_core (c : Conn) :=
  (mainFunc c, tr_sent c, tr_closed c, log c, mu_held c, questions c, qheap c,
   questionIDs c, embargoes c, embargoIDs c, answers c, imports c, calls c, lifted c).

(** Every field but the import table and the log: what populating a
    cap table cannot change. *)
Definition populate_core (c : Conn) :=
  (mainFunc c, mgr_err c, out c, tr_sent c, tr_closed c, mu_held c, questions c,
   qheap c, questionIDs c, exports c, exportIDs c, embargoes c, embargoIDs c,
   answers c, calls c, lifted c).

Definition is_abort_msg (m : Message) : Prop :=
  match m with Msg_abort _ => True | _ => False end.

Definition is_finish_msg (m : Message) : Prop :=
  match m with Msg_finish _ => True | _ => False end.

(** The text the peer reads in a [return { exception }]. *)
Definition return_exception_text (m : Message) : option string :=
  match m with
  | Msg_return (Ok r) =>
    match ret_body r with
    | Return_exception (Ok exc) => Some (exc_Reason exc)
    | _ => None
    end
  | _ => None
  end.

(** Every field but the export table and its ID pool: what building an
    outbound cap table cannot change. *)
Definition export_core (c : Conn) :=
  (mainFunc c, mgr_err c, out c, tr_sent c, tr_closed c, log c, mu_held c,
   questions c, qheap c, questionIDs c, embargoes c, embargoIDs c, answers c,
   imports c, calls c, lifted c).

(** A connection whose bootstrap factory, set with [BootstrapFunc],
    fails. *)
Definition conn_failing_factory : Conn :=
  NewConn (Some (Fail (errTransport "factory failed"))).

(** A connection whose main interface is a local capability. *)
Definition conn_main_interface : Conn := NewConn (Some (Ok (LocalClient 1))).

(** A descriptor that [populateMessageCapTable] turns into a client on
    connection [c]: [none] and the sender's capabilities always, a
    [receiverHosted] whose export exists, a [receiverAnswer] that
    decodes and whose answer exists. *)
Definition desc_resolves (c : Conn) (d : CapDescriptor) : Prop :=
  match d with
  | CD_none | CD_senderHosted _ | CD_senderPromise _ => True
  | CD_receiverHosted id => is_Some (findExport id c)
  | CD_receiverAnswer (Ok pa) =>
    is_Some (answers c !! pa_QuestionId pa) /\ exists ops, pa_Transform pa = Ok ops
  | CD_receiverAnswer (Fail _) => False
  | CD_other _ => False
  end.

(** A new answer once rejected with an error. *)
Definition rejected_answer (id : answerID) (err : error) : answer :=
  mkAnswer id false true None (Some err) [] [] [].

(** A call on import 9 of the peer, which this vat never exported. *)
Definition call_unknown_export : Message :=
  Msg_call (Ok (mkCallMsg 1 (Ok (MT_importedCap 9)) 0 0
    (Ok (mkPayload (Ok (PStruct [])) (Ok []))))).

(** A call on the bootstrap answer whose parameters name export 4,
    which this vat never exported. *)
Definition call_bad_captable : Message :=
  Msg_call (Ok (mkCallMsg 1
    (Ok (MT_promisedAnswer (Ok (mkPromisedAnswer 0 (Ok []))))) 0 0
    (Ok (mkPayload (Ok (PStruct [PInterface 0])) (Ok [CD_receiverHosted 4]))))).

(** A call with question ID 1 on promised answer 1: its own answer. *)
Definition call_own_answer : Message :=
  Msg_call (Ok (mkCallMsg 1
    (Ok (MT_promisedAnswer (Ok (mkPromisedAnswer 1 (Ok [Op_getPointerField 0]))))) 0 0
    (Ok (mkPayload (Ok (PStruct [])) (Ok []))))).

(** A connection that has answered the peer's bootstrap 0. *)
Definition conn_bootstrapped : Conn :=
  after (handleMessage (Msg_bootstrap (Ok (mkBootstrap 0)))) conn_main_interface.

(** The error of the accessor of the message body, when the body does
    not decode. *)
Definition body_decode_error (m : Message) : option error :=
  match m with
  | Msg_abort (Fail e) | Msg_return (Fail e) | Msg_finish (Fail e)
  | Msg_bootstrap (Fail e) | Msg_call (Fail e) | Msg_release (Fail e)
  | Msg_disembargo (Fail e) => Some e
  | _ => None
  end.

(** The connection [abort] leaves when it runs on a running [c]. *)
Definition aborted (err : error) (c : Conn) : Conn :=
  set_mgr_err (Some err) (set_out (out c ++ [newAbortMessage err]) c).

(** A finish message whose body does not decode. *)
Definition finish_undecodable : Message := Msg_finish (Fail (errDecode "finish")).

(** A disembargo with the [accept] context, and one with [provide]. *)
Definition disembargo_accept : Message :=
  Msg_disembargo (Ok (mkDisembargo (Ok (MT_importedCap 0)) DC_accept)).

Definition disembargo_provide : Message :=
  Msg_disembargo (Ok (mkDisembargo (Ok (MT_importedCap 0)) (DC_provide 2))).

(** A disembargo whose target does not decode. *)
Definition disembargo_bad_target : Message :=
  Msg_disembargo (Ok (mkDisembargo (Fail (errDecode "target")) (DC_senderLoopback 5))).

(** The connection that has answered a bootstrap, after the peer sent
    [abort "oops"] and the receive loop handled it. *)
Definition conn_peer_aborted : Conn :=
  after (handleMessage (Msg_abort (Ok (mkException "oops")))) conn_bootstrapped.

(** A connection closed while another goroutine holds the mutex. *)
Definition conn_closed_locked : Conn :=
  after (Close None None) (after mu_Lock (NewConn None)).

(** The question [newQuestion] allocates on [c]: its ID and its struct. *)
Definition next_question_id (c : Conn) : questionID := fst (idgen_next (questionIDs c)).

Definition fresh_question (c : Conn) : question :=
  mkQuestion (next_question_id c) None [] questionInProgress None None false.

(** ** More of [rpc.go] *)

(** [Wait] waits until the connection is closed or aborted by the
    remote vat, and returns the manager's terminal error. *)
Definition Wait : M (option error) :=
  manager_wait ;;
  manager_err.

(** The case the [select] of [TryLock] takes. *)
Inductive trylock_select : Type :=
| Try_mu
| Try_ctxDone.

(** [chanMutex.TryLock]: a lock that gives up when the context is done.
    [ctx] is [ctx.Err()], set exactly when [ctx.Done()] is closed. *)
Definition TryLock (ctx : option error) (s : trylock_select) : M (option error) :=
  match s with
  | Try_mu =>
    mu_Lock ;;
    ret None
  | Try_ctxDone =>
    match ctx with
    | Some e => ret (Some e)
    | None => fun _ => Blocked
    end
  end.

(** ** What the handlers keep

    The handlers run with the mutex held by their caller.  [frame]
    relates the connection before and after: the mutex, the factory and
    the transport are left alone, a terminal error stays, the outbound
    queue, the log and the records of calls and lifted embargoes only
    grow at their end, no question is allocated, no question enters the
    table, no import is dropped. *)
Record frame (c c' : Conn) : Prop := mkFrame {
  fr_mu : mu_held c' = mu_held c;
  fr_mainFunc : mainFunc c' = mainFunc c;
  fr_tr_sent : tr_sent c' = tr_sent c;
  fr_tr_closed : tr_closed c' = tr_closed c;
  fr_mgr : forall e, mgr_err c = Some e -> mgr_err c' = Some e;
  fr_out : out c `prefix_of` out c';
  fr_log : log c `prefix_of` log c';
  fr_calls : calls c `prefix_of` calls c';
  fr_lifted : lifted c `prefix_of` lifted c';
  fr_qheap : length (qheap c') = length (qheap c);
  fr_questions : forall i r,
    get_slot i (questions c') = Some r -> get_slot i (questions c) = Some r;
  fr_imports : forall id, is_Some (imports c !! id) -> is_Some (imports c' !! id) }.

(** No answer leaves the table. *)
Definition answers_kept (c c' : Conn) : Prop :=
  forall id, is_Some (answers c !! id) -> is_Some (answers c' !! id).

Definition step_rel (c c' : Conn) : Prop := frame c c' /\ answers_kept c c'.

(** A program that, started where [I] holds, returns, and relates the
    connection it leaves to the one it found by [step_rel]. *)
Definition runs (I : Conn -> Prop) {A : Type} (m : M A) : Prop :=
  forall c, I c -> exists a c', m c = Done a c' /\ step_rel c c'.

(** Every pointer in the question table refers to a question. *)
Definition conn_wf (c : Conn) : Prop :=
  forall i r, get_slot i (questions c) = Some r -> (r < length (qheap c))%nat.

(** The pointer [r] refers to a question. *)
Definition valid_question (r : nat) (c : Conn) : Prop :=
  (r < length (qheap c))%nat.

(** ** Measures on cap tables *)

(** A [senderPromise] descriptor read as [senderHosted]. *)
Definition promise_as_hosted (d : CapDescriptor) : CapDescriptor :=
  match d with
  | CD_senderPromise id => CD_senderHosted id
  | _ => d
  end.

(** The references the connection holds on import [id]. *)
Definition import_refs (id : importID) (c : Conn) : Z :=
  match imports c !! id with
  | Some i => i_refs i
  | None => 0
  end.

(** How often a descriptor list names the peer's capability [id], as
    [senderHosted] or [senderPromise]. *)
Fixpoint sender_refs (id : importID) (ctab : list CapDescriptor) : Z :=
  match ctab with
  | [] => 0
  | CD_senderHosted id' :: rest
  | CD_senderPromise id' :: rest =>
    ((if bool_decide (id' = id) then 1 else 0) + sender_refs id rest)%Z
  | _ :: rest => sender_refs id rest
  end.

(** A message that is a finish. *)
Definition is_finish (m : Message) : bool :=
  match m with Msg_finish _ => true | _ => false end.

(** A return for question 0 whose results do not decode. *)
Definition return_undecodable_results : Message :=
  Msg_return (Ok (mkReturn 0 false (Return_results (Fail (errDecode "results"))))).

(** A finish for answer 0, and a call with question ID 1 on export 0. *)
Definition finish_0 : Message := Msg_finish (Ok (mkFinish 0 false)).

(** A call with question ID 0, the ID of the bootstrap answer, on
    export 0; a call whose parameters' content does not decode; a call
    with a target of an unknown kind; a call on the bootstrap answer
    itself; a call on field 0 of answer 1. *)
Definition call_reusing_id : Message :=
  Msg_call (Ok (mkCallMsg 0 (Ok (MT_importedCap 0)) 0 0
    (Ok (mkPayload (Ok (PStruct [])) (Ok []))))).

Definition call_bad_content : Message :=
  Msg_call (Ok (mkCallMsg 1 (Ok (MT_importedCap 0)) 0 0
    (Ok (mkPayload (Fail (errDecode "content")) (Ok []))))).

Definition call_unknown_target_kind : Message :=
  Msg_call (Ok (mkCallMsg 1 (Ok (MT_other 7)) 0 0
    (Ok (mkPayload (Ok (PStruct [])) (Ok [CD_senderHosted 5]))))).

Definition call_on_bootstrap_answer : Message :=
  Msg_call (Ok (mkCallMsg 1
    (Ok (MT_promisedAnswer (Ok (mkPromisedAnswer 0 (Ok []))))) 2 3
    (Ok (mkPayload (Ok (PStruct [])) (Ok []))))).

Definition call_on_answer_1 : Message :=
  Msg_call (Ok (mkCallMsg 2
    (Ok (MT_promisedAnswer (Ok (mkPromisedAnswer 1 (Ok [Op_getPointerField 0]))))) 2 3
    (Ok (mkPayload (Ok (PStruct [])) (Ok []))))).

(** The connection once the call on the bootstrap answer is routed:
    answer 1 is pending. *)
Definition conn_call_routed : Conn :=
  after (handleMessage call_on_bootstrap_answer) conn_bootstrapped.

(** A pipelined call added at the end of an answer's queue. *)
Definition with_queued (pc : pcall) (a : answer) : answer :=
  mkAnswer (a_id a) (a_canceled a) (a_done a) (a_obj a) (a_err a)
    (a_resultCaps a) (a_queue a ++ [pc]) (a_disembargoes a).


(** A program keeps the terminal error when no run of it to the end
    changes what the manager holds. *)
Definition keeps_mgr_err {A : Type} (m : M A) : Prop :=
  forall c a c', m c = Done a c' -> mgr_err c' = mgr_err c.

(** The ID the next export gets on [c]. *)
Definition next_export_id (c : Conn) : exportID := fst (idgen_next (exportIDs c)).

(** An export entry after one reference is released: an entry with
    no reference to give is left as it is (the release aborts the
    connection), the last reference drops the entry. *)
Definition released_once (x : export) : option export :=
  if (e_refs x <? 1)%Z then Some x
  else if (e_refs x =? 1)%Z then None
  else Some (mkExport (e_id x) (e_client x) (e_refs x - 1)).

(** The connection whose bootstrap was canceled, once export 0 is
    recorded as a param cap of the canceled question. *)
Definition conn_canceled_with_param : Conn :=
  after (set_question 0
           (mkQuestion 0 None [0] questionCanceled None (Some ctxCanceled) true))
    conn_canceled_bootstrap.

(** The late return of [return_results_0], with [releaseParamCaps]. *)
Definition return_results_0_release : Message :=
  Msg_return (Ok (mkReturn 0 true
    (Return_results (Ok (mkPayload (Ok (PInterface 0))
       (Ok [CD_receiverHosted 0; CD_senderHosted 5])))))).

(** Two calls with question ID 1 on promised answer 1, their own
    answer: one whose parameters name export 4, which this vat never
    exported, and one whose parameters' content does not decode. *)
Definition call_own_answer_bad_captable : Message :=
  Msg_call (Ok (mkCallMsg 1
    (Ok (MT_promisedAnswer (Ok (mkPromisedAnswer 1 (Ok []))))) 0 0
    (Ok (mkPayload (Ok (PStruct [PInterface 0])) (Ok [CD_receiverHosted 4]))))).

Definition call_own_answer_bad_content : Message :=
  Msg_call (Ok (mkCallMsg 1
    (Ok (MT_promisedAnswer (Ok (mkPromisedAnswer 1 (Ok []))))) 0 0
    (Ok (mkPayload (Fail (errDecode "content")) (Ok []))))).

(** ** Returns, by what they carry *)

(** The client [populateMessageCapTable] makes of a descriptor on
    connection [c] (section 4.3.2): the null client for [none], the
    proxy of the import for a capability of the sender, the capability
    of the export for [receiverHosted], the pipeline client of the
    answer for [receiverAnswer]; none when the export or the answer is
    unknown, the descriptor does not decode or is of an unknown kind. *)
Definition client_of_desc (c : Conn) (d : CapDescriptor) : option Client :=
  match d with
  | CD_none => Some NilClient
  | CD_senderHosted id | CD_senderPromise id => Some (ImportClient id)
  | CD_receiverHosted id =>
    match findExport id c with
    | Some e => Some (e_client e)
    | None => None
    end
  | CD_receiverAnswer (Ok pa) =>
    match answers c !! pa_QuestionId pa, pa_Transform pa with
    | Some a, Ok ops => Some (pipelineClient a (promisedAnswerOpsToTransform ops))
    | _, _ => None
    end
  | CD_receiverAnswer (Fail _) => None
  | CD_other _ => None
  end.

(** The clients of a cap table, one per descriptor, in order. *)
Fixpoint clients_of (c : Conn) (ctab : list CapDescriptor) : option (list Client) :=
  match ctab with
  | [] => Some []
  | d :: rest =>
    match client_of_desc c d, clients_of c rest with
    | Some cl, Some cls => Some (cl :: cls)
    | _, _ => None
    end
  end.

(** A question after a terminal transition: a pending question takes
    the state, the result and the error; a question that has left the
    pending state stays as it is. *)
Definition settled (qs : question) (state : questionState)
    (obj : option Ptr) (err : option error) : question :=
  match q_state qs with
  | questionInProgress =>
    mkQuestion (q_id qs) (q_method qs) (q_paramCaps qs) state obj err (q_started qs)
  | _ => qs
  end.

(** From [c1] to [c'] nothing is enqueued but, at most, the finish of
    question [id] with the flag [release]; on a running connection it is
    enqueued and the connection stays up. *)
Definition finish_sent (c1 c' : Conn) (id : questionID) (release : bool) : Prop :=
  (out c' = out c1 \/ out c' = out c1 ++ [newFinishMessage id release]) /\
  (mgr_err c1 = None ->
   out c' = out c1 ++ [newFinishMessage id release] /\ mgr_err c' = None).

(** Handling the return [m] on [c] ends with an error: the question
    store is as it was, so the question of the return is neither
    fulfilled nor rejected, and no finish is enqueued after [c1]. *)
Definition return_unsettled (m : Message) (c c1 : Conn) : Prop :=
  exists err c',
    handleReturnMessage m c = Done (Some err) c' /\
    qheap c' = qheap c /\
    exists extra, out c' = out c1 ++ extra /\
                  Forall (fun m' => is_finish m' = false) extra.

(** A return for question 0 whose results name export 9, which this
    vat never made. *)
Definition return_results_unknown_export : Message :=
  Msg_return (Ok (mkReturn 0 false
    (Return_results (Ok (mkPayload (Ok (PInterface 0)) (Ok [CD_receiverHosted 9])))))).

(** ** Decode failures inside a cap table *)

(** The cap table of payload [p] fails to decode with [e] on [c]: the
    list itself does not decode, or a [receiverAnswer] descriptor, or
    the transform of one whose answer is known, does not decode and
    [populateMessageCapTable] gets to it, every descriptor before it
    having a client. *)
Inductive captable_undecodable (c : Conn) (p : Payload) (e : error) : Prop :=
| undecodable_table :
    pl_CapTable p = Fail e ->
    captable_undecodable c p e
| undecodable_answer pre rest :
    pl_CapTable p = Ok (pre ++ CD_receiverAnswer (Fail e) :: rest) ->
    Forall (desc_resolves c) pre ->
    captable_undecodable c p e
| undecodable_transform pre pa rest :
    pl_CapTable p = Ok (pre ++ CD_receiverAnswer (Ok pa) :: rest) ->
    Forall (desc_resolves c) pre ->
    is_Some (answers c !! pa_QuestionId pa) ->
    pa_Transform pa = Fail e ->
    captable_undecodable c p e.

(** The promised answer a call names as its target fails to decode
    with [e] when [routeCallMessage] reads it for the new answer
    [result]: the promised answer itself, or the transform of one that
    names another, known answer. *)
Inductive call_target_undecodable (c : Conn) (result : answerID)
    (mt : MessageTarget) (e : error) : Prop :=
| undecodable_promise :
    mt = MT_promisedAnswer (Fail e) ->
    call_target_undecodable c result mt e
| undecodable_promise_transform pa :
    mt = MT_promisedAnswer (Ok pa) ->
    pa_QuestionId pa <> result ->
    is_Some (answers c !! pa_QuestionId pa) ->
    pa_Transform pa = Fail e ->
    call_target_undecodable c result mt e.

(** What a disembargo has inside that fails to decode with [e] on
    [c]: its target, or, for [senderLoopback], the promised answer of
    the target or the transform of one whose answer is known. *)
Inductive disembargo_undecodable (c : Conn) (d : Disembargo) (e : error) : Prop :=
| undecodable_dis_target :
    dis_Target d = Fail e ->
    disembargo_undecodable c d e
| undecodable_dis_promise id :
    dis_Context d = DC_senderLoopback id ->
    dis_Target d = Ok (MT_promisedAnswer (Fail e)) ->
    disembargo_undecodable c d e
| undecodable_dis_transform id pa :
    dis_Context d = DC_senderLoopback id ->
    dis_Target d = Ok (MT_promisedAnswer (Ok pa)) ->
    is_Some (answers c !! pa_QuestionId pa) ->
    pa_Transform pa = Fail e ->
    disembargo_undecodable c d e.

(** [c] with one more error line in the log. *)
Definition logged (prefix : string) (e : error) (c : Conn) : Conn :=
  set_log (log c ++ [LogErr prefix e]) c.

(** A call on export 0 whose parameters' cap table does not decode. *)
Definition call_undecodable_captable : Message :=
  Msg_call (Ok (mkCallMsg 1 (Ok (MT_importedCap 0)) 0 0
    (Ok (mkPayload (Ok (PStruct [])) (Fail (errDecode "capTable")))))).

(** A call on export 0 whose parameters name the peer's capability 5
    and then hold a descriptor of an unknown kind. *)
Definition call_unknown_cap_kind : Message :=
  Msg_call (Ok (mkCallMsg 1 (Ok (MT_importedCap 0)) 0 0
    (Ok (mkPayload (Ok (PStruct [])) (Ok [CD_senderHosted 5; CD_other 9]))))).

(** * Properties *)

Ltac unfold_M :=
  unfold bind, ret, gets, modify, panic, logf in *.

(** ** The modelled tables on the scenarios of the spec *)

(** Released IDs are reused before new ones are allocated. *)
Example idgen_reuses_released :
  fst (idgen_next (idgen_remove 3 (mkIdgen 5 []))) = 3 /\
  fst (idgen_next (mkIdgen 5 [])) = 5.
Proof. split; reflexivity. Qed.

(** The refcount scenario: sending a capability creates an export with
    count 1, sending it again makes the count 2, and a release of 2
    removes the entry and frees the ID for the next export. *)
Example export_refcount_scenario :
  let c1 := after (addExport (LocalClient 7)) (NewConn None) in
  let c2 := after (addExport (LocalClient 7)) c1 in
  let c3 := after (handleMessage (Msg_release (Ok (mkRelease 0 2)))) c2 in
  findExport 0 c1 = Some (mkExport 0 (LocalClient 7) 1) /\
  findExport 0 c2 = Some (mkExport 0 (LocalClient 7) 2) /\
  findExport 0 c3 = None /\
  mgr_err c3 = None /\
  exportIDs c3 = mkIdgen 1 [0] /\
  fst <$> (match addExport (LocalClient 8) c3 with
           | Done id c4 => Some (id, c4)
           | _ => None
           end) = Some 0.
Proof. split_and!; reflexivity. Qed.

(** The cancellation scenario: canceling the context of a sent
    bootstrap makes the question canceled and sends
    [finish { releaseResultCaps = true }]. *)
Example cancellation_scenario :
  out conn_canceled_bootstrap = [newBootstrapMessage 0; newFinishMessage 0 true] /\
  q_state <$> qheap conn_canceled_bootstrap !! 0%nat = Some questionCanceled.
Proof. split; reflexivity. Qed.

(** A transform selects pointer fields; the empty transform is the
    root. *)
Example transform_selects_field :
  TransformPtr (PStruct [PNull; PInterface 4]) [mkOp 1] = Ok (PInterface 4) /\
  TransformPtr (PInterface 4) [] = Ok (PInterface 4) /\
  clientFromResolution [mkOp 1]
    (mkPtr (PStruct [PNull; PInterface 0]) [LocalClient 9]) None = LocalClient 9.
Proof. split_and!; reflexivity. Qed.

(** ** Stepping through a program *)

(** Running a program one step at a time. *)
Lemma bind_done {A B : Type} (m : M A) (k : A -> M B) c a c' :
  m c = Done a c' -> bind m k c = k a c'.
Proof. intros H. unfold bind. rewrite H. reflexivity. Qed.

Lemma question_at_found r q c :
  qheap c !! r = Some q -> question_at r c = Done q c.
Proof. intros H. unfold question_at. rewrite H. reflexivity. Qed.

Lemma popQuestion_found id r c :
  get_slot (N.to_nat id) (questions c) = Some r ->
  popQuestion id c =
  Done (Some r)
    (set_questionIDs (idgen_remove id (questionIDs c))
       (set_questions (<[N.to_nat id := None]> (questions c)) c)).
Proof. intros H. unfold popQuestion. rewrite H. reflexivity. Qed.

(** [step H] runs the first action of the program in the goal, whose
    outcome is [H]. *)
Ltac step H := erewrite bind_done; [| exact H]; cbv beta iota.
Ltac step_by tac := erewrite bind_done; [| solve [tac]]; cbv beta iota.

Lemma releaseExport_frame id refs c :
  exists c', releaseExport id refs c = Done tt c' /\
    release_core c' = release_core c /\
    exists extra, out c' = out c ++ extra /\ Forall is_abort_msg extra.
Proof.
  unfold releaseExport, abort, sendMessage, manager_shutdown. unfold_M.
  destruct (findExport id c) as [e|] eqn:He; simpl.
  - destruct ((refs <? 0)%Z || (e_refs e <? refs)%Z); simpl.
    + destruct (mgr_err c) eqn:Hm; simpl; rewrite ?Hm; simpl.
      * eexists; split; [reflexivity|]. split; [reflexivity|].
        exists []. rewrite app_nil_r. split; [reflexivity|constructor].
      * eexists; split; [reflexivity|]. split; [reflexivity|].
        eexists; split; [reflexivity|]. repeat constructor.
    + destruct (e_refs e =? refs)%Z; simpl;
        (eexists; split; [reflexivity|]; split; [reflexivity|];
         exists []; rewrite app_nil_r; split; [reflexivity|constructor]).
  - destruct ((refs <? 0)%Z || (0 <? refs)%Z); simpl.
    + destruct (mgr_err c) eqn:Hm; simpl; rewrite ?Hm; simpl.
      * eexists; split; [reflexivity|]. split; [reflexivity|].
        exists []. rewrite app_nil_r. split; [reflexivity|constructor].
      * eexists; split; [reflexivity|]. split; [reflexivity|].
        eexists; split; [reflexivity|]. repeat constructor.
    + eexists; split; [reflexivity|]. split; [reflexivity|].
      exists []. rewrite app_nil_r. split; [reflexivity|constructor].
Qed.

Lemma release_all_frame (l : list exportID) c :
  exists c', forM_ l (fun id => releaseExport id 1) c = Done tt c' /\
    release_core c' = release_core c /\
    exists extra, out c' = out c ++ extra /\ Forall is_abort_msg extra.
Proof.
  revert c. induction l as [|id l IH]; intros c; simpl.
  - exists c. split; [reflexivity|]. split; [reflexivity|].
    exists []. rewrite app_nil_r. split; [reflexivity|constructor].
  - destruct (releaseExport_frame id 1 c) as (c1 & H1 & Hc1 & ex1 & Ho1 & Hf1).
    destruct (IH c1) as (c2 & H2 & Hc2 & ex2 & Ho2 & Hf2).
    exists c2. unfold bind. rewrite H1, H2. split; [reflexivity|].
    split; [congruence|].
    exists (ex1 ++ ex2). rewrite Ho2, Ho1, app_assoc.
    split; [reflexivity|]. apply Forall_app; auto.
Qed.

(** The prefix of [handleReturnMessage] that every known question goes
    through: the question is popped and, when the peer asks for it, its
    param caps are released.  The question store is not touched. *)
Lemma return_prefix c (id : questionID) (flag : bool) q qs :
  get_slot (N.to_nat id) (questions c) = Some q ->
  qheap c !! q = Some qs ->
  exists c1,
    (popQuestion id ;;
     (if flag then forM_ (q_paramCaps qs) (fun id => releaseExport id 1)
      else ret tt)) c = Done tt c1 /\
    qheap c1 = qheap c /\ imports c1 = imports c /\ answers c1 = answers c /\
    calls c1 = calls c /\ log c1 = log c /\ mu_held c1 = mu_held c /\
    get_slot (N.to_nat id) (questions c1) = None /\
    (exists extra, out c1 = out c ++ extra /\ Forall is_abort_msg extra) /\
    (flag = false ->
     exports c1 = exports c /\ out c1 = out c /\ mgr_err c1 = mgr_err c).
Proof.
  intros Hslot Hq.
  set (c0 := set_questionIDs (idgen_remove id (questionIDs c))
               (set_questions (<[N.to_nat id := None]> (questions c)) c)).
  assert (Hpop : popQuestion id c = Done (Some q) c0).
  { unfold popQuestion. rewrite Hslot. reflexivity. }
  assert (Hnone : get_slot (N.to_nat id) (questions c0) = None).
  { unfold get_slot, c0; simpl.
    destruct (decide (N.to_nat id < length (questions c))%nat) as [Hlt|Hge].
    - rewrite list_lookup_insert_eq by exact Hlt. reflexivity.
    - rewrite list_insert_ge by lia.
      unfold get_slot in Hslot.
      rewrite lookup_ge_None_2 in Hslot by lia. discriminate. }
  destruct flag.
  - destruct (release_all_frame (q_paramCaps qs) c0)
      as (c1 & H1 & Hc1 & ex1 & Ho1 & Hf1).
    exists c1. unfold bind. rewrite Hpop, H1.
    unfold release_core in Hc1. simpl in Hc1.
    injection Hc1 as _ _ _ Hlog Hmu Hqs Hheap _ _ _ Hans Himp Hcalls _.
    split_and!; try congruence.
    + rewrite Hqs. exact Hnone.
    + exists ex1. split; [exact Ho1 | exact Hf1].
  - exists c0. unfold bind, ret. rewrite Hpop.
    split_and!; try reflexivity; try exact Hnone.
    + exists []. rewrite app_nil_r. split; [reflexivity|constructor].
    + intros _. split_and!; reflexivity.
Qed.

(** Releasing references of export [id] leaves every other export as
    it is. *)
Lemma releaseExport_other id refs e c c' :
  releaseExport id refs c = Done tt c' ->
  e <> id ->
  findExport e c' = findExport e c.
Proof.
  intros H Hne.
  assert (Hn : N.to_nat id <> N.to_nat e) by (intros Heq; apply N2Nat.inj in Heq; congruence).
  assert (Hab : forall err c0 c1, abort err c0 = Done tt c1 -> exports c1 = exports c0).
  { intros err c0 c1. unfold abort, sendMessage, manager_shutdown, bind, ret.
    destruct (mgr_err c0) eqn:Hm; simpl; rewrite ?Hm;
      intros H0; injection H0 as <-; reflexivity. }
  unfold releaseExport in H. unfold gets, bind in H.
  destruct ((refs <? 0)%Z ||
            (match findExport id c with Some e0 => e_refs e0 | None => 0%Z end <? refs)%Z).
  - unfold findExport. rewrite (Hab _ _ _ H). reflexivity.
  - destruct (findExport id c) as [x|].
    + destruct (e_refs x =? refs)%Z; unfold modify in H; injection H as <-;
        unfold findExport, get_slot; simpl;
        rewrite list_lookup_insert_ne by exact Hn; reflexivity.
    + injection H as <-. reflexivity.
Qed.

(** Releasing one reference of a known export. *)
Lemma releaseExport_self id c c' x :
  releaseExport id 1 c = Done tt c' ->
  findExport id c = Some x ->
  findExport id c' = released_once x.
Proof.
  intros H Hx.
  assert (Hlt : (N.to_nat id < length (exports c))%nat).
  { unfold findExport, get_slot in Hx.
    destruct (exports c !! N.to_nat id) eqn:Hl; [|discriminate].
    eapply lookup_lt_Some, Hl. }
  unfold releaseExport in H. unfold gets, bind in H. rewrite Hx in H.
  unfold released_once. simpl in H.
  destruct (e_refs x <? 1)%Z.
  - assert (He : exports c' = exports c).
    { revert H. unfold abort, sendMessage, manager_shutdown, bind, ret.
      destruct (mgr_err c) eqn:Hm; simpl; rewrite ?Hm;
        intros H0; injection H0 as <-; reflexivity. }
    unfold findExport in *. rewrite He. exact Hx.
  - destruct (e_refs x =? 1)%Z; unfold modify in H; injection H as <-;
      unfold findExport, get_slot; simpl;
      rewrite list_lookup_insert_eq by exact Hlt; reflexivity.
Qed.

(** Releasing a list of exports, one reference each: the exports that
    are not in the list are left as they are, and an export named once
    gives one reference. *)
Lemma release_all_other (l : list exportID) : forall c c' e,
  forM_ l (fun id => releaseExport id 1) c = Done tt c' ->
  e ∉ l ->
  findExport e c' = findExport e c.
Proof.
  induction l as [|id l IH]; intros c c' e H He; simpl in H.
  - injection H as <-. reflexivity.
  - unfold bind in H.
    destruct (releaseExport id 1 c) as [[] c1| |] eqn:H1; try discriminate.
    rewrite (IH c1 c' e H) by (intros Hin; apply He; right; exact Hin).
    apply (releaseExport_other _ _ _ _ _ H1).
    intros ->. apply He. left.
Qed.

Lemma release_all_each (l : list exportID) : forall c c' e x,
  forM_ l (fun id => releaseExport id 1) c = Done tt c' ->
  NoDup l ->
  e ∈ l ->
  findExport e c = Some x ->
  findExport e c' = released_once x.
Proof.
  induction l as [|id l IH]; intros c c' e x H Hnd Hin Hx; simpl in H.
  - inversion Hin.
  - unfold bind in H.
    destruct (releaseExport id 1 c) as [[] c1| |] eqn:H1; try discriminate.
    apply NoDup_cons in Hnd as [Hnotin Hnd].
    destruct (decide (e = id)) as [->|Hne].
    + rewrite (release_all_other l c1 c' id H Hnotin).
      apply (releaseExport_self _ _ _ _ H1 Hx).
    + apply (IH c1 c' e x H Hnd).
      * apply elem_of_cons in Hin as [Heq|Hin]; [contradiction | exact Hin].
      * rewrite (releaseExport_other _ _ _ _ _ H1 Hne). exact Hx.
Qed.

(** C1, as amended: a return for a question whose local state is
    canceled is discarded.  The question is neither fulfilled nor
    rejected (the question store is unchanged), no finish is sent (what
    is enqueued, if anything, are aborts raised while releasing param
    caps), and the payload of the return is not looked at: imports and
    answers are unchanged, with [releaseParamCaps] unset the exports
    are unchanged too, and any other body gives the same outcome.  What
    the handler does is what it does before it reads the state: it pops
    the question and, when the return sets [releaseParamCaps], releases
    the param caps of the question, one reference each.  The exports
    that are not param caps of the question are left as they are,
    those the payload names included, and a param cap named once gives
    one reference. *)
Theorem canceled_return_is_discarded c m r q qs :
  Message_Return m = Ok r ->
  get_slot (N.to_nat (ret_AnswerId r)) (questions c) = Some q ->
  qheap c !! q = Some qs ->
  q_state qs = questionCanceled ->
  exists c',
    handleReturnMessage m c = Done None c' /\
    qheap c' = qheap c /\
    imports c' = imports c /\ answers c' = answers c /\ calls c' = calls c /\
    (exists extra, out c' = out c ++ extra /\ Forall is_abort_msg extra) /\
    (ret_ReleaseParamCaps r = false ->
     exports c' = exports c /\ out c' = out c /\ mgr_err c' = mgr_err c) /\
    (forall body,
       handleReturnMessage
         (Msg_return (Ok (mkReturn (ret_AnswerId r) (ret_ReleaseParamCaps r) body))) c
       = Done None c') /\
    (popQuestion (ret_AnswerId r) ;;
     (if ret_ReleaseParamCaps r
      then forM_ (q_paramCaps qs) (fun id => releaseExport id 1)
      else ret tt)) c = Done tt c' /\
    get_slot (N.to_nat (ret_AnswerId r)) (questions c') = None /\
    (forall e, e ∉ q_paramCaps qs -> findExport e c' = findExport e c) /\
    (ret_ReleaseParamCaps r = true ->
     NoDup (q_paramCaps qs) ->
     forall e x,
       e ∈ q_paramCaps qs ->
       findExport e c = Some x ->
       findExport e c' = released_once x).
Proof.
  intros Hm Hslot Hq Hst.
  destruct (return_prefix c (ret_AnswerId r) (ret_ReleaseParamCaps r) q qs Hslot Hq)
    as (c1 & Hpre & Hheap & Himp & Hans & Hcalls & Hlog & Hmu & Hnone & Hout & Hflag).
  assert (Hrun : forall m' r', Message_Return m' = Ok r' ->
            ret_AnswerId r' = ret_AnswerId r ->
            ret_ReleaseParamCaps r' = ret_ReleaseParamCaps r ->
            handleReturnMessage m' c = Done None c1).
  { intros m' r' Hm' Hid Hfl.
    unfold handleReturnMessage. rewrite Hm', Hid, Hfl.
    pose proof (popQuestion_found _ _ _ Hslot) as Hpop.
    step Hpop. rewrite (bind_done _ _ _ _ _ Hpop) in Hpre.
    step_by ltac:(apply question_at_found; exact Hq).
    step Hpre.
    step_by ltac:(apply question_at_found; rewrite Hheap; exact Hq).
    rewrite Hst. reflexivity. }
  pose proof (popQuestion_found _ _ _ Hslot) as Hpop.
  pose proof Hpre as Hrel. rewrite (bind_done _ _ _ _ _ Hpop) in Hrel.
  exists c1. split; [apply (Hrun m r); auto|].
  split_and!; auto.
  - intros body. apply (Hrun _ (mkReturn (ret_AnswerId r) (ret_ReleaseParamCaps r) body));
      reflexivity.
  - intros e He. destruct (ret_ReleaseParamCaps r).
    + rewrite (release_all_other _ _ _ e Hrel He). reflexivity.
    + injection Hrel as <-. reflexivity.
  - intros Hfl Hnd e x He Hx. rewrite Hfl in Hrel.
    apply (release_all_each _ _ _ e x Hrel Hnd He). exact Hx.
Qed.

Lemma canceled_return_is_discarded_witness :
  (exists c',
     handleReturnMessage return_results_0 conn_canceled_bootstrap = Done None c' /\
     qheap c' = qheap conn_canceled_bootstrap) /\
  (exists c',
     handleReturnMessage return_results_0_release conn_canceled_with_param
     = Done None c' /\
     findExport 0 conn_canceled_with_param = Some (mkExport 0 (LocalClient 7) 1) /\
     findExport 0 c' = None).
Proof.
  split.
  - destruct (canceled_return_is_discarded conn_canceled_bootstrap return_results_0
                (mkReturn 0 false
                   (Return_results (Ok (mkPayload (Ok (PInterface 0))
                      (Ok [CD_receiverHosted 0; CD_senderHosted 5])))))
                0%nat
                (mkQuestion 0 None [] questionCanceled None (Some ctxCanceled) true))
      as (c' & H & Hheap & _).
    + reflexivity.
    + reflexivity.
    + reflexivity.
    + reflexivity.
    + exists c'. split; assumption.
  - destruct (canceled_return_is_discarded conn_canceled_with_param
                return_results_0_release
                (mkReturn 0 true
                   (Return_results (Ok (mkPayload (Ok (PInterface 0))
                      (Ok [CD_receiverHosted 0; CD_senderHosted 5])))))
                0%nat
                (mkQuestion 0 None [0] questionCanceled None (Some ctxCanceled) true))
      as (c' & H & _ & _ & _ & _ & _ & _ & _ & _ & _ & _ & Hrel).
    + reflexivity.
    + reflexivity.
    + reflexivity.
    + reflexivity.
    + exists c'. split; [exact H|]. split; [reflexivity|].
      apply (Hrel eq_refl ltac:(repeat constructor; set_solver) 0
               (mkExport 0 (LocalClient 7) 1)).
      * set_solver.
      * reflexivity.
Defined.

(** C1, as stated, fails: on the connection whose bootstrap was
    canceled, the late [return { results }] names export 0 and the
    peer's export 5, and handling it releases neither: export 0 keeps
    its reference, no import is made for 5, and nothing is sent. *)
Lemma canceled_return_releases_nothing :
  (exists qs, qheap conn_canceled_bootstrap !! 0%nat = Some qs /\
              q_state qs = questionCanceled) /\
  findExport 0 conn_canceled_bootstrap = Some (mkExport 0 (LocalClient 7) 1) /\
  exists c',
    handleReturnMessage return_results_0 conn_canceled_bootstrap = Done None c' /\
    findExport 0 c' = Some (mkExport 0 (LocalClient 7) 1) /\
    exports c' = exports conn_canceled_bootstrap /\
    imports c' = imports conn_canceled_bootstrap /\
    out c' = out conn_canceled_bootstrap.
Proof.
  split; [eexists; split; reflexivity|].
  split; [reflexivity|].
  eexists. split; [vm_compute; reflexivity|].
  split_and!; reflexivity.
Qed.

Lemma addImport_frame id c :
  exists c', addImport id c = Done (ImportClient id) c' /\
    populate_core c' = populate_core c.
Proof.
  unfold addImport. unfold_M. eexists. split; reflexivity.
Qed.

(** Populating a cap table always returns, and touches only the import
    table and the log. *)
Lemma populate_loop_frame ctab : forall caps c,
  exists r c', populate_loop ctab caps c = Done r c' /\
    populate_core c' = populate_core c.
Proof.
  induction ctab as [|desc rest IH]; intros caps c; simpl.
  - exists (caps, None), c. split; reflexivity.
  - destruct desc as [|id|id|id|[pa|err]|w].
    + apply IH.
    + destruct (addImport_frame id c) as (c1 & H1 & Hc1).
      destruct (IH (caps ++ [ImportClient id]) c1) as (r & c2 & H2 & Hc2).
      exists r, c2. step H1. split; [exact H2 | congruence].
    + destruct (addImport_frame id c) as (c1 & H1 & Hc1).
      destruct (IH (caps ++ [ImportClient id]) c1) as (r & c2 & H2 & Hc2).
      exists r, c2. step H1. split; [exact H2 | congruence].
    + unfold bind, gets.
      destruct (findExport id c) as [e|].
      * apply IH.
      * eexists _, c. split; reflexivity.
    + unfold bind, gets.
      destruct (answers c !! pa_QuestionId pa) as [a|].
      * destruct (pa_Transform pa) as [ops|err].
        -- apply IH.
        -- eexists _, c. split; reflexivity.
      * eexists _, c. split; reflexivity.
    + eexists _, c. split; reflexivity.
    + unfold_M. eexists _, _. split; reflexivity.
Qed.

Lemma populate_frame payload c :
  exists r c', populateMessageCapTable payload c = Done r c' /\
    populate_core c' = populate_core c.
Proof.
  unfold populateMessageCapTable.
  destruct (pl_CapTable payload) as [ctab|err].
  - apply populate_loop_frame.
  - eexists _, c. split; reflexivity.
Qed.

Lemma populate_keeps payload c r c' :
  populateMessageCapTable payload c = Done r c' ->
  mgr_err c' = mgr_err c /\ out c' = out c /\ qheap c' = qheap c /\
  answers c' = answers c /\ exports c' = exports c /\ calls c' = calls c /\
  questions c' = questions c /\ mu_held c' = mu_held c.
Proof.
  intros H. destruct (populate_frame payload c) as (r' & c'' & H' & Hc).
  rewrite H in H'. injection H' as <- <-.
  unfold populate_core in Hc.
  injection Hc as _ ? ? _ _ ? ? ? _ ? _ _ _ ? ? _.
  split_and!; assumption.
Qed.

Lemma sendMessage_running m c :
  mgr_err c = None ->
  sendMessage m c = Done None (set_out (out c ++ [m]) c).
Proof. intros H. unfold sendMessage. rewrite H. reflexivity. Qed.

(** Aborting a running connection: the abort message is enqueued and
    the terminal error set. *)
Lemma abort_running err c :
  mgr_err c = None ->
  abort err c =
  Done tt (set_mgr_err (Some err) (set_out (out c ++ [newAbortMessage err]) c)).
Proof.
  intros H. unfold abort.
  step_by ltac:(apply sendMessage_running; exact H).
  unfold manager_shutdown, bind, ret. simpl. rewrite H. reflexivity.
Qed.

(** What a send and an abort touch. *)
Lemma sendMessage_effect m c r c1 :
  sendMessage m c = Done r c1 ->
  qheap c1 = qheap c /\ questions c1 = questions c /\
  (out c1 = out c \/ out c1 = out c ++ [m]).
Proof.
  unfold sendMessage. destruct (mgr_err c); intros H; injection H as _ <-; auto.
Qed.

Lemma abort_effect e c c1 :
  abort e c = Done tt c1 ->
  qheap c1 = qheap c /\ questions c1 = questions c /\
  (out c1 = out c \/ out c1 = out c ++ [newAbortMessage e]).
Proof.
  unfold abort, sendMessage, manager_shutdown, bind, ret.
  destruct (mgr_err c) eqn:Hm; simpl; rewrite ?Hm; intros H; injection H as <-; auto.
Qed.

(** A question as [fulfill] and [reject] leave it. *)
Lemma question_fulfill_pending r obj q c :
  qheap c !! r = Some q ->
  q_state q = questionInProgress ->
  question_fulfill r obj c =
  Done tt (set_qheap
    (<[r := mkQuestion (q_id q) (q_method q) (q_paramCaps q) questionResolved
             (Some obj) (q_err q) (q_started q)]> (qheap c)) c).
Proof.
  intros Hq Hst. unfold question_fulfill.
  step_by ltac:(apply question_at_found; exact Hq).
  rewrite Hst. reflexivity.
Qed.

Lemma question_reject_pending r state err q c :
  qheap c !! r = Some q ->
  q_state q = questionInProgress ->
  question_reject r state err c =
  Done true (set_qheap
    (<[r := mkQuestion (q_id q) (q_method q) (q_paramCaps q) state
             (q_obj q) (Some err) (q_started q)]> (qheap c)) c).
Proof.
  intros Hq Hst. unfold question_reject.
  step_by ltac:(apply question_at_found; exact Hq).
  rewrite Hst. reflexivity.
Qed.

(** On a question that has left the pending state both are no-ops. *)
Lemma question_fulfill_settled r obj q c :
  qheap c !! r = Some q ->
  q_state q <> questionInProgress ->
  question_fulfill r obj c = Done tt c.
Proof.
  intros Hq Hst. unfold question_fulfill.
  step_by ltac:(apply question_at_found; exact Hq).
  destruct (q_state q); [congruence|reflexivity|reflexivity].
Qed.

Lemma question_reject_settled r state err q c :
  qheap c !! r = Some q ->
  q_state q <> questionInProgress ->
  question_reject r state err c = Done false c.
Proof.
  intros Hq Hst. unfold question_reject.
  step_by ltac:(apply question_at_found; exact Hq).
  destruct (q_state q); [congruence|reflexivity|reflexivity].
Qed.

(** Either way the call returns, keeps everything but the question
    store, and a pending question ends up as the transition says. *)
Lemma question_fulfill_spec r obj q c :
  qheap c !! r = Some q ->
  exists c', question_fulfill r obj c = Done tt c' /\
    out c' = out c /\ mgr_err c' = mgr_err c /\
    (q_state q = questionInProgress ->
     qheap c' !! r =
     Some (mkQuestion (q_id q) (q_method q) (q_paramCaps q) questionResolved
             (Some obj) (q_err q) (q_started q))).
Proof.
  intros Hq.
  destruct (decide (q_state q = questionInProgress)) as [Hst|Hst].
  - eexists. split; [apply (question_fulfill_pending _ _ _ _ Hq Hst)|].
    split_and!; try reflexivity.
    intros _. simpl. apply list_lookup_insert_eq. eapply lookup_lt_Some, Hq.
  - exists c. split; [apply (question_fulfill_settled _ _ _ _ Hq Hst)|].
    split_and!; try reflexivity. intros; contradiction.
Qed.

Lemma question_reject_spec r state err q c :
  qheap c !! r = Some q ->
  exists b c', question_reject r state err c = Done b c' /\
    out c' = out c /\ mgr_err c' = mgr_err c /\ log c' = log c /\
    (q_state q = questionInProgress ->
     qheap c' !! r =
     Some (mkQuestion (q_id q) (q_method q) (q_paramCaps q) state
             (q_obj q) (Some err) (q_started q))).
Proof.
  intros Hq.
  destruct (decide (q_state q = questionInProgress)) as [Hst|Hst].
  - eexists _, _. split; [apply (question_reject_pending _ _ _ _ _ Hq Hst)|].
    split_and!; try reflexivity.
    intros _. simpl. apply list_lookup_insert_eq. eapply lookup_lt_Some, Hq.
  - exists false, c. split; [apply (question_reject_settled _ _ _ _ _ Hq Hst)|].
    split_and!; try reflexivity. intros; contradiction.
Qed.

(** *** Outbound cap tables keep to the export table *)

Lemma addExport_frame cl c :
  exists id c', addExport cl c = Done id c' /\ export_core c' = export_core c.
Proof.
  unfold addExport.
  destruct (export_of_client cl c) as [e|].
  - eexists _, _. split; reflexivity.
  - destruct (idgen_next (exportIDs c)) as [id g].
    eexists _, _. split; reflexivity.
Qed.

Lemma descriptorForClient_frame cl c :
  exists d c', descriptorForClient cl c = Done d c' /\ export_core c' = export_core c.
Proof.
  assert (Hexp : exists d c',
            (let* id := addExport cl in ret (CD_senderHosted id)) c = Done d c' /\
            export_core c' = export_core c).
  { destruct (addExport_frame cl c) as (id & c' & H & Hc).
    exists (CD_senderHosted id), c'. step H. split; [reflexivity | exact Hc]. }
  unfold descriptorForClient.
  destruct cl as [|n|id|id t|r t|e]; try exact Hexp.
  - eexists _, c. split; reflexivity.
  - destruct (imports c !! id); [eexists _, c; split; reflexivity | exact Hexp].
  - destruct (question_outstanding r c);
      [eexists _, c; split; reflexivity | exact Hexp].
Qed.

Lemma makeCapTable_loop_frame msgtab : forall c,
  exists t c', makeCapTable_loop msgtab c = Done t c' /\
    export_core c' = export_core c /\ length t = length msgtab.
Proof.
  induction msgtab as [|cl rest IH]; intros c; simpl.
  - exists [], c. split_and!; reflexivity.
  - assert (Hd : exists d c',
              (match cl with
               | NilClient => ret CD_none
               | _ => descriptorForClient cl
               end) c = Done d c' /\ export_core c' = export_core c).
    { destruct cl; try apply descriptorForClient_frame.
      eexists _, c. split; reflexivity. }
    destruct Hd as (d & c1 & H1 & Hc1).
    destruct (IH c1) as (t & c2 & H2 & Hc2 & Hlen).
    exists (d :: t), c2. step H1. step H2.
    split_and!; [reflexivity | congruence | simpl; congruence].
Qed.

Lemma makeCapTable_frame alloc msgtab c :
  exists t c', makeCapTable alloc msgtab c = Done (t, None) c' /\
    export_core c' = export_core c /\
    (alloc = None -> length t = length msgtab).
Proof.
  unfold makeCapTable. destruct alloc as [e|].
  - exists [], c. split_and!; [reflexivity | reflexivity | discriminate].
  - destruct (makeCapTable_loop_frame msgtab c) as (t & c' & H & Hc & Hlen).
    exists t, c'. step H. split_and!; [reflexivity | exact Hc | auto].
Qed.

(** *** A new answer, rejected or fulfilled *)

Lemma insertAnswer_fresh id c :
  answers c !! id = None ->
  insertAnswer id c =
  Done (Some id) (set_answers (<[id := newAnswer id]> (answers c)) c).
Proof. intros H. unfold insertAnswer. rewrite H. reflexivity. Qed.

Lemma insertAnswer_taken id a c :
  answers c !! id = Some a -> insertAnswer id c = Done None c.
Proof. intros H. unfold insertAnswer. rewrite H. reflexivity. Qed.

Lemma alter_found (f : answer -> answer) id a (m : gmap N answer) :
  m !! id = Some a -> alter f id m = <[id := f a]> m.
Proof.
  intros Ha. apply map_eq. intros i. rewrite lookup_alter.
  destruct (decide (id = i)) as [<-|Hne].
  - rewrite lookup_insert_eq, Ha. reflexivity.
  - rewrite lookup_insert_ne by exact Hne. reflexivity.
Qed.

Lemma lookup_alter_insert (f : answer -> answer) id x (m : gmap N answer) :
  alter f id (<[id := x]> m) !! id = Some (f x).
Proof.
  rewrite lookup_alter, decide_True by reflexivity.
  rewrite lookup_insert_eq. reflexivity.
Qed.

(** Rejecting an answer that has nothing queued, on a running
    connection: the slot is resolved with the error and the peer is
    sent [return { exception }]. *)
Lemma answer_reject_unqueued id err a c :
  answers c !! id = Some a ->
  a_queue a = [] -> a_disembargoes a = [] ->
  mgr_err c = None ->
  answer_reject id err c =
  Done None
    (set_out (out c ++ [newReturnException id err])
       (set_answers
          (<[id := mkAnswer (a_id a) (a_canceled a) true None (Some err)
                     (a_resultCaps a) [] []]> (answers c)) c)).
Proof.
  intros Ha Hq Hd Hrun. unfold answer_reject.
  step_by ltac:(unfold gets; reflexivity).
  unfold alter_answer at 1.
  step_by ltac:(unfold modify; reflexivity).
  step_by ltac:(apply sendMessage_running; exact Hrun).
  rewrite Ha. unfold dispatch_queue. rewrite Hq, Hd. simpl.
  unfold bind, ret. simpl.
  rewrite (alter_found _ _ _ _ Ha). reflexivity.
Qed.

(** Fulfilling an answer that has nothing queued, on a running
    connection: the cap table of the result is built (which touches
    only the exports), the slot is resolved with the pointer and the
    peer is sent [return { results }]. *)
Lemma answer_fulfill_unqueued id obj a c :
  answers c !! id = Some a ->
  a_queue a = [] -> a_disembargoes a = [] ->
  mgr_err c = None ->
  exists t c1,
    makeCapTable None (ptr_caps obj) c = Done (t, None) c1 /\
    export_core c1 = export_core c /\
    length t = length (ptr_caps obj) /\
    answer_fulfill id obj c =
    Done None
      (set_out (out c1 ++ [newReturnResults id (mkPayload (Ok (ptr_val obj)) (Ok t))])
         (set_answers
            (<[id := mkAnswer (a_id a) (a_canceled a) true (Some obj) None
                       (senderHosted_ids t) [] []]> (answers c1)) c1)).
Proof.
  intros Ha Hq Hd Hrun.
  destruct (makeCapTable_frame None (ptr_caps obj) c) as (t & c1 & Hct & Hc1 & Hlen).
  exists t, c1. split_and!; [exact Hct | exact Hc1 | auto |].
  unfold export_core in Hc1.
  injection Hc1 as _ Hm1 _ _ _ _ _ _ _ _ _ _ Ha1 _ _ _.
  unfold answer_fulfill.
  step_by ltac:(unfold gets; reflexivity).
  step Hct. cbn [fst snd].
  unfold alter_answer at 1.
  step_by ltac:(unfold modify; reflexivity).
  step_by ltac:(apply sendMessage_running; simpl; congruence).
  rewrite Ha. unfold dispatch_queue. rewrite Hq, Hd. simpl.
  unfold bind, ret. simpl.
  rewrite (alter_found _ id a) by congruence. reflexivity.
Qed.

(** C6, as amended: a bootstrap message with question ID [id] on a
    running connection.  When [id] is already an answer ID the peer is
    sent [return { exception = "question ID reused" }], the answers are
    untouched and the connection stays up.  Otherwise a new answer is
    inserted; with no bootstrap factory configured, or with a factory
    that fails, it is rejected with "no main interface"; with a factory
    that gives a capability it is fulfilled with an interface pointer
    whose message holds that single capability, and the peer is sent
    the results with a one-entry cap table. *)
Theorem bootstrap_dispatch c id :
  mgr_err c = None ->
  match answers c !! id with
  | Some _ =>
    exists c',
      handleBootstrapMessage id c = Done None c' /\
      out c' = out c ++ [newReturnException id errQuestionReused] /\
      return_exception_text (newReturnException id errQuestionReused)
      = Some "question ID reused"%string /\
      answers c' = answers c /\
      mgr_err c' = None
  | None =>
    match mainFunc c with
    | Some (Ok main) =>
      exists c' descs a,
        handleBootstrapMessage id c = Done None c' /\
        answers c' !! id = Some a /\
        a_done a = true /\
        a_obj a = Some (mkPtr (PInterface 0) [main]) /\
        a_err a = None /\
        out c' = out c ++
          [newReturnResults id (mkPayload (Ok (PInterface 0)) (Ok descs))] /\
        length descs = 1%nat /\
        mgr_err c' = None
    | _ =>
      exists c' a,
        handleBootstrapMessage id c = Done None c' /\
        answers c' !! id = Some a /\
        a_done a = true /\
        a_obj a = None /\
        a_err a = Some errNoMainInterface /\
        out c' = out c ++ [newReturnException id errNoMainInterface] /\
        return_exception_text (newReturnException id errNoMainInterface)
        = Some "no main interface"%string /\
        mgr_err c' = None
    end
  end.
Proof.
  intros Hrun.
  destruct (answers c !! id) as [a0|] eqn:Ha.
  - unfold handleBootstrapMessage.
    step_by ltac:(eapply insertAnswer_taken; exact Ha).
    rewrite (sendMessage_running _ _ Hrun).
    eexists. split_and!; try reflexivity. exact Hrun.
  - set (c2 := set_answers (<[id := newAnswer id]> (answers c)) c).
    assert (Ha2 : answers c2 !! id = Some (newAnswer id))
      by (simpl; apply lookup_insert_eq).
    assert (Hrun2 : mgr_err c2 = None) by exact Hrun.
    assert (Hreject : forall mf,
      mainFunc c = mf ->
      (mf = None \/ exists e, mf = Some (Fail e)) ->
      exists c' a,
        handleBootstrapMessage id c = Done None c' /\
        answers c' !! id = Some a /\ a_done a = true /\ a_obj a = None /\
        a_err a = Some errNoMainInterface /\
        out c' = out c ++ [newReturnException id errNoMainInterface] /\
        return_exception_text (newReturnException id errNoMainInterface)
        = Some "no main interface"%string /\
        mgr_err c' = None).
    { intros mf Hmf Hcase.
      unfold handleBootstrapMessage.
      step_by ltac:(apply insertAnswer_fresh; exact Ha).
      step_by ltac:(unfold gets; reflexivity).
      change (mainFunc (set_answers (<[id:=newAnswer id]> (answers c)) c))
        with (mainFunc c).
      rewrite Hmf.
      assert (Hr : answer_reject id errNoMainInterface c2 = _)
        by (apply (answer_reject_unqueued id errNoMainInterface (newAnswer id) c2);
            auto).
      destruct Hcase as [->|[e ->]]; (step Hr);
        unfold answer_cancel, alter_answer, modify, bind, ret; simpl;
        (eexists _, _; split; [reflexivity|]; simpl;
         split; [apply lookup_alter_insert|]; simpl;
         split_and!; try reflexivity; exact Hrun). }
    destruct (mainFunc c) as [[main|e]|] eqn:Hmf.
    + destruct (answer_fulfill_unqueued id (mkPtr (PInterface 0) [main])
                  (newAnswer id) c2 Ha2 eq_refl eq_refl Hrun2)
        as (t & c3 & Hct & Hc3 & Hlen & Hful).
      unfold export_core in Hc3.
      injection Hc3 as _ Hm3 Ho3 _ _ _ _ _ _ _ _ _ Ha3 _ _ _.
      unfold handleBootstrapMessage.
      step_by ltac:(apply insertAnswer_fresh; exact Ha).
      step_by ltac:(unfold gets; reflexivity).
      change (mainFunc (set_answers (<[id:=newAnswer id]> (answers c)) c))
        with (mainFunc c).
      rewrite Hmf. step Hful.
      unfold answer_cancel, alter_answer, modify, bind, ret; simpl.
      eexists _, t, _. split; [reflexivity|]. simpl.
      split; [apply lookup_alter_insert|]. simpl.
      split_and!; try reflexivity.
      * rewrite Ho3. reflexivity.
      * exact Hlen.
      * rewrite Hm3. exact Hrun.
    + apply (Hreject _ eq_refl). right. eauto.
    + apply (Hreject _ eq_refl). left. reflexivity.
Qed.

Lemma bootstrap_dispatch_witness :
  exists c' a,
    handleBootstrapMessage 3 conn_main_interface = Done None c' /\
    answers c' !! 3 = Some a /\
    a_obj a = Some (mkPtr (PInterface 0) [LocalClient 1]).
Proof.
  pose proof (bootstrap_dispatch conn_main_interface 3 eq_refl) as H.
  change (answers conn_main_interface !! 3) with (@None answer) in H.
  cbn [conn_main_interface NewConn mainFunc] in H.
  destruct H as (c' & descs & a & Hrun & Ha & _ & Hobj & _).
  exists c', a. split_and!; assumption.
Defined.

(** C6, as stated, fails: with a bootstrap factory configured whose
    call fails, a bootstrap with a fresh ID is not fulfilled; the answer
    is rejected with "no main interface". *)
Lemma failing_factory_rejects_bootstrap :
  mainFunc conn_failing_factory = Some (Fail (errTransport "factory failed")) /\
  answers conn_failing_factory !! 0 = None /\
  exists c' a,
    handleBootstrapMessage 0 conn_failing_factory = Done None c' /\
    answers c' !! 0 = Some a /\
    a_obj a = None /\
    a_err a = Some errNoMainInterface /\
    out c' = [newReturnException 0 errNoMainInterface].
Proof.
  split; [reflexivity|]. split; [reflexivity|].
  eexists _, _. split; [vm_compute; reflexivity|].
  split_and!; reflexivity.
Qed.

(** *** Routing *)

(** A routing error leaves the connection as it was. *)
Lemma route_error_keeps result mt cl c e c' :
  routeCallMessage result mt cl c = Done (Some e) c' -> c' = c.
Proof.
  unfold routeCallMessage, lockedCall, queueCall, alter_answer. unfold_M.
  destruct mt as [x|[pa|err]|w].
  - destruct (findExport x c); intros H; inversion H; reflexivity.
  - destruct (pa_QuestionId pa =? result).
    + intros H; inversion H; reflexivity.
    + destruct (answers c !! pa_QuestionId pa) as [a|].
      * destruct (pa_Transform pa) as [ops|err].
        -- destruct (a_done a); intros H; inversion H.
        -- intros H; inversion H; reflexivity.
      * intros H; inversion H; reflexivity.
  - intros H; inversion H; reflexivity.
  - discriminate.
Qed.

Lemma route_unknown_export result x cl c :
  findExport x c = None ->
  routeCallMessage result (MT_importedCap x) cl c = Done (Some errBadTarget) c.
Proof.
  intros H. unfold routeCallMessage. unfold_M. rewrite H. reflexivity.
Qed.

Lemma route_own_answer result pa cl c :
  pa_QuestionId pa = result ->
  routeCallMessage result (MT_promisedAnswer (Ok pa)) cl c = Done (Some errBadTarget) c.
Proof.
  intros H. unfold routeCallMessage. rewrite H, N.eqb_refl. reflexivity.
Qed.

Lemma route_unknown_answer result pa cl c :
  answers c !! pa_QuestionId pa = None ->
  routeCallMessage result (MT_promisedAnswer (Ok pa)) cl c = Done (Some errBadTarget) c.
Proof.
  intros H. unfold routeCallMessage.
  destruct (pa_QuestionId pa =? result); [reflexivity|].
  unfold_M. rewrite H. reflexivity.
Qed.

(** *** Cap-table violations *)

Lemma desc_resolves_core c c' d :
  populate_core c' = populate_core c -> desc_resolves c d -> desc_resolves c' d.
Proof.
  intros Hc. unfold populate_core in Hc.
  injection Hc as _ _ _ _ _ _ _ _ _ He _ _ _ Ha _ _.
  destruct d as [|id|id|id|[pa|err]|w]; simpl; auto.
  - unfold findExport. rewrite He. auto.
  - rewrite Ha. auto.
Qed.

(** Descriptors that resolve are passed over: the loop goes on with the
    rest, on a connection that differs in imports and log only. *)
Lemma populate_loop_prefix pre : forall rest caps c,
  Forall (desc_resolves c) pre ->
  exists caps1 c1,
    populate_core c1 = populate_core c /\
    populate_loop (pre ++ rest) caps c = populate_loop rest caps1 c1.
Proof.
  induction pre as [|d pre IH]; intros rest caps c Hall.
  - exists caps, c. split; reflexivity.
  - inversion Hall as [|? ? Hd Hpre]; subst.
    assert (Hnext : forall caps' c',
      populate_core c' = populate_core c ->
      exists caps1 c1,
        populate_core c1 = populate_core c /\
        populate_loop (pre ++ rest) caps' c' = populate_loop rest caps1 c1).
    { intros caps' c' Hc'.
      destruct (IH rest caps' c') as (caps1 & c1 & Hc1 & Hrun).
      - eapply Forall_impl; [exact Hpre|].
        intros d' Hd'. eapply desc_resolves_core; eauto.
      - exists caps1, c1. split; [congruence | exact Hrun]. }
    destruct d as [|id|id|id|[pa|err]|w]; simpl in Hd |- *.
    + apply Hnext. reflexivity.
    + destruct (addImport_frame id c) as (c' & H & Hc').
      destruct (Hnext (caps ++ [ImportClient id]) c' Hc') as (caps1 & c1 & Hc1 & Hrun).
      exists caps1, c1. split; [exact Hc1|]. step H. exact Hrun.
    + destruct (addImport_frame id c) as (c' & H & Hc').
      destruct (Hnext (caps ++ [ImportClient id]) c' Hc') as (caps1 & c1 & Hc1 & Hrun).
      exists caps1, c1. split; [exact Hc1|]. step H. exact Hrun.
    + destruct Hd as [e He].
      destruct (Hnext (caps ++ [e_client e]) c eq_refl) as (caps1 & c1 & Hc1 & Hrun).
      exists caps1, c1. split; [exact Hc1|].
      step_by ltac:(unfold gets; reflexivity). rewrite He. exact Hrun.
    + destruct Hd as [[a Ha] [ops Hops]].
      destruct (Hnext (caps ++ [pipelineClient a (promisedAnswerOpsToTransform ops)])
                  c eq_refl) as (caps1 & c1 & Hc1 & Hrun).
      exists caps1, c1. split; [exact Hc1|].
      step_by ltac:(unfold gets; reflexivity). rewrite Ha, Hops. exact Hrun.
    + contradiction.
    + contradiction.
Qed.

Lemma populate_unknown_export payload pre x post c :
  pl_CapTable payload = Ok (pre ++ CD_receiverHosted x :: post) ->
  Forall (desc_resolves c) pre ->
  findExport x c = None ->
  exists caps c1,
    populateMessageCapTable payload c = Done (caps, Some (errCapTableExport x)) c1.
Proof.
  intros Htab Hpre Hx.
  destruct (populate_loop_prefix pre (CD_receiverHosted x :: post) [] c Hpre)
    as (caps1 & c1 & Hc1 & Hrun).
  exists caps1, c1.
  unfold populateMessageCapTable. rewrite Htab, Hrun. simpl.
  step_by ltac:(unfold gets; reflexivity).
  unfold populate_core in Hc1.
  injection Hc1 as _ _ _ _ _ _ _ _ _ He _ _ _ _ _ _.
  unfold findExport in Hx |- *. rewrite He, Hx. reflexivity.
Qed.

Lemma populate_unknown_answer payload pre pa post c :
  pl_CapTable payload = Ok (pre ++ CD_receiverAnswer (Ok pa) :: post) ->
  Forall (desc_resolves c) pre ->
  answers c !! pa_QuestionId pa = None ->
  exists caps c1,
    populateMessageCapTable payload c
    = Done (caps, Some (errCapTableAnswer (pa_QuestionId pa))) c1.
Proof.
  intros Htab Hpre Hx.
  destruct (populate_loop_prefix pre (CD_receiverAnswer (Ok pa) :: post) [] c Hpre)
    as (caps1 & c1 & Hc1 & Hrun).
  exists caps1, c1.
  unfold populateMessageCapTable. rewrite Htab, Hrun. simpl.
  step_by ltac:(unfold gets; reflexivity).
  unfold populate_core in Hc1.
  injection Hc1 as _ _ _ _ _ _ _ _ _ _ _ _ _ Ha _ _.
  rewrite Ha, Hx. reflexivity.
Qed.

(** *** Calls

    A call message that decodes, with a target the connection routes,
    received on a running connection. *)

Section DecodedCall.

Variable c : Conn.
Variable m : Message.
Variable mcall : Call_msg.
Variable mt : MessageTarget.
Variable mparams : Payload.

Hypothesis Hm : Message_Call m = Ok mcall.
Hypothesis Ht : call_Target mcall = Ok mt.
Hypothesis Hct : is_call_target mt = true.
Hypothesis Hp : call_Params_msg mcall = Ok mparams.
Hypothesis Hrun : mgr_err c = None.

(** A call whose parameters populate and whose answer ID is fresh, on a
    running connection: when routing fails with [e], the new answer is
    rejected with [e], the peer is sent [return { exception }], and
    nothing else changes. *)
Lemma call_routing_error caps c1 content e c3 :
  populateMessageCapTable mparams c = Done (caps, None) c1 ->
  pl_Content mparams = Ok content ->
  answers c !! call_QuestionId mcall = None ->
  routeCallMessage (call_QuestionId mcall) mt
    (mkCall (mkMethod (call_InterfaceId mcall) (call_MethodId mcall))
       (mkPtr (Ptr_Struct content) caps))
    (set_answers (<[call_QuestionId mcall := newAnswer (call_QuestionId mcall)]>
                    (answers c1)) c1)
  = Done (Some e) c3 ->
  handleCallMessage m c =
  Done None
    (set_out (out c1 ++ [newReturnException (call_QuestionId mcall) e])
       (set_answers
          (<[call_QuestionId mcall := rejected_answer (call_QuestionId mcall) e]>
             (answers c1)) c1)).
Proof.
  intros Hpop Hcontent Hfresh Hroute.
  destruct (populate_keeps _ _ _ _ Hpop) as (Hm1 & Ho1 & _ & Ha1 & _).
  pose proof (route_error_keeps _ _ _ _ _ _ Hroute) as ->.
  unfold handleCallMessage. rewrite Hm, Ht, Hct, Hp. cbn [negb].
  step Hpop. cbn [fst snd].
  step_by ltac:(apply insertAnswer_fresh; congruence).
  rewrite Hcontent. cbv beta iota.
  step Hroute.
  rewrite (answer_reject_unqueued _ e (newAnswer (call_QuestionId mcall)));
    try reflexivity.
  - simpl. rewrite insert_insert_eq. reflexivity.
  - simpl. apply lookup_insert_eq.
  - simpl. congruence.
Qed.

(** A call whose parameters fail to populate with an error other than
    [errUnimplemented], on a running connection: the connection is
    aborted with that error and no answer is inserted. *)
Lemma call_captable_violation caps e c1 :
  populateMessageCapTable mparams c = Done (caps, Some e) c1 ->
  is_errUnimplemented e = false ->
  handleCallMessage m c =
  Done (Some e) (set_mgr_err (Some e) (set_out (out c1 ++ [newAbortMessage e]) c1)).
Proof.
  intros Hpop Hne.
  destruct (populate_keeps _ _ _ _ Hpop) as (Hm1 & _).
  unfold handleCallMessage. rewrite Hm, Ht, Hct, Hp. cbn [negb].
  step Hpop. cbn [fst snd]. rewrite Hne.
  step_by ltac:(apply abort_running; congruence).
  reflexivity.
Qed.

(** C5: a call message that decodes, on a running connection.
    (1) When routing fails with an error, the new answer is rejected
    with that error, the peer is sent [return { exception }] and the
    connection keeps running.  (2) An unknown export target, the call's
    own answer as target, and an unknown promised answer are routing
    errors (bad target).  (3) When populating the parameters fails
    with an error other than unimplemented, the connection is aborted
    with that error: an abort is sent, the manager is shut down, no
    answer is inserted.  (4) A [receiverHosted] descriptor with an
    unknown export ID, and a [receiverAnswer] descriptor with an
    unknown answer ID, make populating fail with such an error. *)
Theorem call_error_handling :
  (forall caps c1 content e c3,
     populateMessageCapTable mparams c = Done (caps, None) c1 ->
     pl_Content mparams = Ok content ->
     answers c !! call_QuestionId mcall = None ->
     routeCallMessage (call_QuestionId mcall) mt
       (mkCall (mkMethod (call_InterfaceId mcall) (call_MethodId mcall))
          (mkPtr (Ptr_Struct content) caps))
       (set_answers (<[call_QuestionId mcall := newAnswer (call_QuestionId mcall)]>
                       (answers c1)) c1)
     = Done (Some e) c3 ->
     exists c',
       handleCallMessage m c = Done None c' /\
       answers c' !! call_QuestionId mcall
       = Some (rejected_answer (call_QuestionId mcall) e) /\
       out c' = out c ++ [newReturnException (call_QuestionId mcall) e] /\
       mgr_err c' = None) /\
  (forall result cl c0,
     match mt with
     | MT_importedCap x =>
       findExport x c0 = None ->
       routeCallMessage result mt cl c0 = Done (Some errBadTarget) c0
     | MT_promisedAnswer (Ok pa) =>
       pa_QuestionId pa = result \/ answers c0 !! pa_QuestionId pa = None ->
       routeCallMessage result mt cl c0 = Done (Some errBadTarget) c0
     | _ => True
     end) /\
  (forall caps c1 e,
     populateMessageCapTable mparams c = Done (caps, Some e) c1 ->
     is_errUnimplemented e = false ->
     exists c',
       handleCallMessage m c = Done (Some e) c' /\
       mgr_err c' = Some e /\
       out c' = out c ++ [newAbortMessage e] /\
       answers c' = answers c) /\
  (forall pre d post,
     pl_CapTable mparams = Ok (pre ++ d :: post) ->
     Forall (desc_resolves c) pre ->
     match d with
     | CD_receiverHosted x =>
       findExport x c = None ->
       exists caps c1,
         populateMessageCapTable mparams c = Done (caps, Some (errCapTableExport x)) c1 /\
         is_errUnimplemented (errCapTableExport x) = false
     | CD_receiverAnswer (Ok pa) =>
       answers c !! pa_QuestionId pa = None ->
       exists caps c1,
         populateMessageCapTable mparams c
         = Done (caps, Some (errCapTableAnswer (pa_QuestionId pa))) c1 /\
         is_errUnimplemented (errCapTableAnswer (pa_QuestionId pa)) = false
     | _ => True
     end).
Proof.
  split_and!.
  - intros caps c1 content e c3 Hpop Hcontent Hfresh Hroute.
    destruct (populate_keeps _ _ _ _ Hpop) as (Hm1 & Ho1 & _).
    eexists. split; [eapply call_routing_error; eauto|].
    simpl. split_and!; [apply lookup_insert_eq | congruence | congruence].
  - intros result cl c0. destruct mt as [x|[pa|err]|w]; try exact I.
    + apply route_unknown_export.
    + intros [Hself|Hnone];
        [apply route_own_answer | apply route_unknown_answer]; assumption.
  - intros caps c1 e Hpop Hne.
    destruct (populate_keeps _ _ _ _ Hpop) as (Hm1 & Ho1 & _ & Ha1 & _).
    eexists. split; [eapply call_captable_violation; eauto|].
    simpl. split_and!; [reflexivity | congruence | exact Ha1].
  - intros pre d post Htab Hpre.
    destruct d as [|id|id|x|[pa|err]|w]; try exact I.
    + intros Hx.
      destruct (populate_unknown_export _ _ _ _ _ Htab Hpre Hx) as (caps & c1 & H).
      exists caps, c1. split; [exact H | reflexivity].
    + intros Hx.
      destruct (populate_unknown_answer _ _ _ _ _ Htab Hpre Hx) as (caps & c1 & H).
      exists caps, c1. split; [exact H | reflexivity].
Qed.

End DecodedCall.

Lemma call_error_handling_witness :
  (exists c',
     handleCallMessage call_unknown_export conn_bootstrapped = Done None c' /\
     answers c' !! 1 = Some (rejected_answer 1 errBadTarget) /\
     mgr_err c' = None) /\
  (exists c',
     handleCallMessage call_bad_captable conn_bootstrapped
     = Done (Some (errCapTableExport 4)) c' /\
     mgr_err c' = Some (errCapTableExport 4)).
Proof.
  split.
  - destruct (call_error_handling conn_bootstrapped call_unknown_export
      (mkCallMsg 1 (Ok (MT_importedCap 9)) 0 0
         (Ok (mkPayload (Ok (PStruct [])) (Ok []))))
      (MT_importedCap 9) (mkPayload (Ok (PStruct [])) (Ok []))
      eq_refl eq_refl eq_refl eq_refl eq_refl) as (Hroute & Hbad & _ & _).
    destruct (Hroute [] conn_bootstrapped (PStruct []) errBadTarget
                (set_answers (<[1 := newAnswer 1]> (answers conn_bootstrapped))
                   conn_bootstrapped))
      as (c' & Hrun & Hans & _ & Hmgr).
    + reflexivity.
    + reflexivity.
    + vm_compute. reflexivity.
    + apply (Hbad 1 _ _). reflexivity.
    + exists c'. split_and!; assumption.
  - destruct (call_error_handling conn_bootstrapped call_bad_captable
      (mkCallMsg 1
         (Ok (MT_promisedAnswer (Ok (mkPromisedAnswer 0 (Ok []))))) 0 0
         (Ok (mkPayload (Ok (PStruct [PInterface 0])) (Ok [CD_receiverHosted 4]))))
      (MT_promisedAnswer (Ok (mkPromisedAnswer 0 (Ok []))))
      (mkPayload (Ok (PStruct [PInterface 0])) (Ok [CD_receiverHosted 4]))
      eq_refl eq_refl eq_refl eq_refl eq_refl) as (_ & _ & Habort & Hviol).
    destruct (Hviol [] (CD_receiverHosted 4) [] eq_refl ltac:(constructor) eq_refl)
      as (caps & c1 & Hpop & Hne).
    destruct (Habort caps c1 _ Hpop Hne) as (c' & Hrun & Hmgr & _).
    exists c'. split; assumption.
Defined.

(** C7, as amended: a call whose target is the promised answer with
    the call's own question ID.  With parameters that decode and
    populate and a fresh ID, on a running connection, the new answer is
    rejected with the bad-target error and the peer is told so; the
    connection stays up, no local call is started, and the answers are
    the old ones plus the rejected new one, whose queue is empty:
    nothing was queued anywhere. *)
Theorem call_on_own_answer_rejected c m mcall pa mparams caps c1 content :
  Message_Call m = Ok mcall ->
  call_Target mcall = Ok (MT_promisedAnswer (Ok pa)) ->
  pa_QuestionId pa = call_QuestionId mcall ->
  call_Params_msg mcall = Ok mparams ->
  populateMessageCapTable mparams c = Done (caps, None) c1 ->
  pl_Content mparams = Ok content ->
  answers c !! call_QuestionId mcall = None ->
  mgr_err c = None ->
  exists c',
    handleCallMessage m c = Done None c' /\
    answers c' =
      <[call_QuestionId mcall := rejected_answer (call_QuestionId mcall) errBadTarget]>
        (answers c) /\
    a_queue (rejected_answer (call_QuestionId mcall) errBadTarget) = [] /\
    Error errBadTarget = "bad target"%string /\
    out c' = out c ++ [newReturnException (call_QuestionId mcall) errBadTarget] /\
    mgr_err c' = None /\
    calls c' = calls c.
Proof.
  intros Hm Ht Hself Hp Hpop Hcontent Hfresh Hrun.
  destruct (populate_keeps _ _ _ _ Hpop) as (Hm1 & Ho1 & _ & Ha1 & _ & Hc1 & _).
  eexists. split.
  - eapply call_routing_error; eauto.
    apply route_own_answer. exact Hself.
  - simpl. split_and!; try reflexivity; congruence.
Qed.

Lemma call_on_own_answer_rejected_witness :
  exists c',
    handleCallMessage call_own_answer conn_bootstrapped = Done None c' /\
    answers c' = <[1 := rejected_answer 1 errBadTarget]> (answers conn_bootstrapped) /\
    calls c' = calls conn_bootstrapped.
Proof.
  destruct (call_on_own_answer_rejected conn_bootstrapped call_own_answer
    (mkCallMsg 1
       (Ok (MT_promisedAnswer (Ok (mkPromisedAnswer 1 (Ok [Op_getPointerField 0]))))) 0 0
       (Ok (mkPayload (Ok (PStruct [])) (Ok []))))
    (mkPromisedAnswer 1 (Ok [Op_getPointerField 0]))
    (mkPayload (Ok (PStruct [])) (Ok []))
    [] conn_bootstrapped (PStruct []))
    as (c' & Hrun & Hans & _ & _ & _ & _ & Hcalls).
  - reflexivity.
  - reflexivity.
  - reflexivity.
  - reflexivity.
  - reflexivity.
  - reflexivity.
  - vm_compute. reflexivity.
  - reflexivity.
  - exists c'. split_and!; assumption.
Defined.

(** C7, as stated, fails: not every call on its own answer is rejected
    with the connection left up.  On the connection that has answered a
    bootstrap, such a call whose parameters name an export this vat
    never made aborts the connection before any answer is inserted; and
    such a call whose content does not decode leaves its new answer in
    the table, pending, with no error, and the peer is told nothing. *)
Lemma call_on_own_answer_not_always_rejected :
  (exists c',
     handleCallMessage call_own_answer_bad_captable conn_bootstrapped
     = Done (Some (errCapTableExport 4)) c' /\
     mgr_err conn_bootstrapped = None /\
     mgr_err c' = Some (errCapTableExport 4) /\
     answers c' !! 1 = None) /\
  (exists c',
     handleCallMessage call_own_answer_bad_content conn_bootstrapped
     = Done (Some (errDecode "content")) c' /\
     answers c' !! 1 = Some (newAnswer 1) /\
     a_done (newAnswer 1) = false /\
     a_err (newAnswer 1) = None /\
     out c' = out conn_bootstrapped).
Proof.
  split.
  - eexists. split; [vm_compute; reflexivity|].
    split_and!; vm_compute; reflexivity.
  - eexists. split; [vm_compute; reflexivity|].
    split_and!; vm_compute; reflexivity.
Qed.

(** *** Decode failures *)

(** Taking and giving back the mutex around a handler that has left it
    alone restores the connection. *)
Lemma unlock_lock c :
  mu_held c = false -> set_mu_held false (set_mu_held true c) = c.
Proof. destruct c; simpl; intros ->; reflexivity. Qed.

(** *** Decode failures *)

(** Populating a cap table writes to the log only for a descriptor of
    an unknown kind. *)
Lemma populate_loop_log ctab : forall caps c caps' err c',
  populate_loop ctab caps c = Done (caps', err) c' ->
  (forall e, err = Some e -> is_errUnimplemented e = false) ->
  log c' = log c.
Proof.
  induction ctab as [|d rest IH]; intros caps c caps' err c' H Herr; simpl in H.
  - injection H as _ _ <-. reflexivity.
  - assert (Himp : forall id cl c1, addImport id c = Done cl c1 -> log c1 = log c).
    { intros id cl c1. unfold addImport. unfold_M.
      intros H0. injection H0 as _ <-. reflexivity. }
    destruct d as [|id|id|id|[pa|e0]|w].
    + apply (IH _ _ _ _ _ H Herr).
    + unfold bind in H. destruct (addImport id c) as [cl c1| |] eqn:H1; try discriminate.
      rewrite (IH _ _ _ _ _ H Herr). apply (Himp _ _ _ H1).
    + unfold bind in H. destruct (addImport id c) as [cl c1| |] eqn:H1; try discriminate.
      rewrite (IH _ _ _ _ _ H Herr). apply (Himp _ _ _ H1).
    + unfold bind, gets in H. destruct (findExport id c).
      * apply (IH _ _ _ _ _ H Herr).
      * injection H as _ _ <-. reflexivity.
    + unfold bind, gets in H. destruct (answers c !! pa_QuestionId pa).
      * destruct (pa_Transform pa).
        -- apply (IH _ _ _ _ _ H Herr).
        -- injection H as _ _ <-. reflexivity.
      * injection H as _ _ <-. reflexivity.
    + injection H as _ _ <-. reflexivity.
    + unfold logf, modify, bind, ret in H. injection H as _ <- _.
      specialize (Herr errUnimplemented eq_refl). discriminate Herr.
Qed.

Lemma populate_log payload c caps err c' :
  populateMessageCapTable payload c = Done (caps, err) c' ->
  (forall e, err = Some e -> is_errUnimplemented e = false) ->
  log c' = log c.
Proof.
  unfold populateMessageCapTable. destruct (pl_CapTable payload) as [ctab|e0].
  - apply populate_loop_log.
  - intros H _. injection H as _ _ <-. reflexivity.
Qed.

(** A cap table that fails to decode makes [populateMessageCapTable]
    return the decode error. *)
Lemma populate_undecodable c p e :
  captable_undecodable c p e ->
  exists caps c1, populateMessageCapTable p c = Done (caps, Some e) c1.
Proof.
  intros [Htab|pre rest Htab Hpre|pre pa rest Htab Hpre [a Ha] Hops].
  - exists [], c. unfold populateMessageCapTable. rewrite Htab. reflexivity.
  - destruct (populate_loop_prefix pre (CD_receiverAnswer (Fail e) :: rest) [] c Hpre)
      as (caps1 & c1 & _ & Hrun).
    exists caps1, c1. unfold populateMessageCapTable. rewrite Htab, Hrun. reflexivity.
  - destruct (populate_loop_prefix pre (CD_receiverAnswer (Ok pa) :: rest) [] c Hpre)
      as (caps1 & c1 & Hc1 & Hrun).
    exists caps1, c1. unfold populateMessageCapTable. rewrite Htab, Hrun. simpl.
    step_by ltac:(unfold gets; reflexivity).
    unfold populate_core in Hc1.
    injection Hc1 as _ _ _ _ _ _ _ _ _ _ _ _ _ Hans _ _.
    rewrite Hans, Ha, Hops. reflexivity.
Qed.

(** A cap table whose descriptors all have a client populates. *)
Lemma populate_resolving c p ctab :
  pl_CapTable p = Ok ctab ->
  Forall (desc_resolves c) ctab ->
  exists caps c1, populateMessageCapTable p c = Done (caps, None) c1.
Proof.
  intros Htab Hall.
  destruct (populate_loop_prefix ctab [] [] c Hall) as (caps1 & c1 & _ & Hrun).
  exists caps1, c1. unfold populateMessageCapTable.
  rewrite Htab. rewrite app_nil_r in Hrun. rewrite Hrun. reflexivity.
Qed.

(** Whether the mutex is held plays no part in it. *)
Lemma captable_undecodable_mu c p e b :
  captable_undecodable c p e -> captable_undecodable (set_mu_held b c) p e.
Proof.
  intros [H|pre rest H1 H2|pre pa rest H1 H2 H3 H4].
  - apply undecodable_table. exact H.
  - apply (undecodable_answer _ _ _ pre rest H1). exact H2.
  - apply (undecodable_transform _ _ _ pre pa rest H1); [exact H2 | exact H3 | exact H4].
Qed.

(** [handleMessage] around the handlers that run under the mutex. *)
Lemma handleMessage_return x c err c2 :
  mu_held c = false ->
  handleReturnMessage (Msg_return x) (set_mu_held true c) = Done err c2 ->
  mu_held c2 = true ->
  handleMessage (Msg_return x) c
  = log_if_err "rpc: handle return:" err (set_mu_held false c2).
Proof.
  intros Hmu H Hmu2. unfold handleMessage.
  step_by ltac:(unfold mu_Lock; rewrite Hmu; reflexivity).
  step H.
  step_by ltac:(unfold mu_Unlock; rewrite Hmu2; reflexivity).
  reflexivity.
Qed.

Lemma handleMessage_call x c err c2 :
  mu_held c = false ->
  handleCallMessage (Msg_call x) (set_mu_held true c) = Done err c2 ->
  mu_held c2 = true ->
  handleMessage (Msg_call x) c
  = log_if_err "rpc: handle call:" err (set_mu_held false c2).
Proof.
  intros Hmu H Hmu2. unfold handleMessage.
  step_by ltac:(unfold mu_Lock; rewrite Hmu; reflexivity).
  step H.
  step_by ltac:(unfold mu_Unlock; rewrite Hmu2; reflexivity).
  reflexivity.
Qed.

Lemma handleMessage_disembargo_error x c e :
  mu_held c = false ->
  mgr_err c = None ->
  handleDisembargoMessage (Msg_disembargo x) (set_mu_held true c)
  = Done (Some e) (set_mu_held true c) ->
  handleMessage (Msg_disembargo x) c = Done tt (aborted e c).
Proof.
  intros Hmu Hrun H. unfold handleMessage.
  step_by ltac:(unfold mu_Lock; rewrite Hmu; reflexivity).
  step H.
  step_by ltac:(unfold mu_Unlock; reflexivity).
  rewrite (unlock_lock _ Hmu). apply abort_running. exact Hrun.
Qed.

(** C2, as amended: decode failures, with the mutex free.

    (1) A message whose body fails to decode.  For a return, finish,
    bootstrap, call or release message the error is logged and the
    message skipped: nothing but the log changes, so the connection is
    not terminated; this includes finish.  For a disembargo message the
    connection is aborted with the decode error.  For an abort message
    the error is logged and the shutdown goes on, with the zero abort
    as terminal error.

    (2) A return for a known question that is not canceled; [c1] is
    the connection, mutex held, once the question is popped and its
    param caps are released.  Results or an exception that do not
    decode, and a content that does not decode after the cap table has
    populated: the error is logged, nothing is sent and the terminal
    error is what it was.  A cap table that fails to decode: the
    running connection is aborted with the decode error.

    (3) A call.  A target or parameters that do not decode, and, with a
    fresh ID, a content that does not decode after the cap table has
    populated: the error is logged, nothing is sent and the terminal
    error is what it was.  A cap table that fails to decode: the
    running connection is aborted with the decode error and no answer
    is inserted.  A promised answer or its transform that does not
    decode when the call is routed: the new answer is rejected with the
    decode error, the peer is sent the exception, nothing is logged and
    the connection stays up.

    (4) A disembargo whose target, promised answer or transform does
    not decode: the running connection is aborted with the decode
    error. *)
Theorem decode_failure_handling c :
  mu_held c = false ->
  (forall m e,
     body_decode_error m = Some e ->
     match m with
     | Msg_disembargo _ =>
       mgr_err c = None -> handleMessage m c = Done tt (aborted e c)
     | Msg_abort _ =>
       handleMessage m c =
       Done tt
         (set_mgr_err (Some (default (Abort "") (mgr_err c)))
            (set_log (log c ++ [LogErr "rpc: decode abort:" e; LogAbort (Abort "")]) c))
     | _ =>
       exists prefix,
         handleMessage m c = Done tt (set_log (log c ++ [LogErr prefix e]) c)
     end) /\
  (forall r q qs,
     get_slot (N.to_nat (ret_AnswerId r)) (questions c) = Some q ->
     qheap c !! q = Some qs ->
     q_state qs <> questionCanceled ->
     exists c1,
       (popQuestion (ret_AnswerId r) ;;
        (if ret_ReleaseParamCaps r
         then forM_ (q_paramCaps qs) (fun id => releaseExport id 1)
         else ret tt)) (set_mu_held true c) = Done tt c1 /\
       (forall e,
          ret_body r = Return_results (Fail e) \/
          ret_body r = Return_exception (Fail e) ->
          handleMessage (Msg_return (Ok r)) c
          = Done tt (logged "rpc: handle return:" e (set_mu_held false c1))) /\
       (forall p ctab e,
          ret_body r = Return_results (Ok p) ->
          pl_CapTable p = Ok ctab ->
          Forall (desc_resolves c1) ctab ->
          pl_Content p = Fail e ->
          exists c',
            handleMessage (Msg_return (Ok r)) c = Done tt c' /\
            log c' = log c1 ++ [LogErr "rpc: handle return:" e] /\
            out c' = out c1 /\ mgr_err c' = mgr_err c1 /\ mu_held c' = false) /\
       (forall p e,
          ret_body r = Return_results (Ok p) ->
          captable_undecodable c1 p e ->
          is_errUnimplemented e = false ->
          mgr_err c1 = None ->
          exists c',
            handleMessage (Msg_return (Ok r)) c = Done tt c' /\
            mgr_err c' = Some e /\
            out c' = out c1 ++ [newAbortMessage e] /\
            log c' = log c1 ++ [LogErr "rpc: handle return:" e] /\
            mu_held c' = false)) /\
  (forall mcall,
     (forall e,
        call_Target mcall = Fail e \/
        (exists mt, call_Target mcall = Ok mt /\ is_call_target mt = true /\
                    call_Params_msg mcall = Fail e) ->
        handleMessage (Msg_call (Ok mcall)) c
        = Done tt (logged "rpc: handle call:" e c)) /\
     (forall mt p,
        call_Target mcall = Ok mt ->
        is_call_target mt = true ->
        call_Params_msg mcall = Ok p ->
        (forall e,
           captable_undecodable c p e ->
           is_errUnimplemented e = false ->
           mgr_err c = None ->
           exists c',
             handleMessage (Msg_call (Ok mcall)) c = Done tt c' /\
             mgr_err c' = Some e /\
             out c' = out c ++ [newAbortMessage e] /\
             log c' = log c ++ [LogErr "rpc: handle call:" e] /\
             answers c' = answers c /\
             mu_held c' = false) /\
        (forall ctab,
           pl_CapTable p = Ok ctab ->
           Forall (desc_resolves c) ctab ->
           answers c !! call_QuestionId mcall = None ->
           (forall e,
              pl_Content p = Fail e ->
              exists c',
                handleMessage (Msg_call (Ok mcall)) c = Done tt c' /\
                log c' = log c ++ [LogErr "rpc: handle call:" e] /\
                out c' = out c /\ mgr_err c' = mgr_err c /\ mu_held c' = false) /\
           (forall content e,
              pl_Content p = Ok content ->
              call_target_undecodable c (call_QuestionId mcall) mt e ->
              mgr_err c = None ->
              exists c',
                handleMessage (Msg_call (Ok mcall)) c = Done tt c' /\
                answers c' !! call_QuestionId mcall
                = Some (rejected_answer (call_QuestionId mcall) e) /\
                out c' = out c ++ [newReturnException (call_QuestionId mcall) e] /\
                log c' = log c /\
                mgr_err c' = None /\
                mu_held c' = false)))) /\
  (forall d e,
     disembargo_undecodable c d e ->
     mgr_err c = None ->
     handleMessage (Msg_disembargo (Ok d)) c = Done tt (aborted e c)).
Proof.
  intros Hmu.
  set (cL := set_mu_held true c).
  assert (Hlog : forall prefix e c2,
    log_if_err prefix (Some e) c2 = Done tt (logged prefix e c2)) by reflexivity.
  split_and!.
  - (* the body *)
    intros m e He.
    destruct m as [orig|[x|e']|[x|e']|[x|e']|[x|e']|[x|e']|[x|e']|[x|e']|w];
      try discriminate He; injection He as ->.
    + unfold handleMessage, copyAbort, log_if_err, manager_shutdown. unfold_M.
      simpl. rewrite <- app_assoc. simpl.
      destruct (mgr_err c) eqn:Hm; simpl.
      * destruct c; simpl in *; subst; reflexivity.
      * reflexivity.
    + exists "rpc: handle return:"%string.
      unfold handleMessage, handleReturnMessage, mu_Lock, mu_Unlock, log_if_err.
      unfold_M. rewrite Hmu. simpl. rewrite (unlock_lock _ Hmu). reflexivity.
    + exists "rpc: decode finish:"%string. reflexivity.
    + exists "rpc: decode bootstrap:"%string. reflexivity.
    + exists "rpc: handle call:"%string.
      unfold handleMessage, handleCallMessage, mu_Lock, mu_Unlock, log_if_err.
      unfold_M. rewrite Hmu. simpl. rewrite (unlock_lock _ Hmu). reflexivity.
    + exists "rpc: decode release:"%string. reflexivity.
    + intros Hrun.
      unfold handleMessage, handleDisembargoMessage, mu_Lock, mu_Unlock.
      unfold_M. rewrite Hmu. simpl. rewrite (unlock_lock _ Hmu).
      apply abort_running. exact Hrun.
  - (* inside a return *)
    intros r q qs Hslot Hq Hst.
    assert (HslotL : get_slot (N.to_nat (ret_AnswerId r)) (questions cL) = Some q)
      by exact Hslot.
    assert (HqL : qheap cL !! q = Some qs) by exact Hq.
    destruct (return_prefix cL (ret_AnswerId r) (ret_ReleaseParamCaps r) q qs HslotL HqL)
      as (c1 & Hpre & Hheap & _ & _ & _ & _ & Hmu1 & _).
    exists c1. split; [exact Hpre|].
    pose proof (popQuestion_found _ _ _ HslotL) as Hpop.
    pose proof Hpre as Hpre'. rewrite (bind_done _ _ _ _ _ Hpop) in Hpre'.
    assert (Hq1 : qheap c1 !! q = Some qs) by (rewrite Hheap; exact HqL).
    assert (Hnc : questionState_eqb (q_state qs) questionCanceled = false).
    { destruct (q_state qs); try reflexivity. congruence. }
    assert (Hhead : forall k : M (option error),
      match ret_body r with
      | Return_results (Fail err) => ret (Some err)
      | Return_results (Ok results) =>
        let* pc := populateMessageCapTable results in
        match snd pc with
        | Some err =>
          if is_errUnimplemented err then
            sendMessage (newUnimplementedMessage (Msg_return (Ok r))) ;;
            ret (Some errUnimplemented)
          else
            abort err ;;
            ret (Some err)
        | None =>
          match pl_Content results with
          | Fail err => ret (Some err)
          | Ok content =>
            question_fulfill q (mkPtr content (fst pc)) ;;
            sendMessage (newFinishMessage (ret_AnswerId r) false) ;;
            ret None
          end
        end
      | Return_exception (Fail err) => ret (Some err)
      | Return_exception (Ok exc) =>
        question_reject q questionResolved
          match q_method qs with
          | Some meth => MethodError meth (errException (exc_Reason exc))
          | None => bootstrapError (errException (exc_Reason exc))
          end ;;
        sendMessage (newFinishMessage (ret_AnswerId r) true) ;;
        ret None
      | Return_canceled =>
        logf (LogQuestionError
                (questionError (ret_AnswerId r) (q_method qs) errReceiverCanceled)) ;;
        question_reject q questionResolved
          (questionError (ret_AnswerId r) (q_method qs) errReceiverCanceled) ;;
        ret None
      | Return_other _ =>
        sendMessage (newUnimplementedMessage (Msg_return (Ok r))) ;;
        ret (Some errUnimplemented)
      end = k ->
      handleReturnMessage (Msg_return (Ok r)) cL = k c1).
    { intros k Hk. unfold handleReturnMessage. cbn [Message_Return].
      step Hpop.
      step_by ltac:(apply question_at_found; exact HqL).
      step Hpre'.
      step_by ltac:(apply question_at_found; exact Hq1).
      rewrite Hnc. rewrite <- Hk. reflexivity. }
    assert (Hmu1' : mu_held c1 = true) by (rewrite Hmu1; reflexivity).
    split_and!.
    + intros e Hbody.
      rewrite (handleMessage_return (Ok r) c (Some e) c1 Hmu); [apply Hlog | | exact Hmu1'].
      apply Hhead. destruct Hbody as [-> | ->]; reflexivity.
    + intros p ctab e Hbody Htab Hall Hcontent.
      destruct (populate_resolving c1 p ctab Htab Hall) as (caps & c2 & Hpopulate).
      destruct (populate_keeps _ _ _ _ Hpopulate)
        as (Hm2 & Ho2 & _ & _ & _ & _ & _ & Hmu2).
      pose proof (populate_log _ _ _ _ _ Hpopulate ltac:(discriminate)) as Hl2.
      eexists. split.
      * rewrite (handleMessage_return (Ok r) c (Some e) c2 Hmu);
          [apply Hlog | | congruence].
        fold cL. erewrite Hhead; [|rewrite Hbody; reflexivity].
        step Hpopulate. cbn [fst snd]. rewrite Hcontent. reflexivity.
      * simpl. split_and!; congruence.
    + intros p e Hbody Hund Hne Hrun.
      destruct (populate_undecodable c1 p e Hund) as (caps & c2 & Hpopulate).
      destruct (populate_keeps _ _ _ _ Hpopulate)
        as (Hm2 & Ho2 & _ & _ & _ & _ & _ & Hmu2).
      assert (Hl2 : log c2 = log c1).
      { apply (populate_log _ _ _ _ _ Hpopulate).
        intros e0 He0. injection He0 as <-. exact Hne. }
      eexists. split.
      * rewrite (handleMessage_return (Ok r) c (Some e)
                   (set_mgr_err (Some e) (set_out (out c2 ++ [newAbortMessage e]) c2))
                   Hmu); [apply Hlog | | simpl; congruence].
        fold cL. erewrite Hhead; [|rewrite Hbody; reflexivity].
        step Hpopulate. cbn [fst snd]. rewrite Hne.
        step_by ltac:(apply abort_running; congruence).
        reflexivity.
      * simpl. split_and!; congruence.
  - (* inside a call *)
    intros mcall. split.
    + intros e Hcase.
      rewrite (handleMessage_call (Ok mcall) c (Some e) cL Hmu);
        [rewrite Hlog; unfold cL; rewrite (unlock_lock _ Hmu); reflexivity | | reflexivity].
      unfold handleCallMessage. cbn [Message_Call].
      destruct Hcase as [-> | (mt & -> & Hct & ->)]; [reflexivity|].
      rewrite Hct. reflexivity.
    + intros mt p Ht Hct Hp. split.
      * intros e Hund Hne Hrun.
        destruct (populate_undecodable cL p e (captable_undecodable_mu _ _ _ true Hund))
          as (caps & c2 & Hpopulate).
        destruct (populate_keeps _ _ _ _ Hpopulate)
          as (Hm2 & Ho2 & _ & Ha2 & _ & _ & _ & Hmu2).
        assert (Hl2 : log c2 = log cL).
        { apply (populate_log _ _ _ _ _ Hpopulate).
          intros e0 He0. injection He0 as <-. exact Hne. }
        eexists. split.
        -- rewrite (handleMessage_call (Ok mcall) c (Some e)
                      (set_mgr_err (Some e) (set_out (out c2 ++ [newAbortMessage e]) c2))
                      Hmu); [apply Hlog | | simpl; rewrite Hmu2; reflexivity].
           apply (call_captable_violation cL (Msg_call (Ok mcall)) mcall mt p
                    eq_refl Ht Hct Hp Hrun caps e c2 Hpopulate Hne).
        -- simpl. split_and!; try congruence.
           ++ rewrite Ho2. reflexivity.
           ++ rewrite Hl2. reflexivity.
           ++ rewrite Ha2. reflexivity.
      * intros ctab Htab Hall Hfresh.
        destruct (populate_resolving cL p ctab Htab Hall) as (caps & c2 & Hpopulate).
        destruct (populate_keeps _ _ _ _ Hpopulate)
          as (Hm2 & Ho2 & _ & Ha2 & _ & _ & _ & Hmu2).
        pose proof (populate_log _ _ _ _ _ Hpopulate ltac:(discriminate)) as Hl2.
        split.
        -- intros e Hcontent.
           eexists. split.
           ++ rewrite (handleMessage_call (Ok mcall) c (Some e)
                         (set_answers
                            (<[call_QuestionId mcall := newAnswer (call_QuestionId mcall)]>
                               (answers c2)) c2)
                         Hmu); [apply Hlog | | simpl; rewrite Hmu2; reflexivity].
              unfold handleCallMessage. cbn [Message_Call]. rewrite Ht, Hct, Hp.
              cbn [negb]. step Hpopulate. cbn [fst snd].
              step_by ltac:(apply insertAnswer_fresh; rewrite Ha2; exact Hfresh).
              rewrite Hcontent. reflexivity.
           ++ simpl. split_and!; try congruence.
              ** rewrite Hl2. reflexivity.
              ** rewrite Ho2. reflexivity.
              ** rewrite Hm2. reflexivity.
        -- intros content e Hcontent Hund Hrun.
           assert (Hroute :
             routeCallMessage (call_QuestionId mcall) mt
               (mkCall (mkMethod (call_InterfaceId mcall) (call_MethodId mcall))
                  (mkPtr (Ptr_Struct content) caps))
               (set_answers
                  (<[call_QuestionId mcall := newAnswer (call_QuestionId mcall)]>
                     (answers c2)) c2)
             = Done (Some e)
                 (set_answers
                    (<[call_QuestionId mcall := newAnswer (call_QuestionId mcall)]>
                       (answers c2)) c2)).
           { destruct Hund as [-> | pa -> Hne [a Ha] Hops].
             - reflexivity.
             - unfold routeCallMessage.
               destruct (N.eqb_spec (pa_QuestionId pa) (call_QuestionId mcall));
                 [contradiction|].
               step_by ltac:(unfold gets; reflexivity).
               cbn [answers set_answers]. rewrite lookup_insert_ne by congruence.
               rewrite Ha2. change (answers cL) with (answers c).
               rewrite Ha, Hops. reflexivity. }
           eexists. split.
           ++ rewrite (handleMessage_call (Ok mcall) c None
                         (set_out (out c2 ++ [newReturnException (call_QuestionId mcall) e])
                            (set_answers
                               (<[call_QuestionId mcall :=
                                    rejected_answer (call_QuestionId mcall) e]>
                                  (answers c2)) c2))
                         Hmu); [reflexivity | | simpl; rewrite Hmu2; reflexivity].
              apply (call_routing_error cL (Msg_call (Ok mcall)) mcall mt p
                       eq_refl Ht Hct Hp Hrun caps c2 content e _ Hpopulate Hcontent
                       Hfresh Hroute).
           ++ simpl.
              split_and!;
                [ apply lookup_insert_eq | rewrite Ho2; reflexivity
                | rewrite Hl2; reflexivity | rewrite Hm2; exact Hrun | reflexivity ].
  - (* inside a disembargo *)
    intros d e Hund Hrun.
    apply (handleMessage_disembargo_error (Ok d) c e Hmu Hrun).
    unfold handleDisembargoMessage. cbn [Message_Disembargo].
    destruct Hund as [-> | id -> -> | id pa -> -> [a Ha] Hops].
    + reflexivity.
    + reflexivity.
    + step_by ltac:(unfold gets; reflexivity).
      change (answers (set_mu_held true c)) with (answers c).
      rewrite Ha, Hops. reflexivity.
Qed.

Lemma decode_failure_handling_witness :
  (exists prefix,
     handleMessage finish_undecodable conn_bootstrapped
     = Done tt (set_log (log conn_bootstrapped ++ [LogErr prefix (errDecode "finish")])
                  conn_bootstrapped)) /\
  (exists c',
     handleMessage call_undecodable_captable conn_bootstrapped = Done tt c' /\
     mgr_err c' = Some (errDecode "capTable")) /\
  handleMessage disembargo_bad_target conn_bootstrapped
  = Done tt (aborted (errDecode "target") conn_bootstrapped).
Proof.
  destruct (decode_failure_handling conn_bootstrapped eq_refl)
    as (Hbody & _ & Hcall & Hdis).
  split_and!.
  - exact (Hbody finish_undecodable (errDecode "finish") eq_refl).
  - destruct (Hcall (mkCallMsg 1 (Ok (MT_importedCap 0)) 0 0
                       (Ok (mkPayload (Ok (PStruct [])) (Fail (errDecode "capTable"))))))
      as [_ H].
    destruct (H (MT_importedCap 0)
                (mkPayload (Ok (PStruct [])) (Fail (errDecode "capTable")))
                eq_refl eq_refl eq_refl) as [Hund _].
    destruct (Hund (errDecode "capTable")
                (undecodable_table conn_bootstrapped
                   (mkPayload (Ok (PStruct [])) (Fail (errDecode "capTable")))
                   (errDecode "capTable") eq_refl) eq_refl eq_refl)
      as (c' & Hrun & Hm & _).
    exists c'. split; assumption.
  - apply Hdis; [|reflexivity].
    apply undecodable_dis_target. reflexivity.
Defined.

(** C2, as stated, fails, both ways.  A finish message that does not
    decode does not abort the connection: on the connection that has
    answered a bootstrap it is logged and skipped, no abort is sent,
    the manager is not shut down, the answer stays.  And a call whose
    parameters' cap table does not decode is not skipped: on the same
    connection it aborts the connection, with an abort sent and the
    manager shut down with the decode error. *)
Lemma undecodable_finish_skipped_captable_aborts :
  (exists c',
     handleMessage finish_undecodable conn_bootstrapped = Done tt c' /\
     mgr_err c' = None /\
     out c' = out conn_bootstrapped /\
     answers c' = answers conn_bootstrapped /\
     log c' = log conn_bootstrapped ++ [LogErr "rpc: decode finish:" (errDecode "finish")]) /\
  (exists c',
     handleMessage call_undecodable_captable conn_bootstrapped = Done tt c' /\
     mgr_err conn_bootstrapped = None /\
     mgr_err c' = Some (errDecode "capTable") /\
     out c' = out conn_bootstrapped ++ [newAbortMessage (errDecode "capTable")]).
Proof.
  split.
  - eexists. split; [reflexivity|]. split_and!; reflexivity.
  - eexists. split; [vm_compute; reflexivity|]. split_and!; reflexivity.
Qed.

(** C3, as amended: a disembargo message on a running connection with
    the mutex free.  The connection is aborted when the body or the
    target does not decode, and, for [senderLoopback], when the target
    is not a promised answer, the promised answer does not decode, its
    answer is unknown, or its transform does not decode.  A context
    other than [senderLoopback] and [receiverLoopback] (accept,
    provide) whose target decodes is answered with an unimplemented
    echo, and the connection stays up, unchanged but for the echo. *)
Theorem disembargo_failure_handling c msg rd :
  msg = Msg_disembargo rd ->
  mu_held c = false ->
  mgr_err c = None ->
  match rd with
  | Fail e => handleMessage msg c = Done tt (aborted e c)
  | Ok d =>
    match dis_Target d with
    | Fail e => handleMessage msg c = Done tt (aborted e c)
    | Ok dtarget =>
      match dis_Context d with
      | DC_senderLoopback id =>
        match dtarget with
        | MT_promisedAnswer (Fail e) => handleMessage msg c = Done tt (aborted e c)
        | MT_promisedAnswer (Ok dpa) =>
          match answers c !! pa_QuestionId dpa with
          | None => handleMessage msg c = Done tt (aborted errDisembargoMissingAnswer c)
          | Some a =>
            match pa_Transform dpa with
            | Fail e => handleMessage msg c = Done tt (aborted e c)
            | Ok _ => exists c', handleMessage msg c = Done tt c' /\ mgr_err c' = None
            end
          end
        | _ => handleMessage msg c = Done tt (aborted errDisembargoNonImport c)
        end
      | DC_receiverLoopback id =>
        exists c', handleMessage msg c = Done tt c' /\ mgr_err c' = None
      | _ =>
        handleMessage msg c =
        Done tt (set_out (out c ++ [newUnimplementedMessage msg]) c)
      end
    end
  end.
Proof.
  intros -> Hmu Hrun.
  assert (Hfail : forall e,
    handleDisembargoMessage (Msg_disembargo rd) (set_mu_held true c)
    = Done (Some e) (set_mu_held true c) ->
    handleMessage (Msg_disembargo rd) c = Done tt (aborted e c)).
  { intros e H. unfold handleMessage.
    step_by ltac:(unfold mu_Lock; rewrite Hmu; reflexivity).
    step H.
    step_by ltac:(unfold mu_Unlock; reflexivity).
    rewrite (unlock_lock _ Hmu). apply abort_running. exact Hrun. }
  assert (Hok : forall c1,
    handleDisembargoMessage (Msg_disembargo rd) (set_mu_held true c) = Done None c1 ->
    mu_held c1 = true -> mgr_err c1 = None ->
    exists c', handleMessage (Msg_disembargo rd) c = Done tt c' /\ mgr_err c' = None).
  { intros c1 H Hmu1 Hrun1. unfold handleMessage.
    step_by ltac:(unfold mu_Lock; rewrite Hmu; reflexivity).
    step H.
    step_by ltac:(unfold mu_Unlock; rewrite Hmu1; reflexivity).
    eexists. split; [reflexivity | exact Hrun1]. }
  assert (Hecho :
    handleDisembargoMessage (Msg_disembargo rd) (set_mu_held true c)
    = Done None (set_out (out c ++ [newUnimplementedMessage (Msg_disembargo rd)])
                   (set_mu_held true c)) ->
    handleMessage (Msg_disembargo rd) c =
    Done tt (set_out (out c ++ [newUnimplementedMessage (Msg_disembargo rd)]) c)).
  { intros H. unfold handleMessage.
    step_by ltac:(unfold mu_Lock; rewrite Hmu; reflexivity).
    step H.
    step_by ltac:(unfold mu_Unlock; reflexivity).
    unfold ret. f_equal. destruct c; simpl in *; subst; reflexivity. }
  assert (Hsend : forall m',
    sendMessage m' (set_mu_held true c)
    = Done None (set_out (out c ++ [m']) (set_mu_held true c))).
  { intros m'. exact (sendMessage_running m' (set_mu_held true c) Hrun). }
  destruct rd as [d|e]; [|apply Hfail; reflexivity].
  unfold handleDisembargoMessage in Hfail, Hok, Hecho. simpl in Hfail, Hok, Hecho.
  destruct (dis_Target d) as [dtarget|e]; [|apply Hfail; reflexivity].
  destruct (dis_Context d) as [id|id| |id|w].
  - destruct dtarget as [x|[dpa|e]|w]; try (apply Hfail; reflexivity).
    unfold bind at 1, gets at 1 in Hfail. unfold bind at 1, gets at 1 in Hok.
    simpl in Hfail, Hok.
    destruct (answers c !! pa_QuestionId dpa) as [a|]; [|apply Hfail; reflexivity].
    destruct (pa_Transform dpa) as [ops|e]; [|apply Hfail; reflexivity].
    unfold queueDisembargo, alter_answer in Hok. unfold_M.
    destruct (a_done a); simpl in Hok.
    + rewrite Hsend in Hok. eapply Hok; [reflexivity | reflexivity | exact Hrun].
    + eapply Hok; [reflexivity | reflexivity | exact Hrun].
  - unfold disembargo in Hok. unfold_M. simpl in Hok.
    destruct (get_slot (N.to_nat id) (embargoes c));
      (eapply Hok; [reflexivity | reflexivity | exact Hrun]).
  - apply Hecho. rewrite (bind_done _ _ _ _ _ (Hsend _)). reflexivity.
  - apply Hecho. rewrite (bind_done _ _ _ _ _ (Hsend _)). reflexivity.
  - apply Hecho. rewrite (bind_done _ _ _ _ _ (Hsend _)). reflexivity.
Qed.

Lemma disembargo_failure_handling_witness :
  handleMessage disembargo_bad_target conn_bootstrapped
  = Done tt (aborted (errDecode "target") conn_bootstrapped) /\
  handleMessage disembargo_provide conn_bootstrapped
  = Done tt (set_out (out conn_bootstrapped ++ [newUnimplementedMessage disembargo_provide])
               conn_bootstrapped).
Proof.
  split.
  - exact (disembargo_failure_handling conn_bootstrapped disembargo_bad_target _
             eq_refl eq_refl eq_refl).
  - exact (disembargo_failure_handling conn_bootstrapped disembargo_provide _
             eq_refl eq_refl eq_refl).
Defined.

(** C3, as stated, fails: a disembargo whose context is [accept] does
    not abort the connection.  It is echoed as unimplemented; the
    manager is not shut down and no abort is sent. *)
Lemma disembargo_accept_is_echoed :
  exists c',
    handleMessage disembargo_accept conn_bootstrapped = Done tt c' /\
    mgr_err c' = None /\
    out c' = out conn_bootstrapped ++ [newUnimplementedMessage disembargo_accept].
Proof.
  eexists. split; [vm_compute; reflexivity|]. split; reflexivity.
Qed.

(** *** Bootstrap *)

Lemma get_slot_set_slot {A : Type} i (v : A) (l : list (option A)) :
  get_slot i (set_slot i (Some v) l) = Some v.
Proof.
  unfold get_slot, set_slot.
  destruct (decide (i < length l)%nat) as [Hlt|Hge].
  - rewrite list_lookup_insert_eq by exact Hlt. reflexivity.
  - rewrite lookup_app_r by lia.
    rewrite lookup_app_r by (rewrite length_replicate; lia).
    rewrite length_replicate, Nat.sub_diag. reflexivity.
Qed.

Lemma get_slot_cleared {A : Type} i (l : list (option A)) :
  get_slot i (<[i := None]> l) = None.
Proof.
  unfold get_slot.
  destruct (decide (i < length l)%nat) as [Hlt|Hge].
  - rewrite list_lookup_insert_eq by exact Hlt. reflexivity.
  - rewrite lookup_ge_None_2; [reflexivity|]. rewrite length_insert. lia.
Qed.

(** The enqueue of the bootstrap message fails: the select takes the
    [ctx.Done()] or the [finish] case, and [e] is the error read there.
    The new question is popped and its ID recycled, nothing is
    enqueued, and the mutex is given back. *)
Lemma Bootstrap_enqueue_fails c ctx s2 e :
  mu_held c = false ->
  (s2 = Send_ctxDone /\ ctx = Some e) \/ (s2 = Send_finish /\ mgr_err c = Some e) ->
  exists c',
    Bootstrap ctx Lock_mu s2 c = Done (ErrorClient e) c' /\
    get_slot (N.to_nat (next_question_id c)) (questions c') = None /\
    questionIDs c' =
      idgen_remove (next_question_id c) (snd (idgen_next (questionIDs c))) /\
    qheap c' = qheap c ++ [fresh_question c] /\
    out c' = out c /\
    mu_held c' = false.
Proof.
  intros Hmu Hsel.
  unfold next_question_id, fresh_question, next_question_id.
  destruct (idgen_next (questionIDs c)) as [id g] eqn:Hgen. cbn [fst snd].
  set (c0 := set_mu_held true c).
  set (r := length (qheap c)).
  set (q := mkQuestion id None [] questionInProgress None None false).
  set (c1 := set_questionIDs g
               (set_questions (set_slot (N.to_nat id) (Some r) (questions c))
                  (set_qheap (qheap c ++ [q]) c0))).
  set (c2 := set_questionIDs (idgen_remove id g)
               (set_questions (<[N.to_nat id := None]> (questions c1)) c1)).
  assert (Hlock : mu_Lock c = Done tt c0)
    by (unfold mu_Lock; rewrite Hmu; reflexivity).
  assert (Hnew : newQuestion None c0 = Done r c1).
  { unfold newQuestion. simpl questionIDs. rewrite Hgen. reflexivity. }
  assert (Hat : question_at r c1 = Done q c1).
  { apply question_at_found. simpl. unfold r.
    rewrite lookup_app_r by lia. rewrite Nat.sub_diag. reflexivity. }
  assert (Hpop : popQuestion id c1 = Done (Some r) c2).
  { apply popQuestion_found. simpl. apply get_slot_set_slot. }
  assert (Hend : forall k : M Client,
    k c1 = Done (ErrorClient e) c2 ->
    (let* r := k in mu_Unlock ;; ret r) c1 = Done (ErrorClient e) (set_mu_held false c2)).
  { intros k Hk. step Hk. reflexivity. }
  exists (set_mu_held false c2). split.
  - unfold Bootstrap. step Hlock. step Hnew. step Hat. cbn [q_id q].
    apply Hend.
    destruct Hsel as [[-> ->]|[-> Herr]].
    + step Hpop. reflexivity.
    + step_by ltac:(unfold manager_err, gets; reflexivity).
      change (mgr_err c1) with (mgr_err c). rewrite Herr.
      step Hpop. reflexivity.
  - simpl. split_and!; try reflexivity. apply get_slot_cleared.
Qed.

(** C8: the failure paths of [Bootstrap].  (1) When the first select is
    won by the manager's finish signal, the error client of the
    manager's terminal error is returned and the connection is left as
    it was.  (2) While the mutex is held by another goroutine and the
    context is not done, a shut-down manager leaves the call no other
    way out: whichever case it waits on, it blocks or returns that
    error client.  (3) When the enqueue fails, by the context or by the
    finish signal, the question allocated for the bootstrap is popped
    from the table, with its ID recycled, before the error client is
    returned; nothing was enqueued. *)
Theorem Bootstrap_failure_paths c ctx e :
  (forall s2,
     mgr_err c = Some e ->
     Bootstrap ctx Lock_finish s2 c = Done (ErrorClient e) c) /\
  (forall s1 s2,
     mgr_err c = Some e -> mu_held c = true -> ctx = None ->
     Bootstrap ctx s1 s2 c = Blocked \/
     Bootstrap ctx s1 s2 c = Done (ErrorClient e) c) /\
  (forall s2,
     mu_held c = false ->
     (s2 = Send_ctxDone /\ ctx = Some e) \/ (s2 = Send_finish /\ mgr_err c = Some e) ->
     exists c',
       Bootstrap ctx Lock_mu s2 c = Done (ErrorClient e) c' /\
       get_slot (N.to_nat (next_question_id c)) (questions c') = None /\
       questionIDs c' =
         idgen_remove (next_question_id c) (snd (idgen_next (questionIDs c))) /\
       qheap c' = qheap c ++ [fresh_question c] /\
       out c' = out c /\
       mu_held c' = false).
Proof.
  split_and!.
  - intros s2 Herr. unfold Bootstrap, manager_err. unfold_M.
    rewrite Herr. reflexivity.
  - intros s1 s2 Herr Hmu ->.
    destruct s1.
    + left. unfold Bootstrap, mu_Lock, bind. rewrite Hmu. reflexivity.
    + left. reflexivity.
    + right. unfold Bootstrap, manager_err. unfold_M. rewrite Herr. reflexivity.
  - intros s2 Hmu Hsel. apply Bootstrap_enqueue_fails; assumption.
Qed.

Lemma Bootstrap_failure_paths_witness :
  Bootstrap None Lock_finish Send_out conn_closed_locked
  = Done (ErrorClient ErrConnClosed) conn_closed_locked /\
  exists c',
    Bootstrap (Some ctxCanceled) Lock_mu Send_ctxDone conn_bootstrapped
    = Done (ErrorClient ctxCanceled) c' /\
    get_slot 0 (questions c') = None /\
    out c' = out conn_bootstrapped.
Proof.
  split.
  - destruct (Bootstrap_failure_paths conn_closed_locked None ErrConnClosed)
      as (Hfin & Hblocked & _).
    destruct (Hblocked Lock_finish Send_out eq_refl eq_refl eq_refl) as [H|H].
    + discriminate H.
    + exact H.
  - destruct (Bootstrap_failure_paths conn_bootstrapped (Some ctxCanceled) ctxCanceled)
      as (_ & _ & Hfail).
    destruct (Hfail Send_ctxDone eq_refl (or_introl (conj eq_refl eq_refl)))
      as (c' & Hrun & Hslot & _ & _ & Hout & _).
    exists c'. split_and!; assumption.
Defined.

(** *** Close *)

(** [Close] by the state of the manager.  On a connection that has not
    been shut down, [Close] performs the shutdown (the terminal error
    becomes [ErrConnClosed]), hands [abort(shutdown)] to the transport,
    closes the transport, and returns the transport's send error, else
    its close error, else nil; every later call returns [ErrConnClosed]
    and changes nothing.  On a connection that is already shut down, by
    whatever path, [Close] returns [ErrConnClosed] and changes
    nothing. *)
Theorem Close_shuts_down_once c werr cerr :
  match mgr_err c with
  | None =>
    exists c1,
      Close werr cerr c =
      Done (match werr with Some e => Some e | None => cerr end) c1 /\
      mgr_err c1 = Some ErrConnClosed /\
      tr_sent c1 = tr_sent c ++ [newAbortMessage errShutdown] /\
      tr_closed c1 = true /\
      forall werr' cerr', Close werr' cerr' c1 = Done (Some ErrConnClosed) c1
  | Some _ => Close werr cerr c = Done (Some ErrConnClosed) c
  end.
Proof.
  assert (Hdown : forall c0 e w k,
    mgr_err c0 = Some e -> Close w k c0 = Done (Some ErrConnClosed) c0).
  { intros c0 e w k H. unfold Close, manager_shutdown, bind, ret.
    rewrite H. reflexivity. }
  destruct (mgr_err c) as [e|] eqn:Hm.
  - apply (Hdown c e). exact Hm.
  - unfold Close, manager_shutdown, manager_wait, manager_finished. unfold_M.
    rewrite Hm. simpl.
    destruct werr as [e|]; [|destruct cerr as [e|]];
      (eexists; split; [reflexivity|]; simpl; split_and!; try reflexivity;
       intros w k; apply (Hdown _ ErrConnClosed); reflexivity).
Qed.

(** C9, at the failing input: the connection that has answered a
    bootstrap and then handled the peer's [abort "oops"].  [Close] has
    not been called on it and its transport is open.  The first call of
    [Close] returns [ErrConnClosed] at once, because the manager was
    shut down by the abort: no abort is handed to the transport and the
    transport is not closed, although closing the connection is to
    close the transport. *)
Lemma first_Close_after_abort_keeps_transport :
  mgr_err conn_peer_aborted = Some (Abort "oops") /\
  tr_closed conn_peer_aborted = false /\
  tr_sent conn_peer_aborted = [] /\
  Close None None conn_peer_aborted = Done (Some ErrConnClosed) conn_peer_aborted.
Proof.
  split_and!; reflexivity.
Qed.

(** *** makeCapTable *)

(** C10: when the allocation of the descriptor list fails,
    [makeCapTable] returns the empty list and a nil error, without
    looking at the clients; [fillParams], whose other segment calls
    succeed, then sets the empty cap table on the payload and returns
    nil: the failure is not reported. *)
Theorem makeCapTable_swallows_alloc_failure e msgtab c :
  makeCapTable (Some e) msgtab c = Done ([], None) c /\
  forall params,
    fillParams (mkSegmentCalls (Ok params) None (Some e) None) c
    = Done (mkPayload (Ok (ptr_val params)) (Ok []), None) c.
Proof.
  split; [reflexivity|]. intros params. reflexivity.
Qed.

(** * More properties of [rpc.go] *)

(** ** The relation of a handler step *)

Lemma frame_refl c : frame c c.
Proof. constructor; auto. Qed.

Lemma frame_trans c1 c2 c3 : frame c1 c2 -> frame c2 c3 -> frame c1 c3.
Proof.
  intros [] []. constructor; try congruence; try (etrans; eassumption); auto.
Qed.

Lemma step_rel_refl c : step_rel c c.
Proof. split; [apply frame_refl | intros id H; exact H]. Qed.

Lemma step_rel_trans c1 c2 c3 : step_rel c1 c2 -> step_rel c2 c3 -> step_rel c1 c3.
Proof.
  intros [F1 A1] [F2 A2]. split; [eapply frame_trans; eauto|].
  intros id H. apply A2, A1, H.
Qed.

Lemma get_slot_insert_None {A : Type} i j (l : list (option A)) r :
  get_slot j (<[i := None]> l) = Some r -> get_slot j l = Some r.
Proof.
  unfold get_slot. destruct (decide (i = j)) as [<-|Hne].
  - destruct (decide (i < length l)%nat) as [Hlt|Hge].
    + rewrite list_lookup_insert_eq by exact Hlt. discriminate.
    + rewrite list_insert_ge by lia. auto.
  - rewrite list_lookup_insert_ne by exact Hne. auto.
Qed.

(** [frame_tac] proves a [step_rel] between a connection and an update
    of it. *)
Ltac frame_tac :=
  split;
  [ constructor; simpl; intros;
    try reflexivity; try assumption; try discriminate;
    try (apply prefix_app_r; reflexivity);
    try (eapply get_slot_insert_None; eassumption)
  | intros ? ?; simpl; try assumption ].

Section RunsLogic.

Variable I : Conn -> Prop.
Hypothesis I_stable : forall c c', I c -> step_rel c c' -> I c'.

Lemma runs_ret {A : Type} (a : A) : runs I (ret a).
Proof. intros c _. exists a, c. split; [reflexivity | apply step_rel_refl]. Qed.

Lemma runs_bind {A B : Type} (m : M A) (k : A -> M B) :
  runs I m -> (forall a, runs I (k a)) -> runs I (bind m k).
Proof.
  intros Hm Hk c Hc.
  destruct (Hm c Hc) as (a & c1 & H1 & R1).
  destruct (Hk a c1 (I_stable _ _ Hc R1)) as (b & c2 & H2 & R2).
  exists b, c2. split.
  - unfold bind. rewrite H1. exact H2.
  - eapply step_rel_trans; eassumption.
Qed.

Lemma runs_forM {A : Type} (l : list A) (f : A -> M unit) :
  (forall x, runs I (f x)) -> runs I (forM_ l f).
Proof.
  intros Hf. induction l as [|x l IH]; simpl.
  - apply runs_ret.
  - apply runs_bind; [apply Hf | intros _; exact IH].
Qed.

Lemma runs_any {A : Type} (m : M A) : runs (fun _ => True) m -> runs I m.
Proof. intros H c _. apply H. exact Logic.I. Qed.

End RunsLogic.

Lemma stable_True : forall c c' : Conn, True -> step_rel c c' -> True.
Proof. auto. Qed.

(** The primitives: each returns wherever it is started. *)

Lemma gets_steps {A : Type} (f : Conn -> A) : runs (fun _ => True) (gets f).
Proof. intros c _. exists (f c), c. split; [reflexivity | apply step_rel_refl]. Qed.

Lemma logf_steps e : runs (fun _ => True) (logf e).
Proof. intros c _. eexists _, _. split; [reflexivity | frame_tac]. Qed.

Lemma sendMessage_steps m : runs (fun _ => True) (sendMessage m).
Proof.
  intros c _. unfold sendMessage. destruct (mgr_err c) eqn:Hm.
  - eexists _, _. split; [reflexivity | apply step_rel_refl].
  - eexists _, _. split; [reflexivity | frame_tac; congruence].
Qed.

Lemma manager_shutdown_steps e : runs (fun _ => True) (manager_shutdown e).
Proof.
  intros c _. unfold manager_shutdown. destruct (mgr_err c) eqn:Hm.
  - eexists _, _. split; [reflexivity | apply step_rel_refl].
  - eexists _, _. split; [reflexivity | frame_tac; congruence].
Qed.

Lemma is_Some_insert_kept {V : Type} (m : gmap N V) i x j :
  is_Some (m !! j) -> is_Some (<[i := x]> m !! j).
Proof.
  intros H. destruct (decide (i = j)) as [<-|Hne].
  - rewrite lookup_insert_eq. eauto.
  - rewrite lookup_insert_ne by exact Hne. exact H.
Qed.

Lemma is_Some_alter_kept {V : Type} (f : V -> V) (m : gmap N V) i j :
  is_Some (m !! j) -> is_Some (alter f i m !! j).
Proof.
  intros [x Hx]. rewrite lookup_alter. destruct (decide (i = j)) as [<-|Hne].
  - rewrite Hx. simpl. eauto.
  - rewrite Hx. eauto.
Qed.

Ltac frame_more :=
  frame_tac;
  try congruence;
  try (rewrite length_insert; reflexivity);
  try (apply is_Some_insert_kept; assumption);
  try (apply is_Some_alter_kept; assumption).

Create HintDb steps.

#[local] Hint Resolve gets_steps logf_steps sendMessage_steps manager_shutdown_steps : steps.

(** [runs_go HI] walks a program: primitives by the hints, binds and
    loops by the rules, branches by cases. *)
Ltac runs_go HI :=
  repeat first
    [ apply runs_ret
    | solve [auto with steps]
    | solve [apply runs_any; auto with steps]
    | apply (runs_bind _ HI); [| intros ?]
    | apply (runs_forM _ HI); intros ?
    | match goal with
      | |- runs _ (match ?x with _ => _ end) => destruct x
      end ].

Lemma abort_steps err : runs (fun _ => True) (abort err).
Proof. unfold abort. runs_go stable_True. Qed.

#[local] Hint Resolve abort_steps : steps.

Lemma modify_exports_steps (f : Conn -> list (option export)) (g : Conn -> idgen) :
  runs (fun _ => True)
    (modify (fun c => set_exportIDs (g c) (set_exports (f c) c))).
Proof. intros c _. eexists _, _. split; [reflexivity | frame_more]. Qed.

Lemma releaseExport_steps id refs : runs (fun _ => True) (releaseExport id refs).
Proof.
  unfold releaseExport.
  apply (runs_bind _ stable_True); [auto with steps | intros oe].
  destruct ((refs <? 0)%Z || _); [auto with steps|].
  destruct oe as [e|]; [|apply runs_ret].
  destruct (_ =? _)%Z.
  - apply modify_exports_steps.
  - intros c _. eexists _, _. split; [reflexivity | frame_more].
Qed.

Lemma addImport_steps id : runs (fun _ => True) (addImport id).
Proof.
  intros c _. unfold addImport. unfold_M. eexists _, _.
  split; [reflexivity | frame_more].
Qed.

Lemma addExport_steps cl : runs (fun _ => True) (addExport cl).
Proof.
  intros c _. unfold addExport.
  destruct (export_of_client cl c) as [e|].
  - eexists _, _. split; [reflexivity | frame_more].
  - destruct (idgen_next (exportIDs c)) as [id g].
    eexists _, _. split; [reflexivity | frame_more].
Qed.

#[local] Hint Resolve releaseExport_steps addImport_steps addExport_steps : steps.

Lemma descriptorForClient_steps cl : runs (fun _ => True) (descriptorForClient cl).
Proof.
  assert (Hexp : runs (fun _ => True)
            (let* id := addExport cl in ret (CD_senderHosted id)))
    by runs_go stable_True.
  intros c _. unfold descriptorForClient.
  destruct cl as [|n|id|id t|r t|e]; try (apply Hexp; exact Logic.I).
  - eexists _, _. split; [reflexivity | apply step_rel_refl].
  - destruct (imports c !! id); [|apply Hexp; exact Logic.I].
    eexists _, _. split; [reflexivity | apply step_rel_refl].
  - destruct (question_outstanding r c); [|apply Hexp; exact Logic.I].
    eexists _, _. split; [reflexivity | apply step_rel_refl].
Qed.

#[local] Hint Resolve descriptorForClient_steps : steps.

Lemma makeCapTable_loop_steps msgtab : runs (fun _ => True) (makeCapTable_loop msgtab).
Proof.
  induction msgtab as [|cl rest IH]; simpl; runs_go stable_True.
Qed.

#[local] Hint Resolve makeCapTable_loop_steps : steps.

Lemma makeCapTable_steps alloc msgtab : runs (fun _ => True) (makeCapTable alloc msgtab).
Proof. unfold makeCapTable. runs_go stable_True. Qed.

Lemma insertAnswer_steps id : runs (fun _ => True) (insertAnswer id).
Proof.
  intros c _. unfold insertAnswer. destruct (answers c !! id).
  - eexists _, _. split; [reflexivity | apply step_rel_refl].
  - eexists _, _. split; [reflexivity | frame_more].
Qed.

Lemma alter_answer_steps f id : runs (fun _ => True) (alter_answer f id).
Proof.
  intros c _. unfold alter_answer, modify. eexists _, _.
  split; [reflexivity | frame_more].
Qed.

Lemma lockedCall_steps client cl result : runs (fun _ => True) (lockedCall client cl result).
Proof.
  intros c _. unfold lockedCall, modify. eexists _, _.
  split; [reflexivity | frame_more].
Qed.

Lemma disembargo_steps id : runs (fun _ => True) (disembargo id).
Proof.
  intros c _. unfold disembargo. destruct (get_slot _ _).
  - eexists _, _. split; [reflexivity | frame_more].
  - eexists _, _. split; [reflexivity | apply step_rel_refl].
Qed.

#[local] Hint Resolve makeCapTable_steps insertAnswer_steps alter_answer_steps
  lockedCall_steps disembargo_steps : steps.

Lemma answer_cancel_steps id : runs (fun _ => True) (answer_cancel id).
Proof. unfold answer_cancel. auto with steps. Qed.

Lemma queueCall_steps id pc : runs (fun _ => True) (queueCall id pc).
Proof. unfold queueCall. runs_go stable_True. Qed.

Lemma queueDisembargo_steps a d : runs (fun _ => True) (queueDisembargo a d).
Proof. unfold queueDisembargo. runs_go stable_True. Qed.

Lemma dispatch_queue_steps obj err a : runs (fun _ => True) (dispatch_queue obj err a).
Proof. unfold dispatch_queue. runs_go stable_True. Qed.

#[local] Hint Resolve answer_cancel_steps queueCall_steps queueDisembargo_steps
  dispatch_queue_steps : steps.

Lemma answer_fulfill_steps id obj : runs (fun _ => True) (answer_fulfill id obj).
Proof. unfold answer_fulfill. runs_go stable_True. Qed.

Lemma answer_reject_steps id err : runs (fun _ => True) (answer_reject id err).
Proof. unfold answer_reject. runs_go stable_True. Qed.

Lemma populate_loop_steps ctab : forall caps, runs (fun _ => True) (populate_loop ctab caps).
Proof.
  induction ctab as [|desc rest IH]; intros caps; simpl; runs_go stable_True.
Qed.

#[local] Hint Resolve answer_fulfill_steps answer_reject_steps populate_loop_steps : steps.

Lemma populateMessageCapTable_steps payload :
  runs (fun _ => True) (populateMessageCapTable payload).
Proof. unfold populateMessageCapTable. runs_go stable_True. Qed.

#[local] Hint Resolve populateMessageCapTable_steps : steps.

(** The handlers that do not read the question table return wherever
    they are started. *)

Lemma handleBootstrapMessage_steps id : runs (fun _ => True) (handleBootstrapMessage id).
Proof. unfold handleBootstrapMessage. runs_go stable_True. Qed.

Lemma routeCallMessage_steps result mt cl :
  is_call_target mt = true ->
  runs (fun _ => True) (routeCallMessage result mt cl).
Proof.
  intros Hct. unfold routeCallMessage.
  destruct mt as [x|pa|w]; [| |discriminate Hct]; runs_go stable_True.
Qed.

Lemma handleCallMessage_steps m : runs (fun _ => True) (handleCallMessage m).
Proof.
  unfold handleCallMessage.
  destruct (Message_Call m) as [mcall|err]; [|apply runs_ret].
  destruct (call_Target mcall) as [mt|err]; [|apply runs_ret].
  destruct (is_call_target mt) eqn:Hct; cbn [negb]; [|auto with steps].
  pose proof (routeCallMessage_steps) as Hroute.
  runs_go stable_True.
Qed.

Lemma handleDisembargoMessage_steps msg : runs (fun _ => True) (handleDisembargoMessage msg).
Proof. unfold handleDisembargoMessage. runs_go stable_True. Qed.

(** The question pointer a return pops stays valid through the handler. *)

Lemma valid_question_stable r :
  forall c c', valid_question r c -> step_rel c c' -> valid_question r c'.
Proof.
  intros c c' H [F _]. unfold valid_question in *. rewrite (fr_qheap _ _ F). exact H.
Qed.

Lemma question_at_runs r : runs (valid_question r) (question_at r).
Proof.
  intros c H. unfold question_at.
  destruct (lookup_lt_is_Some_2 _ _ H) as [q Hq]. rewrite Hq.
  exists q, c. split; [reflexivity | apply step_rel_refl].
Qed.

Lemma set_question_steps r q : runs (fun _ => True) (set_question r q).
Proof.
  intros c _. unfold set_question, modify. eexists _, _.
  split; [reflexivity | frame_more].
Qed.

#[local] Hint Resolve question_at_runs set_question_steps : steps.

Lemma question_fulfill_runs r obj : runs (valid_question r) (question_fulfill r obj).
Proof. unfold question_fulfill. runs_go (valid_question_stable r). Qed.

Lemma question_reject_runs r state err :
  runs (valid_question r) (question_reject r state err).
Proof. unfold question_reject. runs_go (valid_question_stable r). Qed.

#[local] Hint Resolve question_fulfill_runs question_reject_runs : steps.

Lemma popQuestion_step id c :
  exists oq c', popQuestion id c = Done oq c' /\ step_rel c c' /\
    oq = get_slot (N.to_nat id) (questions c) /\
    get_slot (N.to_nat id) (questions c') = None.
Proof.
  unfold popQuestion. destruct (get_slot (N.to_nat id) (questions c)) as [r|] eqn:Hs.
  - eexists _, _. split; [reflexivity|]. split; [frame_more|].
    split; [reflexivity|]. simpl. apply get_slot_cleared.
  - exists None, c. split; [reflexivity|]. split; [apply step_rel_refl|].
    split; [reflexivity | exact Hs].
Qed.

(** [handleReturnMessage] returns on every connection whose question
    table holds valid pointers. *)
Lemma handleReturnMessage_runs m : runs conn_wf (handleReturnMessage m).
Proof.
  intros c Hwf. unfold handleReturnMessage.
  destruct (Message_Return m) as [r|err].
  2:{ exists (Some err), c. split; [reflexivity | apply step_rel_refl]. }
  destruct (popQuestion_step (ret_AnswerId r) c) as (oq & c0 & Hpop & R0 & Hoq & _).
  rewrite (bind_done _ _ _ _ _ Hpop).
  destruct oq as [q|].
  2:{ eexists _, c0. split; [reflexivity | exact R0]. }
  assert (Hq : valid_question q c0).
  { apply (valid_question_stable q c); [|exact R0].
    apply (Hwf (N.to_nat (ret_AnswerId r))). symmetry. exact Hoq. }
  match goal with
  | |- exists a c', ?prog c0 = _ /\ _ =>
    assert (Hrest : runs (valid_question q) prog)
  end.
  { runs_go (valid_question_stable q). }
  destruct (Hrest c0 Hq) as (a & c' & Hrun & R1).
  exists a, c'. split; [exact Hrun | eapply step_rel_trans; eassumption].
Qed.

(** ** A message handled under the mutex *)

Lemma conn_wf_frame c c' : conn_wf c -> frame c c' -> conn_wf c'.
Proof.
  intros Hwf F i r H. rewrite (fr_qheap _ _ F).
  apply (Hwf i), (fr_questions _ _ F), H.
Qed.

Lemma conn_wf_stable : forall c c', conn_wf c -> step_rel c c' -> conn_wf c'.
Proof. intros c c' H [F _]. eapply conn_wf_frame; eassumption. Qed.

Lemma step_rel_locked c c1 :
  mu_held c = false ->
  step_rel (set_mu_held true c) c1 ->
  mu_held c1 = true /\ step_rel c (set_mu_held false c1).
Proof.
  intros Hmu [[] K]. simpl in *. split; [assumption|].
  split; [constructor; simpl; auto | exact K].
Qed.

(** Lock, run a handler, unlock, then go on without the mutex. *)
Lemma with_lock_runs {A : Type} (I : Conn -> Prop) (h : M A) (k : A -> M unit) c :
  mu_held c = false ->
  I (set_mu_held true c) ->
  runs I h ->
  (forall a, runs (fun _ => True) (k a)) ->
  exists c',
    (mu_Lock ;; let* a := h in mu_Unlock ;; k a) c = Done tt c' /\ step_rel c c'.
Proof.
  intros Hmu HI Hh Hk.
  destruct (Hh _ HI) as (a & c1 & H1 & R1).
  destruct (step_rel_locked _ _ Hmu R1) as [Hmu1 R2].
  destruct (Hk a (set_mu_held false c1) Logic.I) as ([] & c2 & H2 & R3).
  exists c2. split.
  - step_by ltac:(unfold mu_Lock; rewrite Hmu; reflexivity).
    step H1.
    step_by ltac:(unfold mu_Unlock; rewrite Hmu1; reflexivity).
    exact H2.
  - eapply step_rel_trans; eassumption.
Qed.

Lemma log_if_err_steps prefix err : runs (fun _ => True) (log_if_err prefix err).
Proof. unfold log_if_err. runs_go stable_True. Qed.

#[local] Hint Resolve log_if_err_steps : steps.

(** With the mutex free and a well-formed question table, a message
    is handled to the end, and every answer stays, unless it is a
    finish: a finish for a known answer removes it, a finish for an
    unknown answer panics on the nil answer. *)
Lemma handleMessage_step m c :
  mu_held c = false ->
  conn_wf c ->
  (exists c',
     handleMessage m c = Done tt c' /\ frame c c' /\
     match m with
     | Msg_finish (Ok f) =>
       is_Some (answers c !! fin_QuestionId f) /\
       answers c' = delete (fin_QuestionId f) (answers c)
     | _ => answers_kept c c'
     end) \/
  (exists f why,
     m = Msg_finish (Ok f) /\ answers c !! fin_QuestionId f = None /\
     handleMessage m c = Panic why).
Proof.
  intros Hmu Hwf.
  assert (Hwf0 : conn_wf (set_mu_held true c)) by exact Hwf.
  assert (Hplain : forall prog : M unit,
            runs (fun _ => True) prog ->
            exists c', prog c = Done tt c' /\ frame c c' /\ answers_kept c c').
  { intros prog Hp. destruct (Hp c Logic.I) as ([] & c' & H & [F K]).
    exists c'. auto. }
  assert (Hlocked : forall (A : Type) (I : Conn -> Prop) (h : M A) (k : A -> M unit),
            I (set_mu_held true c) -> runs I h ->
            (forall a, runs (fun _ => True) (k a)) ->
            exists c', (mu_Lock ;; let* a := h in mu_Unlock ;; k a) c = Done tt c' /\
                       frame c c' /\ answers_kept c c').
  { intros A I h k HI Hh Hk.
    destruct (with_lock_runs I h k c Hmu HI Hh Hk) as (c' & H & [F K]).
    exists c'. auto. }
  destruct m as [orig|x|x|[f|e]|[b|e]|x|[r|e]|x|w]; simpl handleMessage.
  - left. apply Hplain. apply runs_ret.
  - left. apply Hplain. destruct (copyAbort (Msg_abort x)) as [a err].
    runs_go stable_True.
  - left. apply (Hlocked _ conn_wf); [exact Hwf0 | apply handleReturnMessage_runs |].
    intros a. auto with steps.
  - destruct (answers c !! fin_QuestionId f) as [a|] eqn:Ha.
    + left.
      set (c1 := set_answers (delete (fin_QuestionId f) (answers c)) (set_mu_held true c)).
      assert (Hrel : runs (fun _ => True)
                (if fin_ReleaseResultCaps f
                 then forM_ (a_resultCaps a) (fun id => releaseExport id 1)
                 else ret tt)) by runs_go stable_True.
      destruct (Hrel c1 Logic.I) as ([] & c2 & H2 & [F2 K2]).
      assert (Hans : answers c2 = answers c1).
      { destruct (fin_ReleaseResultCaps f).
        - destruct (release_all_frame (a_resultCaps a) c1) as (c2' & H2' & Hc & _).
          rewrite H2 in H2'. injection H2' as <-.
          unfold release_core in Hc. injection Hc as _ _ _ _ _ _ _ _ _ _ Hans _ _ _.
          exact Hans.
        - injection H2 as <-. reflexivity. }
      exists (set_mu_held false c2). split; [|split; [|split; [eauto|]]].
      * step_by ltac:(unfold mu_Lock; rewrite Hmu; reflexivity).
        step_by ltac:(unfold popAnswer; reflexivity).
        change (answers (set_mu_held true c)) with (answers c).
        rewrite Ha. cbv beta iota. fold c1.
        step H2. unfold mu_Unlock.
        rewrite (fr_mu _ _ F2). reflexivity.
      * destruct F2. constructor; simpl in *; auto.
      * simpl. rewrite Hans. reflexivity.
    + right. exists f. eexists. split; [reflexivity|]. split; [exact Ha|].
      unfold bind, mu_Lock, popAnswer. rewrite Hmu. simpl. rewrite Ha. reflexivity.
  - left. apply Hplain. auto with steps.
  - left. apply (Hlocked _ (fun _ => True));
      [exact Logic.I | apply handleBootstrapMessage_steps |].
    intros a. auto with steps.
  - left. apply Hplain. auto with steps.
  - left. apply (Hlocked _ (fun _ => True));
      [exact Logic.I | apply handleCallMessage_steps |].
    intros a. auto with steps.
  - left.
    destruct (Hlocked _ (fun _ => True) (releaseExport (rel_Id r) (Z.of_N (rel_ReferenceCount r)))
                (fun _ => ret tt) Logic.I (releaseExport_steps _ _)
                (fun _ => runs_ret _ tt)) as (c' & H & F & K).
    exists c'. split; [|auto].
    unfold bind in H |- *.
    destruct (mu_Lock c) as [[] c0| |]; try discriminate H.
    destruct (releaseExport _ _ c0) as [[] c1| |]; try discriminate H.
    destruct (mu_Unlock c1) as [[] c2| |]; try discriminate H. exact H.
  - left. apply Hplain. auto with steps.
  - left. apply (Hlocked _ (fun _ => True));
      [exact Logic.I | apply handleDisembargoMessage_steps |].
    intros [err|]; auto with steps. apply runs_ret.
  - left. apply Hplain. runs_go stable_True.
Qed.

(** ** Transforms on the wire *)

Lemma ops_app l1 l2 :
  promisedAnswerOpsToTransform (l1 ++ l2)
  = promisedAnswerOpsToTransform l1 ++ promisedAnswerOpsToTransform l2.
Proof.
  induction l1 as [|[|f|w] l1 IH]; simpl; auto. rewrite IH. reflexivity.
Qed.

(** X1: a transform written to the wire by [transformToPromisedAnswer]
    and read back by [promisedAnswerOpsToTransform] is the same
    transform, when its fields fit in 16 bits. *)
Theorem transform_wire_roundtrip (transform : list PipelineOp) :
  Forall (fun op => Field op < 65536) transform ->
  promisedAnswerOpsToTransform (transformToPromisedAnswer transform) = transform.
Proof.
  induction 1 as [|[f] rest Hf _ IH]; [reflexivity|].
  unfold transformToPromisedAnswer in *. simpl in *.
  rewrite IH, N.mod_small by exact Hf. reflexivity.
Qed.

Lemma transform_wire_roundtrip_witness :
  promisedAnswerOpsToTransform (transformToPromisedAnswer [mkOp 0; mkOp 3])
  = [mkOp 0; mkOp 3].
Proof.
  apply transform_wire_roundtrip.
  repeat constructor.
Defined.

(** X2: [promisedAnswerOpsToTransform] reads the ops in order and
    passes over [noop] and unknown ops: dropping such an op anywhere in
    the list leaves the transform unchanged, and the transform is never
    longer than the op list. *)
Theorem ops_noop_ignored l1 l2 :
  promisedAnswerOpsToTransform (l1 ++ Op_noop :: l2)
  = promisedAnswerOpsToTransform (l1 ++ l2) /\
  (forall w, promisedAnswerOpsToTransform (l1 ++ Op_other w :: l2)
             = promisedAnswerOpsToTransform (l1 ++ l2)) /\
  (length (promisedAnswerOpsToTransform (l1 ++ l2)) <= length (l1 ++ l2))%nat.
Proof.
  split_and!.
  - rewrite !ops_app. reflexivity.
  - intros w. rewrite !ops_app. reflexivity.
  - induction (l1 ++ l2) as [|[|f|w] l IH]; simpl; lia.
Qed.

(** X3: [clientFromResolution] never returns the nil client: a rejected
    resolution gives the error client of its error, a transform that
    does not apply or that selects no capability gives an error client,
    and otherwise the result is the capability the selected interface
    pointer names in the cap table of the result. *)
Theorem clientFromResolution_never_nil transform obj err :
  clientFromResolution transform obj err <> NilClient /\
  (forall e, err = Some e -> clientFromResolution transform obj err = ErrorClient e) /\
  (forall i cl,
     err = None ->
     TransformPtr (ptr_val obj) transform = Ok (PInterface i) ->
     ptr_caps obj !! N.to_nat i = Some cl ->
     cl <> NilClient ->
     clientFromResolution transform obj err = cl).
Proof.
  unfold clientFromResolution. split_and!.
  - destruct err as [e|]; [discriminate|].
    destruct (TransformPtr (ptr_val obj) transform) as [out|e]; [|discriminate].
    destruct (Ptr_Client out (ptr_caps obj)); discriminate.
  - intros e ->. reflexivity.
  - intros i cl -> Ht Hcl Hnn. rewrite Ht. simpl. rewrite Hcl. simpl.
    destruct cl; try reflexivity. contradiction.
Qed.

Lemma clientFromResolution_never_nil_witness :
  clientFromResolution [mkOp 1]
    (mkPtr (PStruct [PNull; PInterface 0]) [LocalClient 9]) None = LocalClient 9.
Proof.
  destruct (clientFromResolution_never_nil [mkOp 1]
              (mkPtr (PStruct [PNull; PInterface 0]) [LocalClient 9]) None)
    as (_ & _ & H).
  apply (H 0 (LocalClient 9)); [reflexivity | reflexivity | reflexivity | discriminate].
Defined.

(** ** Inbound cap tables *)

Lemma desc_resolves_core_iff c c' d :
  populate_core c' = populate_core c -> desc_resolves c' d <-> desc_resolves c d.
Proof.
  intros H. split; apply desc_resolves_core; congruence.
Qed.

Lemma addImport_refs id' id c c' cl :
  addImport id' c = Done cl c' ->
  import_refs id c' = (import_refs id c + if bool_decide (id' = id) then 1 else 0)%Z.
Proof.
  unfold addImport. unfold_M. intros H. injection H as _ <-.
  unfold import_refs. simpl.
  destruct (bool_decide_reflect (id' = id)) as [->|Hne].
  - rewrite lookup_insert_eq. simpl. destruct (imports c !! id); reflexivity.
  - rewrite lookup_insert_ne by exact Hne. lia.
Qed.

(** The loop of [populateMessageCapTable], descriptor by descriptor. *)
Lemma populate_loop_spec ctab : forall caps c,
  exists caps' err c',
    populate_loop ctab caps c = Done (caps', err) c' /\
    populate_core c' = populate_core c /\
    (err = None <-> Forall (desc_resolves c) ctab) /\
    (err = None ->
     length caps' = (length caps + length ctab)%nat /\
     forall id, import_refs id c' = (import_refs id c + sender_refs id ctab)%Z).
Proof.
  induction ctab as [|d rest IH]; intros caps c.
  - exists caps, None, c. split_and!; try reflexivity.
    + split; [constructor | reflexivity].
    + intros _. split; [simpl; lia | intros id; simpl; lia].
  - assert (Hnext : forall caps1 c1 (k : N -> Z),
      populate_core c1 = populate_core c ->
      desc_resolves c d ->
      (forall id, import_refs id c1 = (import_refs id c + k id)%Z) ->
      (forall id, sender_refs id (d :: rest) = (k id + sender_refs id rest)%Z) ->
      length caps1 = S (length caps) ->
      exists caps' err c',
        populate_loop rest caps1 c1 = Done (caps', err) c' /\
        populate_core c' = populate_core c /\
        (err = None <-> Forall (desc_resolves c) (d :: rest)) /\
        (err = None ->
         length caps' = (length caps + length (d :: rest))%nat /\
         forall id, import_refs id c' = (import_refs id c + sender_refs id (d :: rest))%Z)).
    { intros caps1 c1 k Hc1 Hd Hk Hs Hlen.
      destruct (IH caps1 c1) as (caps' & err & c' & Hrun & Hc' & Hiff & Hok).
      exists caps', err, c'. split_and!; [exact Hrun | congruence | |].
      - rewrite Hiff. split.
        + intros Hall. constructor; [exact Hd|].
          eapply Forall_impl; [exact Hall|]. intros d'.
          apply (desc_resolves_core_iff c c1 d' Hc1).
        + intros Hall. inversion Hall; subst.
          eapply Forall_impl; [eassumption|]. intros d'.
          apply (desc_resolves_core_iff c c1 d' Hc1).
      - intros He. destruct (Hok He) as [Hl Hr]. split; [simpl; lia|].
        intros id. rewrite Hr, Hk, Hs. lia. }
    assert (Hfail : forall e,
      ~ desc_resolves c d ->
      exists caps' err c',
        Done (A := list Client * option error) (caps, Some e) c = Done (caps', err) c' /\
        populate_core c' = populate_core c /\
        (err = None <-> Forall (desc_resolves c) (d :: rest)) /\
        (err = None ->
         length caps' = (length caps + length (d :: rest))%nat /\
         forall id, import_refs id c' = (import_refs id c + sender_refs id (d :: rest))%Z)).
    { intros e Hnot. exists caps, (Some e), c. split_and!; try reflexivity.
      - split; [discriminate|]. intros Hall. inversion Hall; subst. contradiction.
      - discriminate. }
    assert (Hlen1 : forall x : Client, length (caps ++ [x]) = S (length caps))
      by (intros x; rewrite length_app; simpl; lia).
    destruct d as [|id'|id'|id'|[pa|err]|w]; simpl populate_loop.
    + apply (Hnext _ c (fun _ => 0%Z));
        [reflexivity | exact Logic.I | intros; lia | intros; simpl; lia | apply Hlen1].
    + destruct (addImport_frame id' c) as (c1 & H1 & Hc1).
      rewrite (bind_done _ _ _ _ _ H1).
      apply (Hnext _ c1 (fun id => if bool_decide (id' = id) then 1 else 0)%Z);
        [exact Hc1 | exact Logic.I | | intros; reflexivity | apply Hlen1].
      intros id. apply (addImport_refs _ _ _ _ _ H1).
    + destruct (addImport_frame id' c) as (c1 & H1 & Hc1).
      rewrite (bind_done _ _ _ _ _ H1).
      apply (Hnext _ c1 (fun id => if bool_decide (id' = id) then 1 else 0)%Z);
        [exact Hc1 | exact Logic.I | | intros; reflexivity | apply Hlen1].
      intros id. apply (addImport_refs _ _ _ _ _ H1).
    + unfold bind at 1, gets at 1.
      destruct (findExport id' c) as [e|] eqn:He.
      * apply (Hnext _ c (fun _ => 0%Z));
          [reflexivity | | intros; lia | intros; simpl; lia | apply Hlen1].
        cbn [desc_resolves]. rewrite He. eauto.
      * apply Hfail. cbn [desc_resolves]. rewrite He. intros [x Hx]. discriminate.
    + unfold bind at 1, gets at 1.
      destruct (answers c !! pa_QuestionId pa) as [a|] eqn:Ha.
      * destruct (pa_Transform pa) as [ops|err] eqn:Hops.
        -- apply (Hnext _ c (fun _ => 0%Z));
             [reflexivity | | intros; lia | intros; simpl; lia | apply Hlen1].
           cbn [desc_resolves]. rewrite Ha, Hops. eauto.
        -- apply Hfail. cbn [desc_resolves]. rewrite Hops.
           intros [_ [ops Hx]]. discriminate.
      * apply Hfail. cbn [desc_resolves]. rewrite Ha. intros [[x Hx] _]. discriminate.
    + apply Hfail. cbn [desc_resolves]. auto.
    + unfold bind, logf, modify, ret.
      exists caps, (Some errUnimplemented), (set_log (log c ++ [LogUnknownCap w]) c).
      split_and!; try reflexivity.
      * split; [discriminate|]. intros Hall. inversion Hall; subst. contradiction.
      * discriminate.
Qed.

(** ** Returns, by variant *)

(** The terminal transitions, on any question: the connection is
    touched in the question store only, and the question ends up
    [settled]. *)
Lemma question_fulfill_at r obj q c :
  qheap c !! r = Some q ->
  exists c', question_fulfill r obj c = Done tt c' /\
    out c' = out c /\ mgr_err c' = mgr_err c /\ log c' = log c /\
    imports c' = imports c /\
    qheap c' !! r = Some (settled q questionResolved (Some obj) (q_err q)).
Proof.
  intros Hq. unfold settled.
  destruct (decide (q_state q = questionInProgress)) as [Hst|Hst].
  - eexists. split; [apply (question_fulfill_pending _ _ _ _ Hq Hst)|].
    rewrite Hst. split_and!; try reflexivity.
    simpl. apply list_lookup_insert_eq. eapply lookup_lt_Some, Hq.
  - exists c. split; [apply (question_fulfill_settled _ _ _ _ Hq Hst)|].
    split_and!; try reflexivity.
    rewrite Hq. destruct (q_state q); [congruence | reflexivity | reflexivity].
Qed.

Lemma question_reject_at r state err q c :
  qheap c !! r = Some q ->
  exists b c', question_reject r state err c = Done b c' /\
    out c' = out c /\ mgr_err c' = mgr_err c /\ log c' = log c /\
    imports c' = imports c /\
    qheap c' !! r = Some (settled q state (q_obj q) (Some err)).
Proof.
  intros Hq. unfold settled.
  destruct (decide (q_state q = questionInProgress)) as [Hst|Hst].
  - eexists _, _. split; [apply (question_reject_pending _ _ _ _ _ Hq Hst)|].
    rewrite Hst. split_and!; try reflexivity.
    simpl. apply list_lookup_insert_eq. eapply lookup_lt_Some, Hq.
  - exists false, c. split; [apply (question_reject_settled _ _ _ _ _ Hq Hst)|].
    split_and!; try reflexivity.
    rewrite Hq. destruct (q_state q); [congruence | reflexivity | reflexivity].
Qed.

(** The clients of a cap table depend on the exports and the answers
    only. *)
Lemma clients_of_core c c' ctab :
  populate_core c' = populate_core c ->
  clients_of c' ctab = clients_of c ctab.
Proof.
  intros Hc. unfold populate_core in Hc.
  injection Hc as _ _ _ _ _ _ _ _ _ Hexp _ _ _ Hans _ _.
  induction ctab as [|d rest IH]; [reflexivity|].
  simpl. rewrite IH. f_equal.
  destruct d as [|id|id|id|[pa|err]|w]; simpl; try reflexivity.
  - unfold findExport. rewrite Hexp. reflexivity.
  - rewrite Hans. reflexivity.
Qed.

(** What [populateMessageCapTable] makes of a cap table: when every
    descriptor has a client, no error and these clients, in order,
    after the ones the message holds; otherwise an error. *)
Lemma populate_loop_outcome ctab : forall caps c,
  exists caps' err c',
    populate_loop ctab caps c = Done (caps', err) c' /\
    populate_core c' = populate_core c /\
    match clients_of c ctab with
    | Some cls => err = None /\ caps' = caps ++ cls
    | None => err <> None
    end.
Proof.
  induction ctab as [|d rest IH]; intros caps c.
  - exists caps, None, c. simpl. rewrite app_nil_r. split_and!; reflexivity.
  - assert (Hnext : forall cl c1,
      populate_core c1 = populate_core c ->
      client_of_desc c d = Some cl ->
      exists caps' err c',
        populate_loop rest (caps ++ [cl]) c1 = Done (caps', err) c' /\
        populate_core c' = populate_core c /\
        match clients_of c (d :: rest) with
        | Some cls => err = None /\ caps' = caps ++ cls
        | None => err <> None
        end).
    { intros cl c1 Hc1 Hd.
      destruct (IH (caps ++ [cl]) c1) as (caps' & err & c' & Hrun & Hc' & Hcase).
      exists caps', err, c'. split_and!; [exact Hrun | congruence |].
      rewrite (clients_of_core _ _ rest Hc1) in Hcase.
      simpl. rewrite Hd.
      destruct (clients_of c rest) as [cls|]; [|exact Hcase].
      destruct Hcase as [-> ->]. rewrite <- app_assoc. split; reflexivity. }
    destruct d as [|id|id|id|[pa|err]|w]; simpl populate_loop.
    + apply (Hnext NilClient c); reflexivity.
    + destruct (addImport_frame id c) as (c1 & H1 & Hc1).
      destruct (Hnext (ImportClient id) c1 Hc1 eq_refl)
        as (caps' & err & c' & Hrun & Hrest).
      exists caps', err, c'. split; [step H1; exact Hrun | exact Hrest].
    + destruct (addImport_frame id c) as (c1 & H1 & Hc1).
      destruct (Hnext (ImportClient id) c1 Hc1 eq_refl)
        as (caps' & err & c' & Hrun & Hrest).
      exists caps', err, c'. split; [step H1; exact Hrun | exact Hrest].
    + unfold bind, gets.
      destruct (findExport id c) as [e|] eqn:He.
      * apply (Hnext (e_client e) c); [reflexivity | simpl; rewrite He; reflexivity].
      * eexists _, _, c. split_and!; [reflexivity | reflexivity |].
        simpl. rewrite He. discriminate.
    + unfold bind, gets.
      destruct (answers c !! pa_QuestionId pa) as [a|] eqn:Ha.
      * destruct (pa_Transform pa) as [ops|err] eqn:Hops.
        -- apply (Hnext (pipelineClient a (promisedAnswerOpsToTransform ops)) c);
             [reflexivity | simpl; rewrite Ha, Hops; reflexivity].
        -- eexists _, _, c. split_and!; [reflexivity | reflexivity |].
           simpl. rewrite Ha, Hops. discriminate.
      * eexists _, _, c. split_and!; [reflexivity | reflexivity |].
        simpl. rewrite Ha. discriminate.
    + eexists _, _, c. split_and!; [reflexivity | reflexivity | discriminate].
    + unfold logf, modify, bind, ret.
      eexists _, _, _. split_and!; [reflexivity | reflexivity | discriminate].
Qed.

(** C4, as amended: a return for a known question that is not
    canceled.  [c1] is the connection once the question is popped and
    its param caps are released.  Then, by variant.  Results that
    decode, with a cap table that decodes and whose descriptors all
    have a client on [c1], and a content that decodes: the cap table is
    populated with these clients, one per descriptor and in order (each
    capability of the sender costing its import one reference), the
    question is fulfilled with the content and the clients, and the
    finish, if one is sent, has [releaseResultCaps = false].  An
    exception that decodes: the question is rejected with the exception
    (wrapped with the method, or as a bootstrap error), and the finish,
    if one is sent, has [releaseResultCaps = true].  Canceled: the
    question is rejected with "receiver reported canceled" and nothing
    is sent.  Any other variant: the message is echoed as
    unimplemented, the question store is left alone and no finish is
    sent.  Results or an exception that do not decode, a cap table or a
    content that does not decode, a descriptor without a client: the
    handler ends with an error, the question is neither fulfilled nor
    rejected and no finish is sent.  A finish is sent on a running
    connection; a question that has left the pending state stays as it
    is. *)
Theorem return_dispatch c m r q qs :
  Message_Return m = Ok r ->
  get_slot (N.to_nat (ret_AnswerId r)) (questions c) = Some q ->
  qheap c !! q = Some qs ->
  q_state qs <> questionCanceled ->
  exists c1,
    (popQuestion (ret_AnswerId r) ;;
     (if ret_ReleaseParamCaps r
      then forM_ (q_paramCaps qs) (fun id => releaseExport id 1)
      else ret tt)) c = Done tt c1 /\
    match ret_body r with
    | Return_results (Ok results) =>
      match pl_CapTable results with
      | Ok ctab =>
        match clients_of c1 ctab, pl_Content results with
        | Some caps, Ok content =>
          exists c',
            handleReturnMessage m c = Done None c' /\
            qheap c' !! q =
              Some (settled qs questionResolved (Some (mkPtr content caps)) (q_err qs)) /\
            (forall id,
               import_refs id c' = (import_refs id c1 + sender_refs id ctab)%Z) /\
            finish_sent c1 c' (ret_AnswerId r) false
        | _, _ => return_unsettled m c c1
        end
      | Fail _ => return_unsettled m c c1
      end
    | Return_results (Fail _) => return_unsettled m c c1
    | Return_exception (Ok exc) =>
      exists c',
        handleReturnMessage m c = Done None c' /\
        qheap c' !! q =
          Some (settled qs questionResolved (q_obj qs)
                  (Some match q_method qs with
                        | Some meth => MethodError meth (errException (exc_Reason exc))
                        | None => bootstrapError (errException (exc_Reason exc))
                        end)) /\
        finish_sent c1 c' (ret_AnswerId r) true
    | Return_exception (Fail _) => return_unsettled m c c1
    | Return_canceled =>
      exists c',
        handleReturnMessage m c = Done None c' /\
        qheap c' !! q =
          Some (settled qs questionResolved (q_obj qs)
                  (Some (questionError (ret_AnswerId r) (q_method qs)
                           errReceiverCanceled))) /\
        Error (questionError (ret_AnswerId r) (q_method qs) errReceiverCanceled)
        = "receiver reported canceled"%string /\
        out c' = out c1 /\
        mgr_err c' = mgr_err c1
    | Return_other _ =>
      exists c',
        handleReturnMessage m c = Done (Some errUnimplemented) c' /\
        qheap c' = qheap c /\
        (out c' = out c1 \/ out c' = out c1 ++ [newUnimplementedMessage m]) /\
        (mgr_err c1 = None ->
         out c' = out c1 ++ [newUnimplementedMessage m] /\ mgr_err c' = None)
    end.
Proof.
  intros Hm Hslot Hq Hst.
  destruct (return_prefix c (ret_AnswerId r) (ret_ReleaseParamCaps r) q qs Hslot Hq)
    as (c1 & Hpre & Hheap & _).
  exists c1. split; [exact Hpre|].
  pose proof (popQuestion_found _ _ _ Hslot) as Hpop.
  rewrite (bind_done _ _ _ _ _ Hpop) in Hpre.
  assert (Hq1 : qheap c1 !! q = Some qs) by (rewrite Hheap; exact Hq).
  assert (Hnc : questionState_eqb (q_state qs) questionCanceled = false).
  { destruct (q_state qs); try reflexivity. congruence. }
  (* the handler, from the dispatch on *)
  assert (Hhead : forall k : M (option error),
    (forall body, ret_body r = body ->
       match body with
       | Return_results (Fail err) => ret (Some err)
       | Return_results (Ok results) =>
         let* pc := populateMessageCapTable results in
         match snd pc with
         | Some err =>
           if is_errUnimplemented err then
             sendMessage (newUnimplementedMessage m) ;;
             ret (Some errUnimplemented)
           else
             abort err ;;
             ret (Some err)
         | None =>
           match pl_Content results with
           | Fail err => ret (Some err)
           | Ok content =>
             question_fulfill q (mkPtr content (fst pc)) ;;
             sendMessage (newFinishMessage (ret_AnswerId r) false) ;;
             ret None
           end
         end
       | Return_exception (Fail err) => ret (Some err)
       | Return_exception (Ok exc) =>
         question_reject q questionResolved
           match q_method qs with
           | Some meth => MethodError meth (errException (exc_Reason exc))
           | None => bootstrapError (errException (exc_Reason exc))
           end ;;
         sendMessage (newFinishMessage (ret_AnswerId r) true) ;;
         ret None
       | Return_canceled =>
         logf (LogQuestionError
                 (questionError (ret_AnswerId r) (q_method qs) errReceiverCanceled)) ;;
         question_reject q questionResolved
           (questionError (ret_AnswerId r) (q_method qs) errReceiverCanceled) ;;
         ret None
       | Return_other _ =>
         sendMessage (newUnimplementedMessage m) ;;
         ret (Some errUnimplemented)
       end = k) ->
    handleReturnMessage m c = k c1).
  { intros k Hk. unfold handleReturnMessage. rewrite Hm.
    step Hpop.
    step_by ltac:(apply question_at_found; exact Hq).
    step Hpre.
    step_by ltac:(apply question_at_found; exact Hq1).
    rewrite Hnc. rewrite <- (Hk (ret_body r) eq_refl). reflexivity. }
  (* a return that ends with an error right away *)
  assert (Hfail : forall err, handleReturnMessage m c = Done (Some err) c1 ->
                              return_unsettled m c c1).
  { intros err H. exists err, c1. split_and!; [exact H | exact Hheap |].
    exists []. rewrite app_nil_r. split; [reflexivity | constructor]. }
  (* a return whose cap table gives an error *)
  assert (Hcaperr : forall results caps pe c2,
    ret_body r = Return_results (Ok results) ->
    populateMessageCapTable results c1 = Done (caps, Some pe) c2 ->
    return_unsettled m c c1).
  { intros results caps pe c2 Hbody Hpopulate.
    destruct (populate_keeps _ _ _ _ Hpopulate) as (Hm2 & Ho2 & Hh2 & _).
    destruct (is_errUnimplemented pe) eqn:Hun.
    - destruct (sendMessage (newUnimplementedMessage m) c2) as [x c3| |] eqn:Hs;
        try (unfold sendMessage in Hs; destruct (mgr_err c2); discriminate Hs).
      destruct (sendMessage_effect _ _ _ _ Hs) as (Hh3 & _ & Ho3).
      exists errUnimplemented, c3. split_and!.
      + erewrite Hhead; [|intros body <-; rewrite Hbody; reflexivity].
        step Hpopulate. cbn [fst snd]. rewrite Hun. step Hs. reflexivity.
      + congruence.
      + destruct Ho3 as [Ho3|Ho3].
        * exists []. rewrite app_nil_r. split; [congruence | constructor].
        * exists [newUnimplementedMessage m]. split; [congruence|].
          repeat constructor.
    - destruct (abort pe c2) as [[] c3| |] eqn:Hs;
        try (unfold abort, sendMessage, manager_shutdown, bind, ret in Hs;
             destruct (mgr_err c2) eqn:Hmm; simpl in Hs; rewrite ?Hmm in Hs;
             discriminate Hs).
      destruct (abort_effect _ _ _ Hs) as (Hh3 & _ & Ho3).
      exists pe, c3. split_and!.
      + erewrite Hhead; [|intros body <-; rewrite Hbody; reflexivity].
        step Hpopulate. cbn [fst snd]. rewrite Hun. step Hs. reflexivity.
      + congruence.
      + destruct Ho3 as [Ho3|Ho3].
        * exists []. rewrite app_nil_r. split; [congruence | constructor].
        * exists [newAbortMessage pe]. split; [congruence|].
          repeat constructor. }
  (* a finish after a terminal transition *)
  assert (Hfin : forall c3 flag,
    out c3 = out c1 -> mgr_err c3 = mgr_err c1 ->
    exists r' c', sendMessage (newFinishMessage (ret_AnswerId r) flag) c3 = Done r' c' /\
      qheap c' = qheap c3 /\ imports c' = imports c3 /\
      finish_sent c1 c' (ret_AnswerId r) flag).
  { intros c3 flag Ho3 Hm3. unfold sendMessage, finish_sent.
    destruct (mgr_err c3) as [e|] eqn:He.
    - eexists _, _. split; [reflexivity|]. split; [reflexivity|].
      split; [reflexivity|].
      split; [left; exact Ho3 | intros Hrun; congruence].
    - eexists _, _. split; [reflexivity|]. split; [reflexivity|].
      split; [reflexivity|]. simpl.
      split; [right; congruence | intros _; split; [congruence | exact He]]. }
  destruct (ret_body r) as [[results|err]|[exc|err]| |w] eqn:Hbody.
  - destruct (pl_CapTable results) as [ctab|err] eqn:Htab.
    + destruct (populate_loop_outcome ctab [] c1)
        as (caps & perr & c2 & Hloop & Hc2 & Hcase).
      assert (Hpopulate : populateMessageCapTable results c1 = Done (caps, perr) c2).
      { unfold populateMessageCapTable. rewrite Htab. exact Hloop. }
      destruct (clients_of c1 ctab) as [cls|].
      * destruct Hcase as [-> ->]. simpl in Hpopulate.
        destruct (populate_keeps _ _ _ _ Hpopulate) as (Hm2 & Ho2 & Hh2 & _).
        destruct (pl_Content results) as [content|err] eqn:Hcontent.
        -- assert (Hq2 : qheap c2 !! q = Some qs) by (rewrite Hh2; exact Hq1).
           destruct (question_fulfill_at q (mkPtr content cls) qs c2 Hq2)
             as (c3 & Hful & Ho3 & Hm3 & _ & Hi3 & Hq3).
           destruct (Hfin c3 false ltac:(congruence) ltac:(congruence))
             as (r' & c' & Hs & Hh' & Hi' & Hsent).
           exists c'. split_and!.
           ++ erewrite Hhead; [|intros body <-; reflexivity].
              step Hpopulate. cbn [fst snd]. rewrite Hcontent. cbv beta iota.
              step Hful. step Hs. reflexivity.
           ++ rewrite Hh'. exact Hq3.
           ++ intros id.
              destruct (populate_loop_spec ctab [] c1)
                as (caps0 & err0 & c0 & Hloop0 & _ & _ & Hrefs).
              rewrite Hloop in Hloop0. injection Hloop0 as <- <- <-.
              destruct (Hrefs eq_refl) as [_ Hrefs0].
              unfold import_refs in Hrefs0 |- *. rewrite Hi', Hi3. apply Hrefs0.
           ++ exact Hsent.
        -- exists err, c2. split_and!.
           ++ erewrite Hhead; [|intros body <-; reflexivity].
              step Hpopulate. cbn [fst snd]. rewrite Hcontent. reflexivity.
           ++ congruence.
           ++ exists []. rewrite app_nil_r. split; [congruence | constructor].
      * destruct perr as [pe|]; [|congruence].
        apply (Hcaperr results caps pe c2 eq_refl Hpopulate).
    + apply (Hcaperr results [] err c1 eq_refl).
      unfold populateMessageCapTable. rewrite Htab. reflexivity.
  - apply (Hfail err). erewrite Hhead; [|intros body <-; reflexivity]. reflexivity.
  - destruct (question_reject_at q questionResolved
                (match q_method qs with
                 | Some meth => MethodError meth (errException (exc_Reason exc))
                 | None => bootstrapError (errException (exc_Reason exc))
                 end) qs c1 Hq1)
      as (b & c3 & Hrej & Ho3 & Hm3 & _ & _ & Hq3).
    destruct (Hfin c3 true Ho3 Hm3) as (r' & c' & Hs & Hh' & _ & Hsent).
    exists c'. split_and!.
    + erewrite Hhead; [|intros body <-; reflexivity].
      step Hrej. step Hs. reflexivity.
    + rewrite Hh'. exact Hq3.
    + exact Hsent.
  - apply (Hfail err). erewrite Hhead; [|intros body <-; reflexivity]. reflexivity.
  - set (e := questionError (ret_AnswerId r) (q_method qs) errReceiverCanceled).
    set (c2 := set_log (log c1 ++ [LogQuestionError e]) c1).
    assert (Hq2 : qheap c2 !! q = Some qs) by exact Hq1.
    destruct (question_reject_at q questionResolved e qs c2 Hq2)
      as (b & c3 & Hrej & Ho3 & Hm3 & _ & _ & Hq3).
    exists c3. split_and!.
    + erewrite Hhead; [|intros body <-; reflexivity].
      step_by ltac:(unfold logf, modify; reflexivity).
      fold e. fold c2. step Hrej. reflexivity.
    + exact Hq3.
    + reflexivity.
    + rewrite Ho3. reflexivity.
    + rewrite Hm3. reflexivity.
  - destruct (sendMessage (newUnimplementedMessage m) c1) as [x c3| |] eqn:Hs;
      try (unfold sendMessage in Hs; destruct (mgr_err c1); discriminate Hs).
    destruct (sendMessage_effect _ _ _ _ Hs) as (Hh3 & _ & Ho3).
    exists c3. split_and!.
    + erewrite Hhead; [|intros body <-; reflexivity].
      step Hs. reflexivity.
    + congruence.
    + exact Ho3.
    + intros Hrun. rewrite (sendMessage_running _ _ Hrun) in Hs.
      injection Hs as _ <-. split; [reflexivity | exact Hrun].
Qed.

Lemma return_dispatch_witness :
  exists c',
    handleReturnMessage return_results_0 conn_pending_bootstrap = Done None c' /\
    qheap c' !! 0%nat =
      Some (mkQuestion 0 None [] questionResolved
              (Some (mkPtr (PInterface 0) [LocalClient 7; ImportClient 5])) None true) /\
    out c' = [newBootstrapMessage 0; newFinishMessage 0 false].
Proof.
  destruct (return_dispatch conn_pending_bootstrap return_results_0
    (mkReturn 0 false
       (Return_results (Ok (mkPayload (Ok (PInterface 0))
          (Ok [CD_receiverHosted 0; CD_senderHosted 5])))))
    0%nat
    (mkQuestion 0 None [] questionInProgress None None true)
    eq_refl eq_refl eq_refl ltac:(discriminate)) as (c1 & Hpre & H).
  vm_compute in Hpre. injection Hpre as <-.
  cbn [ret_body pl_CapTable pl_Content] in H.
  change (clients_of _ [CD_receiverHosted 0; CD_senderHosted 5])
    with (Some [LocalClient 7; ImportClient 5]) in H.
  cbv beta iota in H.
  destruct H as (c' & Hrun & Hq & _ & _ & Hsent).
  destruct (Hsent eq_refl) as [Hout _].
  exists c'. split_and!; [exact Hrun | exact Hq | exact Hout].
Defined.

(** C4, as stated, fails: the results variant does not always fulfill
    a known question that is not canceled.  On the connection with a
    pending bootstrap, a return whose results do not decode leaves the
    question pending; a return whose results name an export this vat
    never made leaves it pending too and aborts the connection.  In
    both cases no finish is sent. *)
Lemma return_results_not_always_fulfilled :
  qheap conn_pending_bootstrap !! 0%nat
  = Some (mkQuestion 0 None [] questionInProgress None None true) /\
  (exists c',
     handleReturnMessage return_undecodable_results conn_pending_bootstrap
     = Done (Some (errDecode "results")) c' /\
     qheap c' !! 0%nat = Some (mkQuestion 0 None [] questionInProgress None None true) /\
     out c' = out conn_pending_bootstrap) /\
  (exists c',
     handleReturnMessage return_results_unknown_export conn_pending_bootstrap
     = Done (Some (errCapTableExport 9)) c' /\
     qheap c' !! 0%nat = Some (mkQuestion 0 None [] questionInProgress None None true) /\
     out c' = out conn_pending_bootstrap ++ [newAbortMessage (errCapTableExport 9)] /\
     mgr_err c' = Some (errCapTableExport 9)).
Proof.
  split; [reflexivity|]. split.
  - eexists. split; [vm_compute; reflexivity|]. split; reflexivity.
  - eexists. split; [vm_compute; reflexivity|]. split_and!; reflexivity.
Qed.

(** X4: [populateMessageCapTable] succeeds exactly when every descriptor
    of the cap table resolves on the connection (no unknown export, no
    unknown answer, no descriptor that fails to decode or is of an
    unknown kind); then the message's cap table has one client per
    descriptor. *)
Theorem populate_succeeds_iff_resolves payload ctab c :
  pl_CapTable payload = Ok ctab ->
  exists caps err c',
    populateMessageCapTable payload c = Done (caps, err) c' /\
    (err = None <-> Forall (desc_resolves c) ctab) /\
    (err = None -> length caps = length ctab).
Proof.
  intros Htab. unfold populateMessageCapTable. rewrite Htab.
  destruct (populate_loop_spec ctab [] c) as (caps & err & c' & Hrun & _ & Hiff & Hok).
  exists caps, err, c'. split_and!; [exact Hrun | exact Hiff |].
  intros He. apply Hok in He as [Hlen _]. exact Hlen.
Qed.

Lemma populate_succeeds_iff_resolves_witness :
  exists caps c',
    populateMessageCapTable
      (mkPayload (Ok PNull) (Ok [CD_none; CD_senderHosted 5; CD_senderPromise 5]))
      conn_bootstrapped = Done (caps, None) c' /\
    length caps = 3%nat.
Proof.
  destruct (populate_succeeds_iff_resolves
              (mkPayload (Ok PNull) (Ok [CD_none; CD_senderHosted 5; CD_senderPromise 5]))
              [CD_none; CD_senderHosted 5; CD_senderPromise 5]
              conn_bootstrapped eq_refl)
    as (caps & err & c' & Hrun & Hiff & Hlen).
  assert (He : err = None) by (apply Hiff; repeat constructor).
  subst err. exists caps, c'. split; [exact Hrun | apply Hlen; reflexivity].
Defined.

(** X5: reference counting of imports.  When the cap table populates,
    the references held on each import grow by the number of
    [senderHosted] and [senderPromise] descriptors that name it: one
    reference per descriptor, also when one capability is named more
    than once. *)
Theorem populate_counts_import_refs payload ctab c caps c' :
  pl_CapTable payload = Ok ctab ->
  populateMessageCapTable payload c = Done (caps, None) c' ->
  forall id, import_refs id c' = (import_refs id c + sender_refs id ctab)%Z.
Proof.
  intros Htab Hrun. unfold populateMessageCapTable in Hrun. rewrite Htab in Hrun.
  destruct (populate_loop_spec ctab [] c) as (caps1 & err & c1 & Hrun1 & _ & _ & Hok).
  rewrite Hrun in Hrun1. injection Hrun1 as <- <- <-.
  apply Hok. reflexivity.
Qed.

Lemma populate_counts_import_refs_witness :
  import_refs 5
    (after (populateMessageCapTable
              (mkPayload (Ok PNull) (Ok [CD_none; CD_senderHosted 5; CD_senderPromise 5])))
       conn_bootstrapped) = 2%Z.
Proof.
  exact (populate_counts_import_refs
           (mkPayload (Ok PNull) (Ok [CD_none; CD_senderHosted 5; CD_senderPromise 5]))
           [CD_none; CD_senderHosted 5; CD_senderPromise 5]
           conn_bootstrapped
           [NilClient; ImportClient 5; ImportClient 5]
           (after (populateMessageCapTable
                     (mkPayload (Ok PNull)
                        (Ok [CD_none; CD_senderHosted 5; CD_senderPromise 5])))
              conn_bootstrapped)
           eq_refl eq_refl 5).
Defined.

(** X6: a [senderPromise] descriptor is handled exactly as the
    [senderHosted] descriptor of the same ID: reading every promise as
    hosted changes neither the clients, nor the error, nor the
    connection. *)
Theorem populate_promise_as_hosted content ctab c :
  populateMessageCapTable (mkPayload content (Ok (map promise_as_hosted ctab))) c
  = populateMessageCapTable (mkPayload content (Ok ctab)) c.
Proof.
  unfold populateMessageCapTable. simpl.
  generalize (@nil Client) as caps. revert c.
  induction ctab as [|d rest IH]; intros c caps; [reflexivity|].
  destruct d as [|id|id|id|[pa|err]|w]; simpl; try reflexivity;
    try apply IH; unfold bind.
  - unfold gets. destruct (findExport id c); auto.
  - unfold gets. destruct (answers c !! pa_QuestionId pa); auto.
    destruct (pa_Transform pa); auto.
Qed.

(** ** Outbound cap tables *)

Lemma makeCapTable_loop_shape msgtab : forall c t c',
  makeCapTable_loop msgtab c = Done t c' ->
  length t = length msgtab /\
  forall i, msgtab !! i = Some NilClient -> t !! i = Some CD_none.
Proof.
  induction msgtab as [|cl rest IH]; intros c t c' H; simpl in H.
  - injection H as <- <-. split; [reflexivity|]. intros i Hi. destruct i; discriminate.
  - unfold bind in H.
    destruct (match cl with NilClient => ret CD_none | _ => descriptorForClient cl end c)
      as [d c1| |] eqn:Hd; try discriminate.
    destruct (makeCapTable_loop rest c1) as [t1 c2| |] eqn:Hrest; try discriminate.
    injection H as <- <-.
    destruct (IH _ _ _ Hrest) as [Hlen Hnone].
    split; [simpl; congruence|].
    intros [|i] Hi; simpl in Hi |- *.
    + injection Hi as ->. injection Hd as <- _. reflexivity.
    + apply Hnone, Hi.
Qed.

(** X7: [makeCapTable] never returns an error and touches nothing but
    the export table and its ID pool.  When the descriptor list is
    allocated it has one descriptor per client of the message's cap
    table, and the descriptor of a nil client is [none]. *)
Theorem makeCapTable_shape alloc msgtab c :
  exists t c',
    makeCapTable alloc msgtab c = Done (t, None) c' /\
    export_core c' = export_core c /\
    (alloc = None ->
     length t = length msgtab /\
     forall i, msgtab !! i = Some NilClient -> t !! i = Some CD_none).
Proof.
  destruct (makeCapTable_frame alloc msgtab c) as (t & c' & Hrun & Hc & _).
  exists t, c'. split_and!; [exact Hrun | exact Hc |].
  intros ->. unfold makeCapTable in Hrun. unfold bind, ret in Hrun.
  destruct (makeCapTable_loop msgtab c) as [t1 c1| |] eqn:Hloop; try discriminate.
  injection Hrun as <- <-.
  apply (makeCapTable_loop_shape _ _ _ _ Hloop).
Qed.

Lemma makeCapTable_shape_witness :
  exists t c',
    makeCapTable None [LocalClient 3; NilClient] conn_bootstrapped = Done (t, None) c' /\
    length t = 2%nat /\ t !! 1%nat = Some CD_none.
Proof.
  destruct (makeCapTable_shape None [LocalClient 3; NilClient] conn_bootstrapped)
    as (t & c' & Hrun & _ & Hshape).
  destruct (Hshape eq_refl) as [Hlen Hnone].
  exists t, c'. split_and!; [exact Hrun | exact Hlen | apply Hnone; reflexivity].
Defined.

(** ** Returns *)

(** X8: a return for a question ID that is not in the table is refused
    with an error and changes nothing; handled as a message, it leaves
    one line in the log and nothing else. *)
Theorem return_for_unknown_question m r c :
  Message_Return m = Ok r ->
  get_slot (N.to_nat (ret_AnswerId r)) (questions c) = None ->
  handleReturnMessage m c = Done (Some (errUnknownQuestion (ret_AnswerId r))) c /\
  (mu_held c = false ->
   handleMessage (Msg_return (Ok r)) c =
   Done tt (set_log (log c ++ [LogErr "rpc: handle return:"
                                 (errUnknownQuestion (ret_AnswerId r))]) c)).
Proof.
  intros Hm Hslot.
  assert (Hh : forall m', Message_Return m' = Ok r ->
            handleReturnMessage m' c
            = Done (Some (errUnknownQuestion (ret_AnswerId r))) c).
  { intros m' Hm'. unfold handleReturnMessage, popQuestion, bind.
    rewrite Hm', Hslot. reflexivity. }
  split; [apply Hh, Hm|].
  intros Hmu. unfold handleMessage.
  step_by ltac:(unfold mu_Lock; rewrite Hmu; reflexivity).
  unfold bind. unfold handleReturnMessage, popQuestion, bind. simpl.
  rewrite Hslot. simpl. rewrite (unlock_lock _ Hmu). reflexivity.
Qed.

Lemma return_for_unknown_question_witness :
  handleReturnMessage return_results_0 conn_bootstrapped
  = Done (Some (errUnknownQuestion 0)) conn_bootstrapped.
Proof.
  exact (proj1 (return_for_unknown_question return_results_0
                  (mkReturn 0 false
                     (Return_results (Ok (mkPayload (Ok (PInterface 0))
                        (Ok [CD_receiverHosted 0; CD_senderHosted 5])))))
                  conn_bootstrapped eq_refl eq_refl)).
Defined.

(** X9: whatever a decoded return carries and however handling it ends
    (fulfilled, rejected, echoed as unimplemented, refused for a decode
    error, or aborting the connection), the handler returns and the
    question ID of the return is free afterwards: no question is left
    in its slot. *)
Theorem return_always_pops m r c :
  Message_Return m = Ok r ->
  conn_wf c ->
  exists err c',
    handleReturnMessage m c = Done err c' /\
    get_slot (N.to_nat (ret_AnswerId r)) (questions c') = None /\
    length (qheap c') = length (qheap c).
Proof.
  intros Hm Hwf.
  destruct (handleReturnMessage_runs m c Hwf) as (err & c' & Hrun & [F _]).
  exists err, c'. split_and!; [exact Hrun | | apply (fr_qheap _ _ F)].
  unfold handleReturnMessage in Hrun. rewrite Hm in Hrun.
  destruct (popQuestion_step (ret_AnswerId r) c) as (oq & c0 & Hpop & R0 & Hoq & Hnone).
  rewrite (bind_done _ _ _ _ _ Hpop) in Hrun.
  destruct (get_slot (N.to_nat (ret_AnswerId r)) (questions c')) as [r'|] eqn:Hs;
    [|reflexivity].
  exfalso.
  assert (Hfr : frame c0 c').
  { destruct oq as [q|].
    - assert (Hq : valid_question q c0).
      { apply (valid_question_stable q c); [|exact R0].
        apply (Hwf (N.to_nat (ret_AnswerId r))). symmetry. exact Hoq. }
      match type of Hrun with
      | ?prog c0 = _ => assert (Hrest : runs (valid_question q) prog)
      end.
      { runs_go (valid_question_stable q). }
      destruct (Hrest c0 Hq) as (a & c'' & Hrun' & [F' _]).
      rewrite Hrun in Hrun'. injection Hrun' as _ <-. exact F'.
    - injection Hrun as _ <-. apply frame_refl. }
  apply (fr_questions _ _ Hfr) in Hs. congruence.
Qed.

Lemma conn_wf_pending_bootstrap : conn_wf conn_pending_bootstrap.
Proof.
  intros [|[|i]] r H; try discriminate H.
  injection H as <-. simpl. lia.
Qed.

Lemma conn_wf_bootstrapped : conn_wf conn_bootstrapped.
Proof. intros [|i] r H; discriminate H. Qed.

Lemma return_always_pops_witness :
  exists err c',
    handleReturnMessage return_results_0 conn_pending_bootstrap = Done err c' /\
    get_slot 0 (questions c') = None.
Proof.
  destruct (return_always_pops return_results_0
              (mkReturn 0 false
                 (Return_results (Ok (mkPayload (Ok (PInterface 0))
                    (Ok [CD_receiverHosted 0; CD_senderHosted 5])))))
              conn_pending_bootstrap eq_refl conn_wf_pending_bootstrap)
    as (err & c' & Hrun & Hslot & _).
  exists err, c'. split; assumption.
Defined.

(** X10: when handling a return for a known question ends with an
    error (a decode error of the results, the exception or the content,
    an unimplemented variant or descriptor, a cap table that aborts the
    connection), the question has been popped but is neither fulfilled
    nor rejected, and no finish is sent for it. *)
Theorem return_error_leaves_question m r c q qs err c' :
  Message_Return m = Ok r ->
  get_slot (N.to_nat (ret_AnswerId r)) (questions c) = Some q ->
  qheap c !! q = Some qs ->
  handleReturnMessage m c = Done (Some err) c' ->
  qheap c' = qheap c /\
  get_slot (N.to_nat (ret_AnswerId r)) (questions c') = None /\
  exists extra, out c' = out c ++ extra /\ Forall (fun m' => is_finish m' = false) extra.
Proof.
  intros Hm Hslot Hq Hrun.
  destruct (return_prefix c (ret_AnswerId r) (ret_ReleaseParamCaps r) q qs Hslot Hq)
    as (c1 & Hpre & Hheap & _ & _ & _ & _ & _ & Hnone & (ex1 & Hout1 & Hab1) & _).
  assert (Hex1 : Forall (fun m' => is_finish m' = false) ex1).
  { eapply Forall_impl; [exact Hab1|]. intros [] Hx; try contradiction; reflexivity. }
  assert (Hdone : forall c2 extra,
            qheap c2 = qheap c1 -> questions c2 = questions c1 ->
            (out c2 = out c1 \/ out c2 = out c1 ++ [extra]) ->
            is_finish extra = false ->
            qheap c2 = qheap c /\
            get_slot (N.to_nat (ret_AnswerId r)) (questions c2) = None /\
            exists extra, out c2 = out c ++ extra /\
                          Forall (fun m' => is_finish m' = false) extra).
  { intros c2 extra Hh2 Hq2 Ho2 Hf2. split_and!; [congruence | congruence |].
    destruct Ho2 as [Ho2|Ho2].
    - exists ex1. split; [congruence | exact Hex1].
    - exists (ex1 ++ [extra]). rewrite Ho2, Hout1, app_assoc.
      split; [reflexivity | apply Forall_app; auto]. }
  pose proof (popQuestion_found _ _ _ Hslot) as Hpop.
  rewrite (bind_done _ _ _ _ _ Hpop) in Hpre.
  assert (Hq1 : qheap c1 !! q = Some qs) by (rewrite Hheap; exact Hq).
  unfold handleReturnMessage in Hrun. rewrite Hm in Hrun.
  rewrite (bind_done _ _ _ _ _ Hpop) in Hrun. cbv beta iota in Hrun.
  match type of Hpop with
  | _ = Done _ ?c0 =>
    assert (Hq0 : qheap c0 !! q = Some qs) by exact Hq;
    rewrite (bind_done _ _ _ _ _ (question_at_found _ _ _ Hq0)) in Hrun
  end.
  rewrite (bind_done _ _ _ _ _ Hpre) in Hrun.
  rewrite (bind_done _ _ _ _ _ (question_at_found _ _ _ Hq1)) in Hrun.
  cbv beta iota in Hrun.
  destruct (questionState_eqb (q_state qs) questionCanceled); [discriminate Hrun|].
  destruct (ret_body r) as [[results|e]|[exc|e]| |w].
  - destruct (populate_frame results c1) as ([caps perr] & c2 & Hpop2 & Hc2).
    destruct (populate_keeps _ _ _ _ Hpop2) as (_ & Ho2 & Hh2 & _ & _ & _ & Hqs2 & _).
    rewrite (bind_done _ _ _ _ _ Hpop2) in Hrun. cbn [fst snd] in Hrun.
    destruct perr as [pe|].
    + destruct (is_errUnimplemented pe).
      * unfold bind in Hrun.
        destruct (sendMessage _ c2) as [x c3| |] eqn:Hs; try discriminate.
        injection Hrun as _ <-.
        destruct (sendMessage_effect _ _ _ _ Hs) as (Hh3 & Hq3 & Ho3).
        apply (Hdone c3 (newUnimplementedMessage m));
          [congruence | congruence | destruct Ho3; [left | right]; congruence
          | reflexivity].
      * unfold bind in Hrun.
        destruct (abort pe c2) as [[] c3| |] eqn:Hs; try discriminate.
        injection Hrun as _ <-.
        destruct (abort_effect _ _ _ Hs) as (Hh3 & Hq3 & Ho3).
        apply (Hdone c3 (newAbortMessage pe));
          [congruence | congruence | destruct Ho3; [left | right]; congruence
          | reflexivity].
    + destruct (pl_Content results) as [content|e].
      * unfold bind in Hrun.
        destruct (question_fulfill _ _ c2) as [x c3| |]; try discriminate.
        destruct (sendMessage _ c3) as [y c4| |]; discriminate.
      * injection Hrun as _ <-.
        apply (Hdone c2 (newAbortMessage e)); auto.
  - injection Hrun as _ <-. apply (Hdone c1 (newAbortMessage e)); auto.
  - unfold bind in Hrun.
    destruct (question_reject _ _ _ c1) as [x c3| |]; try discriminate.
    destruct (sendMessage _ c3) as [y c4| |]; discriminate.
  - injection Hrun as _ <-. apply (Hdone c1 (newAbortMessage e)); auto.
  - unfold bind in Hrun.
    destruct (logf _ c1) as [x c3| |]; try discriminate.
    destruct (question_reject _ _ _ c3) as [y c4| |]; discriminate.
  - unfold bind in Hrun.
    destruct (sendMessage _ c1) as [x c3| |] eqn:Hs; try discriminate.
    injection Hrun as _ <-.
    destruct (sendMessage_effect _ _ _ _ Hs) as (Hh3 & Hq3 & Ho3).
    apply (Hdone c3 (newUnimplementedMessage m)); auto.
Qed.

Lemma return_error_leaves_question_witness :
  exists c',
    handleReturnMessage return_undecodable_results conn_pending_bootstrap
    = Done (Some (errDecode "results")) c' /\
    qheap c' = qheap conn_pending_bootstrap /\
    get_slot 0 (questions c') = None.
Proof.
  exists (after (handleReturnMessage return_undecodable_results) conn_pending_bootstrap).
  split; [reflexivity|].
  destruct (return_error_leaves_question return_undecodable_results
              (mkReturn 0 false (Return_results (Fail (errDecode "results"))))
              conn_pending_bootstrap 0%nat
              (mkQuestion 0 None [] questionInProgress None None true)
              (errDecode "results")
              (after (handleReturnMessage return_undecodable_results)
                 conn_pending_bootstrap)
              eq_refl eq_refl eq_refl eq_refl)
    as (Hheap & Hslot & _).
  split; assumption.
Defined.

(** ** Messages *)



(** X12: lock discipline of [handleMessage].  Started with the mutex
    free, every message that is handled to the end leaves the mutex
    free again, whatever the handler returned; the bootstrap factory
    and the transport are not touched. *)
Theorem handleMessage_releases_mutex m c c' :
  mu_held c = false ->
  conn_wf c ->
  handleMessage m c = Done tt c' ->
  mu_held c' = false /\
  mainFunc c' = mainFunc c /\
  tr_sent c' = tr_sent c /\
  tr_closed c' = tr_closed c.
Proof.
  intros Hmu Hwf Hrun.
  destruct (handleMessage_step m c Hmu Hwf)
    as [(c'' & Hrun' & F & _)|(f & why & _ & _ & Hp)]; [|congruence].
  rewrite Hrun in Hrun'. injection Hrun' as <-.
  destruct F. split_and!; congruence.
Qed.

Lemma handleMessage_releases_mutex_witness :
  mu_held (after (handleMessage call_unknown_export) conn_bootstrapped) = false.
Proof.
  exact (proj1 (handleMessage_releases_mutex call_unknown_export conn_bootstrapped
                  (after (handleMessage call_unknown_export) conn_bootstrapped)
                  eq_refl conn_wf_bootstrapped eq_refl)).
Defined.

(** X13: handling a message only appends.  What was in the outbound
    queue and in the log before is still there, in the same order, at
    the front; a terminal error that was set is not overwritten; no
    import is dropped and no question enters the table. *)
Theorem handleMessage_appends_only m c c' :
  mu_held c = false ->
  conn_wf c ->
  handleMessage m c = Done tt c' ->
  out c `prefix_of` out c' /\
  log c `prefix_of` log c' /\
  (forall e, mgr_err c = Some e -> mgr_err c' = Some e) /\
  (forall id, is_Some (imports c !! id) -> is_Some (imports c' !! id)) /\
  (forall i r, get_slot i (questions c') = Some r -> get_slot i (questions c) = Some r).
Proof.
  intros Hmu Hwf Hrun.
  destruct (handleMessage_step m c Hmu Hwf)
    as [(c'' & Hrun' & F & _)|(f & why & _ & _ & Hp)]; [|congruence].
  rewrite Hrun in Hrun'. injection Hrun' as <-.
  destruct F. split_and!; assumption.
Qed.

Lemma handleMessage_appends_only_witness :
  out conn_bootstrapped
  `prefix_of` out (after (handleMessage call_unknown_export) conn_bootstrapped).
Proof.
  exact (proj1 (handleMessage_appends_only call_unknown_export conn_bootstrapped
                  (after (handleMessage call_unknown_export) conn_bootstrapped)
                  eq_refl conn_wf_bootstrapped eq_refl)).
Defined.

(** X14: the answer table under [handleMessage].  A message other than
    a finish never removes an answer.  A finish that decodes and is
    handled to the end removes exactly the answer of its question ID,
    so that the same finish received again panics. *)
Theorem handleMessage_answers m c c' :
  mu_held c = false ->
  conn_wf c ->
  handleMessage m c = Done tt c' ->
  match m with
  | Msg_finish (Ok f) =>
    is_Some (answers c !! fin_QuestionId f) /\
    answers c' = delete (fin_QuestionId f) (answers c) /\
    exists why, handleMessage m c' = Panic why
  | _ => forall id, is_Some (answers c !! id) -> is_Some (answers c' !! id)
  end.
Proof.
  intros Hmu Hwf Hrun.
  destruct (handleMessage_step m c Hmu Hwf)
    as [(c'' & Hrun' & F & Hans)|(f & why & _ & _ & Hp)]; [|congruence].
  rewrite Hrun in Hrun'. injection Hrun' as <-.
  destruct m as [orig|x|x|[f|e]|x|x|x|x|w]; try exact Hans.
  destruct Hans as [Hknown Hdel]. split_and!; [exact Hknown | exact Hdel |].
  assert (Hmu' : mu_held c' = false) by (rewrite (fr_mu _ _ F); exact Hmu).
  assert (Hwf' : conn_wf c') by (eapply conn_wf_frame; eassumption).
  destruct (handleMessage_step (Msg_finish (Ok f)) c' Hmu' Hwf')
    as [(c2 & _ & _ & [[a Ha] _])|(f' & why & Hf & _ & Hp)].
  - rewrite Hdel, lookup_delete_eq in Ha. discriminate.
  - exists why. exact Hp.
Qed.

Lemma handleMessage_answers_witness :
  answers (after (handleMessage finish_0) conn_bootstrapped)
  = delete 0 (answers conn_bootstrapped) /\
  exists why,
    handleMessage finish_0 (after (handleMessage finish_0) conn_bootstrapped) = Panic why.
Proof.
  destruct (handleMessage_answers finish_0 conn_bootstrapped
              (after (handleMessage finish_0) conn_bootstrapped)
              eq_refl conn_wf_bootstrapped eq_refl) as (_ & Hdel & Hpanic).
  split; assumption.
Defined.

(** ** Calls whose parameters populate *)

Section PopulatedCall.

Variable c : Conn.
Variable m : Message.
Variable mcall : Call_msg.
Variable mt : MessageTarget.
Variable mparams : Payload.
Variable caps : list Client.
Variable c1 : Conn.

Hypothesis Hm : Message_Call m = Ok mcall.
Hypothesis Ht : call_Target mcall = Ok mt.
Hypothesis Hct : is_call_target mt = true.
Hypothesis Hp : call_Params_msg mcall = Ok mparams.
Hypothesis Hpop : populateMessageCapTable mparams c = Done (caps, None) c1.
Hypothesis Hrun : mgr_err c = None.

(** The handler up to the insertion of the answer. *)
Lemma call_reaches_insert :
  handleCallMessage m c =
  (let* oa := insertAnswer (call_QuestionId mcall) in
   match oa with
   | None => abort errQuestionReused ;; ret (Some errQuestionReused)
   | Some a =>
     match pl_Content mparams with
     | Fail err => ret (Some err)
     | Ok paramContent =>
       let cl := mkCall (mkMethod (call_InterfaceId mcall) (call_MethodId mcall))
                   (mkPtr (Ptr_Struct paramContent) caps) in
       let* rerr := routeCallMessage a mt cl in
       match rerr with
       | Some err => answer_reject a err
       | None => ret None
       end
     end
   end) c1.
Proof.
  unfold handleCallMessage. rewrite Hm, Ht, Hct, Hp. cbn [negb].
  step Hpop. reflexivity.
Qed.

(** X15: a call whose question ID is already an answer ID aborts the
    connection with "question ID reused" (a bootstrap with a reused ID
    only gets an exception back); the answer that holds the ID is left
    as it was. *)
Theorem call_with_reused_id_aborts a :
  answers c !! call_QuestionId mcall = Some a ->
  exists c',
    handleCallMessage m c = Done (Some errQuestionReused) c' /\
    mgr_err c' = Some errQuestionReused /\
    out c' = out c ++ [newAbortMessage errQuestionReused] /\
    answers c' = answers c.
Proof.
  intros Ha.
  destruct (populate_keeps _ _ _ _ Hpop) as (Hm1 & Ho1 & _ & Ha1 & _).
  rewrite call_reaches_insert.
  step_by ltac:(eapply insertAnswer_taken; rewrite Ha1; exact Ha).
  step_by ltac:(apply abort_running; congruence).
  eexists. split; [reflexivity|]. simpl.
  split_and!; [reflexivity | congruence | exact Ha1].
Qed.

(** X16: when the ID is fresh but the content of the parameters does
    not decode, the handler returns the decode error after it has
    inserted the answer: the answer stays in the table, pending, with
    nothing routed or queued for it, and the peer is sent nothing. *)
Theorem call_with_bad_content_leaves_answer err :
  answers c !! call_QuestionId mcall = None ->
  pl_Content mparams = Fail err ->
  exists c',
    handleCallMessage m c = Done (Some err) c' /\
    answers c' = <[call_QuestionId mcall := newAnswer (call_QuestionId mcall)]> (answers c) /\
    out c' = out c /\ calls c' = calls c /\ mgr_err c' = None.
Proof.
  intros Hfresh Hcontent.
  destruct (populate_keeps _ _ _ _ Hpop) as (Hm1 & Ho1 & _ & Ha1 & _ & Hc1 & _).
  rewrite call_reaches_insert.
  step_by ltac:(apply insertAnswer_fresh; rewrite Ha1; exact Hfresh).
  rewrite Hcontent. eexists. split; [reflexivity|]. simpl.
  split_and!; congruence.
Qed.

(** The outcome of a call that routes, by target. *)
Lemma call_route_cases content :
  answers c !! call_QuestionId mcall = None ->
  pl_Content mparams = Ok content ->
  let id := call_QuestionId mcall in
  let cl := mkCall (mkMethod (call_InterfaceId mcall) (call_MethodId mcall))
              (mkPtr (Ptr_Struct content) caps) in
  match mt with
  | MT_importedCap x =>
    forall e, findExport x c = Some e ->
    exists c',
      handleCallMessage m c = Done None c' /\
      calls c' = calls c ++ [mkRouted (e_client e) cl id] /\
      answers c' = <[id := newAnswer id]> (answers c) /\
      out c' = out c
  | MT_promisedAnswer (Ok mpromise) =>
    forall pa mtrans,
      pa_QuestionId mpromise <> id ->
      answers c !! pa_QuestionId mpromise = Some pa ->
      pa_Transform mpromise = Ok mtrans ->
      let transform := promisedAnswerOpsToTransform mtrans in
      exists c',
        handleCallMessage m c = Done None c' /\
        out c' = out c /\
        if a_done pa then
          calls c' = calls c ++
            [mkRouted (clientFromResolution transform (default nullPtr (a_obj pa)) (a_err pa))
               cl id] /\
          answers c' = <[id := newAnswer id]> (answers c)
        else
          calls c' = calls c /\
          answers c' =
            <[pa_QuestionId mpromise := with_queued (mkPcall transform id cl) pa]>
              (<[id := newAnswer id]> (answers c))
  | _ => True
  end.
Proof.
  intros Hfresh Hcontent id cl.
  destruct (populate_keeps _ _ _ _ Hpop) as (Hm1 & Ho1 & _ & Ha1 & He1 & Hc1 & _).
  set (c2 := set_answers (<[id := newAnswer id]> (answers c1)) c1).
  assert (Hhead : forall c3,
    routeCallMessage id mt cl c2 = Done None c3 ->
    handleCallMessage m c = Done None c3).
  { intros c3 Hroute. rewrite call_reaches_insert.
    step_by ltac:(apply insertAnswer_fresh; rewrite Ha1; exact Hfresh).
    rewrite Hcontent. cbv beta iota zeta. fold id cl c2.
    step Hroute. reflexivity. }
  destruct mt as [x|[mpromise|err]|w]; try exact Logic.I.
  - intros e He.
    assert (He2 : findExport x c2 = Some e).
    { unfold findExport in He |- *. simpl. rewrite He1. exact He. }
    eexists. split.
    + apply Hhead. unfold routeCallMessage.
      step_by ltac:(unfold gets; reflexivity).
      rewrite He2. unfold lockedCall, modify, bind, ret. reflexivity.
    + simpl. split_and!; congruence.
  - intros pa mtrans Hne Hpa Htrans transform. subst transform.
    assert (Hlook : answers c2 !! pa_QuestionId mpromise = Some pa).
    { simpl. rewrite lookup_insert_ne by congruence. rewrite Ha1. exact Hpa. }
    assert (Hneq : (pa_QuestionId mpromise =? id) = false) by (apply N.eqb_neq; exact Hne).
    destruct (a_done pa) eqn:Hdone.
    + eexists. split.
      * apply Hhead. unfold routeCallMessage. rewrite Hneq.
        step_by ltac:(unfold gets; reflexivity).
        rewrite Hlook, Htrans. cbv beta iota zeta. rewrite Hdone.
        unfold lockedCall, modify, bind, ret. reflexivity.
      * simpl. split_and!; congruence.
    + eexists. split.
      * apply Hhead. unfold routeCallMessage. rewrite Hneq.
        step_by ltac:(unfold gets; reflexivity).
        rewrite Hlook, Htrans. cbv beta iota zeta. rewrite Hdone.
        unfold queueCall, alter_answer, modify, bind, ret. reflexivity.
      * simpl. split_and!; try congruence.
        fold id. rewrite (alter_found _ _ pa) by exact Hlook.
        rewrite Ha1. reflexivity.
Qed.

(** X17: a call that routes.  With a fresh ID and parameters that
    decode, the answer is inserted pending and nothing is sent to the
    peer.  On an import of the peer that names a known export, one
    local call is started on the export's capability; on a promised
    answer that is resolved, one local call is started on the client
    its resolution gives for the transform; on a promised answer that
    is pending, no call is started and the call is put at the end of
    that answer's queue with its transform. *)
Theorem call_routed content :
  answers c !! call_QuestionId mcall = None ->
  pl_Content mparams = Ok content ->
  let id := call_QuestionId mcall in
  let cl := mkCall (mkMethod (call_InterfaceId mcall) (call_MethodId mcall))
              (mkPtr (Ptr_Struct content) caps) in
  match mt with
  | MT_importedCap x =>
    forall e, findExport x c = Some e ->
    exists c',
      handleCallMessage m c = Done None c' /\
      calls c' = calls c ++ [mkRouted (e_client e) cl id] /\
      answers c' = <[id := newAnswer id]> (answers c) /\
      out c' = out c
  | MT_promisedAnswer (Ok mpromise) =>
    forall pa mtrans,
      pa_QuestionId mpromise <> id ->
      answers c !! pa_QuestionId mpromise = Some pa ->
      pa_Transform mpromise = Ok mtrans ->
      let transform := promisedAnswerOpsToTransform mtrans in
      exists c',
        handleCallMessage m c = Done None c' /\
        out c' = out c /\
        if a_done pa then
          calls c' = calls c ++
            [mkRouted (clientFromResolution transform (default nullPtr (a_obj pa)) (a_err pa))
               cl id] /\
          answers c' = <[id := newAnswer id]> (answers c)
        else
          calls c' = calls c /\
          answers c' =
            <[pa_QuestionId mpromise := with_queued (mkPcall transform id cl) pa]>
              (<[id := newAnswer id]> (answers c))
  | _ => True
  end.
Proof. exact (call_route_cases content). Qed.

End PopulatedCall.

Lemma call_with_reused_id_aborts_witness :
  exists c',
    handleCallMessage call_reusing_id conn_bootstrapped
    = Done (Some errQuestionReused) c' /\
    mgr_err c' = Some errQuestionReused /\
    answers c' = answers conn_bootstrapped.
Proof.
  destruct (call_with_reused_id_aborts conn_bootstrapped call_reusing_id
              (mkCallMsg 0 (Ok (MT_importedCap 0)) 0 0
                 (Ok (mkPayload (Ok (PStruct [])) (Ok []))))
              (MT_importedCap 0) (mkPayload (Ok (PStruct [])) (Ok []))
              [] conn_bootstrapped
              eq_refl eq_refl eq_refl eq_refl eq_refl eq_refl
              (mkAnswer 0 true true (Some (mkPtr (PInterface 0) [LocalClient 1]))
                 None [0] [] []))
    as (c' & Hrun & Hmgr & _ & Hans).
  - vm_compute. reflexivity.
  - exists c'. split_and!; assumption.
Defined.

Lemma call_with_bad_content_leaves_answer_witness :
  exists c',
    handleCallMessage call_bad_content conn_bootstrapped
    = Done (Some (errDecode "content")) c' /\
    answers c' = <[1 := newAnswer 1]> (answers conn_bootstrapped) /\
    out c' = out conn_bootstrapped.
Proof.
  destruct (call_with_bad_content_leaves_answer conn_bootstrapped call_bad_content
              (mkCallMsg 1 (Ok (MT_importedCap 0)) 0 0
                 (Ok (mkPayload (Fail (errDecode "content")) (Ok []))))
              (MT_importedCap 0) (mkPayload (Fail (errDecode "content")) (Ok []))
              [] conn_bootstrapped
              eq_refl eq_refl eq_refl eq_refl eq_refl eq_refl
              (errDecode "content"))
    as (c' & Hrun & Hans & Hout & _).
  - vm_compute. reflexivity.
  - reflexivity.
  - exists c'. split_and!; assumption.
Defined.

Lemma call_routed_witness :
  exists c',
    handleCallMessage call_on_answer_1 conn_call_routed = Done None c' /\
    calls c' = calls conn_call_routed /\
    a_queue <$> answers c' !! 1 =
      Some [mkPcall [mkOp 0] 2 (mkCall (mkMethod 2 3) (mkPtr (PStruct []) []))].
Proof.
  pose proof (call_routed conn_call_routed call_on_answer_1
    (mkCallMsg 2
       (Ok (MT_promisedAnswer (Ok (mkPromisedAnswer 1 (Ok [Op_getPointerField 0]))))) 2 3
       (Ok (mkPayload (Ok (PStruct [])) (Ok []))))
    (MT_promisedAnswer (Ok (mkPromisedAnswer 1 (Ok [Op_getPointerField 0]))))
    (mkPayload (Ok (PStruct [])) (Ok []))
    [] conn_call_routed
    eq_refl eq_refl eq_refl eq_refl eq_refl
    (PStruct []) ltac:(vm_compute; reflexivity) eq_refl) as H.
  cbv zeta in H.
  destruct (H (newAnswer 1) [Op_getPointerField 0])
    as (c' & Hrun & _ & Hcalls & Hans).
  - discriminate.
  - vm_compute. reflexivity.
  - reflexivity.
  - exists c'. split_and!; [exact Hrun | exact Hcalls |].
    rewrite Hans. vm_compute. reflexivity.
Defined.

(** The loop of [populateMessageCapTable] on a cap table in two parts:
    when the first part populates, the loop goes on with the second
    from there. *)
Lemma populate_loop_app pre : forall rest caps c caps1 c0,
  populate_loop pre caps c = Done (caps1, None) c0 ->
  populate_loop (pre ++ rest) caps c = populate_loop rest caps1 c0.
Proof.
  induction pre as [|d pre IH]; intros rest caps c caps1 c0 H; simpl in H |- *.
  - injection H as <- <-. reflexivity.
  - destruct d as [|id|id|id|[pa|err]|w].
    + apply IH. exact H.
    + unfold bind in H |- *.
      destruct (addImport id c) as [cl c1| |]; try discriminate.
      apply IH. exact H.
    + unfold bind in H |- *.
      destruct (addImport id c) as [cl c1| |]; try discriminate.
      apply IH. exact H.
    + unfold bind, gets in H |- *.
      destruct (findExport id c); [apply IH; exact H | discriminate].
    + unfold bind, gets in H |- *.
      destruct (answers c !! pa_QuestionId pa); [|discriminate].
      destruct (pa_Transform pa); [apply IH; exact H | discriminate].
    + discriminate.
    + unfold logf, modify, bind, ret in H. discriminate.
Qed.

(** X18: a call the connection does not implement is echoed.  A target
    of an unknown kind is answered with an unimplemented echo before
    the parameters are looked at: nothing else changes, not even the
    imports.  A cap table that holds a descriptor of an unknown kind,
    after descriptors that all have a client, is answered the same
    way once these descriptors have been populated: their imports
    stay, the unknown kind is logged.  Either way no answer is inserted
    and the connection stays up. *)
Theorem call_unimplemented_is_echoed c m mcall :
  Message_Call m = Ok mcall ->
  mgr_err c = None ->
  (forall w,
     call_Target mcall = Ok (MT_other w) ->
     handleCallMessage m c
     = Done None (set_out (out c ++ [newUnimplementedMessage m]) c)) /\
  (forall mt mparams pre w rest,
     call_Target mcall = Ok mt ->
     is_call_target mt = true ->
     call_Params_msg mcall = Ok mparams ->
     pl_CapTable mparams = Ok (pre ++ CD_other w :: rest) ->
     Forall (desc_resolves c) pre ->
     exists caps c0,
       populate_loop pre [] c = Done (caps, None) c0 /\
       handleCallMessage m c
       = Done None
           (set_out (out c ++ [newUnimplementedMessage m])
              (set_log (log c0 ++ [LogUnknownCap w]) c0)) /\
       answers c0 = answers c /\ mgr_err c0 = None /\ out c0 = out c /\
       forall id, import_refs id c0 = (import_refs id c + sender_refs id pre)%Z).
Proof.
  intros Hm Hrun. split.
  - intros w Ht. unfold handleCallMessage. rewrite Hm, Ht. cbn [is_call_target negb].
    apply sendMessage_running. exact Hrun.
  - intros mt mparams pre w rest Ht Hct Hp Htab Hpre.
    destruct (populate_loop_spec pre [] c) as (caps & err & c0 & Hloop & Hc0 & Hiff & Hok).
    assert (He : err = None) by (apply Hiff; exact Hpre). subst err.
    destruct (Hok eq_refl) as [_ Hrefs].
    unfold populate_core in Hc0.
    injection Hc0 as _ Hm0 Ho0 _ _ _ _ _ _ _ _ _ _ Ha0 _ _.
    exists caps, c0. split_and!; [exact Hloop | | exact Ha0 | congruence | exact Ho0 | exact Hrefs].
    assert (Hpop : populateMessageCapTable mparams c
                   = Done (caps, Some errUnimplemented)
                       (set_log (log c0 ++ [LogUnknownCap w]) c0)).
    { unfold populateMessageCapTable. rewrite Htab.
      rewrite (populate_loop_app pre (CD_other w :: rest) [] c caps c0 Hloop).
      reflexivity. }
    unfold handleCallMessage. rewrite Hm, Ht, Hct, Hp. cbn [negb].
    step Hpop. cbn [fst snd is_errUnimplemented].
    rewrite sendMessage_running by (simpl; congruence).
    simpl. rewrite Ho0. reflexivity.
Qed.

Lemma call_unimplemented_is_echoed_witness :
  handleCallMessage call_unknown_target_kind conn_bootstrapped
  = Done None
      (set_out (out conn_bootstrapped ++ [newUnimplementedMessage call_unknown_target_kind])
         conn_bootstrapped) /\
  exists c',
    handleCallMessage call_unknown_cap_kind conn_bootstrapped = Done None c' /\
    out c' = out conn_bootstrapped ++ [newUnimplementedMessage call_unknown_cap_kind] /\
    import_refs 5 c' = 1%Z /\
    answers c' = answers conn_bootstrapped.
Proof.
  split.
  - destruct (call_unimplemented_is_echoed conn_bootstrapped call_unknown_target_kind
                (mkCallMsg 1 (Ok (MT_other 7)) 0 0
                   (Ok (mkPayload (Ok (PStruct [])) (Ok [CD_senderHosted 5]))))
                eq_refl eq_refl) as [Hecho _].
    apply (Hecho 7). reflexivity.
  - destruct (call_unimplemented_is_echoed conn_bootstrapped call_unknown_cap_kind
                (mkCallMsg 1 (Ok (MT_importedCap 0)) 0 0
                   (Ok (mkPayload (Ok (PStruct []))
                          (Ok [CD_senderHosted 5; CD_other 9]))))
                eq_refl eq_refl) as [_ Hcap].
    destruct (Hcap (MT_importedCap 0)
                (mkPayload (Ok (PStruct [])) (Ok [CD_senderHosted 5; CD_other 9]))
                [CD_senderHosted 5] 9 [] eq_refl eq_refl eq_refl eq_refl
                ltac:(repeat constructor))
      as (caps & c0 & _ & Hrun & Ha0 & _ & _ & Hrefs).
    eexists. split; [exact Hrun|]. simpl.
    split_and!; [reflexivity | | exact Ha0].
    change (import_refs 5 (set_out _ (set_log _ c0))) with (import_refs 5 c0).
    rewrite Hrefs. reflexivity.
Defined.

(** ** A bootstrap answered, then called *)

(** A bootstrap with a fresh ID on a running connection whose factory
    gives a capability: the answer it leaves. *)
Lemma bootstrap_fulfilled c id main :
  mgr_err c = None ->
  answers c !! id = None ->
  mainFunc c = Some (Ok main) ->
  exists c1 a,
    handleBootstrapMessage id c = Done None c1 /\
    answers c1 = <[id := a]> (answers c) /\
    a_done a = true /\ a_canceled a = true /\
    a_obj a = Some (mkPtr (PInterface 0) [main]) /\ a_err a = None /\
    calls c1 = calls c /\ mgr_err c1 = None.
Proof.
  intros Hrun Ha Hmf.
  set (c2 := set_answers (<[id := newAnswer id]> (answers c)) c).
  assert (Ha2 : answers c2 !! id = Some (newAnswer id)) by (simpl; apply lookup_insert_eq).
  destruct (answer_fulfill_unqueued id (mkPtr (PInterface 0) [main])
              (newAnswer id) c2 Ha2 eq_refl eq_refl Hrun)
    as (t & c3 & Hct & Hc3 & Hlen & Hful).
  unfold export_core in Hc3.
  injection Hc3 as _ Hm3 Ho3 _ _ _ _ _ _ _ _ _ Ha3 _ Hcalls3 _.
  unfold handleBootstrapMessage.
  step_by ltac:(apply insertAnswer_fresh; exact Ha).
  step_by ltac:(unfold gets; reflexivity).
  change (mainFunc (set_answers (<[id:=newAnswer id]> (answers c)) c)) with (mainFunc c).
  rewrite Hmf. step Hful.
  unfold answer_cancel, alter_answer, modify, bind, ret; simpl.
  eexists _, _. split; [reflexivity|]. simpl.
  split.
  { rewrite (alter_found _ id _ _ (lookup_insert_eq _ _ _)).
    rewrite insert_insert_eq, Ha3. simpl. rewrite insert_insert_eq. reflexivity. }
  simpl. split_and!; try reflexivity.
  - exact Hcalls3.
  - rewrite Hm3. exact Hrun.
Qed.

(** X19: a bootstrap answered and then called.  Once a bootstrap with a
    fresh ID has been answered on a running connection whose factory
    gives a capability, a call whose target is that answer with the
    empty transform (no op, or noops only) is started on that very
    capability, joined to the call's own new answer; nothing is sent
    for it yet. *)
Theorem call_on_bootstrap_answer_reaches_main
    c id main c1 m mcall ops mparams caps c2 content :
  mgr_err c = None ->
  answers c !! id = None ->
  mainFunc c = Some (Ok main) ->
  main <> NilClient ->
  handleBootstrapMessage id c = Done None c1 ->
  Message_Call m = Ok mcall ->
  call_Target mcall = Ok (MT_promisedAnswer (Ok (mkPromisedAnswer id (Ok ops)))) ->
  promisedAnswerOpsToTransform ops = [] ->
  call_QuestionId mcall <> id ->
  answers c !! call_QuestionId mcall = None ->
  call_Params_msg mcall = Ok mparams ->
  populateMessageCapTable mparams c1 = Done (caps, None) c2 ->
  pl_Content mparams = Ok content ->
  exists c',
    handleCallMessage m c1 = Done None c' /\
    calls c' = calls c ++
      [mkRouted main
         (mkCall (mkMethod (call_InterfaceId mcall) (call_MethodId mcall))
            (mkPtr (Ptr_Struct content) caps))
         (call_QuestionId mcall)] /\
    out c' = out c1.
Proof.
  intros Hrun Hfresh Hmf Hnn Hboot Hm Ht Hops Hne Hqfresh Hp Hpop Hcontent.
  destruct (bootstrap_fulfilled c id main Hrun Hfresh Hmf)
    as (c1' & a & Hboot' & Hans & Hdone & _ & Hobj & Herr & Hcalls & _).
  rewrite Hboot in Hboot'. injection Hboot' as <-.
  assert (Hqf1 : answers c1 !! call_QuestionId mcall = None).
  { rewrite Hans, lookup_insert_ne by congruence. exact Hqfresh. }
  pose proof (call_route_cases c1 m mcall _ mparams caps c2 Hm Ht eq_refl Hp Hpop
                content Hqf1 Hcontent) as H.
  cbv zeta in H.
  destruct (H a ops) as (c' & Hrun' & Hout & Hcase).
  - simpl. congruence.
  - simpl. rewrite Hans. apply lookup_insert_eq.
  - reflexivity.
  - rewrite Hdone in Hcase. destruct Hcase as [Hc' _].
    exists c'. split_and!; [exact Hrun' | | exact Hout].
    rewrite Hc', Hcalls, Hops, Hobj, Herr. do 3 f_equal.
    unfold clientFromResolution. simpl.
    destruct main; try reflexivity. contradiction.
Qed.

Lemma call_on_bootstrap_answer_reaches_main_witness :
  exists c',
    handleCallMessage call_on_bootstrap_answer conn_bootstrapped = Done None c' /\
    calls c' = [mkRouted (LocalClient 1)
                  (mkCall (mkMethod 2 3) (mkPtr (PStruct []) [])) 1].
Proof.
  destruct (call_on_bootstrap_answer_reaches_main
              conn_main_interface 0 (LocalClient 1) conn_bootstrapped
              call_on_bootstrap_answer
              (mkCallMsg 1
                 (Ok (MT_promisedAnswer (Ok (mkPromisedAnswer 0 (Ok []))))) 2 3
                 (Ok (mkPayload (Ok (PStruct [])) (Ok []))))
              [] (mkPayload (Ok (PStruct [])) (Ok [])) [] conn_bootstrapped (PStruct [])
              eq_refl eq_refl eq_refl ltac:(discriminate)
              ltac:(vm_compute; reflexivity)
              eq_refl eq_refl eq_refl ltac:(discriminate) eq_refl eq_refl eq_refl eq_refl)
    as (c' & Hrun & Hcalls & _).
  exists c'. split; assumption.
Defined.

(** ** [Bootstrap], every path *)

Lemma Bootstrap_enqueued c ctx :
  mu_held c = false ->
  exists c',
    Bootstrap ctx Lock_mu Send_out c
    = Done (QuestionPipeline (length (qheap c)) []) c' /\
    out c' = out c ++ [newBootstrapMessage (next_question_id c)] /\
    questions c' =
      set_slot (N.to_nat (next_question_id c)) (Some (length (qheap c))) (questions c) /\
    questionIDs c' = snd (idgen_next (questionIDs c)) /\
    qheap c' =
      qheap c ++ [mkQuestion (next_question_id c) None [] questionInProgress None None true] /\
    mu_held c' = false /\
    mgr_err c' = mgr_err c /\
    log c' = log c /\
    exports c' = exports c.
Proof.
  intros Hmu.
  unfold next_question_id.
  destruct (idgen_next (questionIDs c)) as [id g] eqn:Hgen. cbn [fst snd].
  set (c0 := set_mu_held true c).
  set (r := length (qheap c)).
  set (q := mkQuestion id None [] questionInProgress None None false).
  set (c1 := set_questionIDs g
               (set_questions (set_slot (N.to_nat id) (Some r) (questions c))
                  (set_qheap (qheap c ++ [q]) c0))).
  assert (Hlock : mu_Lock c = Done tt c0)
    by (unfold mu_Lock; rewrite Hmu; reflexivity).
  assert (Hnew : newQuestion None c0 = Done r c1).
  { unfold newQuestion. simpl questionIDs. rewrite Hgen. reflexivity. }
  assert (Hat : question_at r c1 = Done q c1).
  { apply question_at_found. simpl. unfold r.
    rewrite lookup_app_r by lia. rewrite Nat.sub_diag. reflexivity. }
  set (c2 := set_out (out c1 ++ [newBootstrapMessage id]) c1).
  assert (Hat2 : question_at r c2 = Done q c2).
  { apply question_at_found. simpl. unfold r.
    rewrite lookup_app_r by lia. rewrite Nat.sub_diag. reflexivity. }
  eexists. split.
  - unfold Bootstrap. step Hlock. step Hnew. step Hat. cbn [q_id q].
    assert (Hin :
      (modify (fun c => set_out (out c ++ [newBootstrapMessage id]) c) ;;
       question_start r ;;
       ret (QuestionPipeline r [])) c1
      = Done (QuestionPipeline r [])
          (set_qheap (<[r := mkQuestion id None [] questionInProgress None None true]>
                        (qheap c2)) c2)).
    { step_by ltac:(unfold modify; reflexivity). fold c2.
      step_by ltac:(unfold question_start; step Hat2;
                    unfold set_question, modify; reflexivity).
      reflexivity. }
    step Hin. unfold mu_Unlock. unfold_M. simpl. reflexivity.
  - simpl. split_and!; try reflexivity.
    unfold r. rewrite insert_app_r_alt by lia. rewrite Nat.sub_diag. reflexivity.
Qed.




(** X21: a bootstrap answered by an exception.  On a running connection
    with the mutex free, [Bootstrap] enqueues the bootstrap message;
    when the peer's return for it carries an exception, the question is
    resolved with the exception wrapped as a bootstrap error, whatever
    [releaseParamCaps] says, [finish { releaseResultCaps = true }]
    follows the bootstrap message in the send queue, nothing is logged,
    the mutex is free again, and the question's ID has left the table
    and is the one the next question gets. *)
Theorem bootstrap_answered_by_exception c ctx rel exc :
  mu_held c = false ->
  mgr_err c = None ->
  exists c1 c2,
    Bootstrap ctx Lock_mu Send_out c
    = Done (QuestionPipeline (length (qheap c)) []) c1 /\
    handleMessage
      (Msg_return
         (Ok (mkReturn (next_question_id c) rel (Return_exception (Ok exc))))) c1
    = Done tt c2 /\
    qheap c2 !! length (qheap c)
    = Some (mkQuestion (next_question_id c) None [] questionResolved None
              (Some (bootstrapError (errException (exc_Reason exc)))) true) /\
    get_slot (N.to_nat (next_question_id c)) (questions c2) = None /\
    next_question_id c2 = next_question_id c /\
    out c2 = out c ++ [newBootstrapMessage (next_question_id c);
                       newFinishMessage (next_question_id c) true] /\
    mu_held c2 = false /\
    log c2 = log c /\
    mgr_err c2 = None.
Proof.
  intros Hmu Hrun.
  destruct (Bootstrap_enqueued c ctx Hmu)
    as (c1 & Hb & Hout & Hqs & Hids & Hheap & Hmu1 & Herr1 & Hlog1 & _).
  set (id := next_question_id c) in *.
  set (r := length (qheap c)) in *.
  set (q := mkQuestion id None [] questionInProgress None None true) in *.
  set (cL := set_mu_held true c1).
  assert (Hlock : mu_Lock c1 = Done tt cL)
    by (unfold mu_Lock; rewrite Hmu1; reflexivity).
  set (cP := set_questionIDs (idgen_remove id (questionIDs cL))
               (set_questions (<[N.to_nat id := None]> (questions cL)) cL)).
  assert (Hpop : popQuestion id cL = Done (Some r) cP).
  { apply popQuestion_found. simpl. rewrite Hqs. apply get_slot_set_slot. }
  assert (Hq : qheap cP !! r = Some q).
  { simpl. rewrite Hheap. unfold r.
    rewrite lookup_app_r by lia. rewrite Nat.sub_diag. reflexivity. }
  set (e := bootstrapError (errException (exc_Reason exc))).
  set (cR := set_qheap
               (<[r := mkQuestion id None [] questionResolved None (Some e) true]>
                  (qheap cP)) cP).
  assert (Hrej : question_reject r questionResolved e cP = Done true cR).
  { apply (question_reject_pending r questionResolved e q cP Hq). reflexivity. }
  set (cS := set_out (out cR ++ [newFinishMessage id true]) cR).
  assert (Hsend : sendMessage (newFinishMessage id true) cR = Done None cS).
  { apply sendMessage_running. simpl. rewrite Herr1. exact Hrun. }
  assert (Hret :
    handleReturnMessage
      (Msg_return (Ok (mkReturn id rel (Return_exception (Ok exc))))) cL
    = Done None cS).
  { unfold handleReturnMessage. cbn [Message_Return ret_AnswerId].
    step Hpop.
    step_by ltac:(apply question_at_found; exact Hq).
    cbn [ret_ReleaseParamCaps q_paramCaps q forM_].
    step_by ltac:(destruct rel; reflexivity).
    step_by ltac:(apply question_at_found; exact Hq).
    cbn [q_state q questionState_eqb ret_body q_method].
    fold e. step Hrej. step Hsend. reflexivity. }
  exists c1, (set_mu_held false cS). split_and!.
  - exact Hb.
  - unfold handleMessage. step Hlock. step Hret.
    unfold mu_Unlock, log_if_err. unfold_M. reflexivity.
  - simpl. apply list_lookup_insert_eq. rewrite Hheap, length_app. simpl. lia.
  - simpl. apply get_slot_cleared.
  - unfold next_question_id. reflexivity.
  - simpl. rewrite Hout, <- app_assoc. reflexivity.
  - reflexivity.
  - simpl. exact Hlog1.
  - simpl. rewrite Herr1. exact Hrun.
Qed.

Lemma bootstrap_answered_by_exception_witness :
  exists c1 c2,
    Bootstrap None Lock_mu Send_out (NewConn None) = Done (QuestionPipeline 0 []) c1 /\
    handleMessage
      (Msg_return (Ok (mkReturn 0 false (Return_exception (Ok (mkException "no"))))))
      c1 = Done tt c2 /\
    out c2 = [newBootstrapMessage 0; newFinishMessage 0 true].
Proof.
  destruct (bootstrap_answered_by_exception (NewConn None) None false
              (mkException "no") eq_refl eq_refl)
    as (c1 & c2 & Hb & Hh & _ & _ & _ & Hout & _).
  exists c1, c2. split_and!; assumption.
Defined.

(** ** The terminal error *)

Lemma Wait_done c e : mgr_err c = Some e -> Wait c = Done (Some e) c.
Proof.
  intros H. unfold Wait, manager_wait, manager_finished, manager_err. unfold_M.
  rewrite H. cbv beta iota. rewrite H. reflexivity.
Qed.

Lemma keeps_bind {A B : Type} (m : M A) (k : A -> M B) :
  keeps_mgr_err m -> (forall a, keeps_mgr_err (k a)) -> keeps_mgr_err (bind m k).
Proof.
  intros Hm Hk c b c' H. unfold bind in H.
  destruct (m c) as [a c1| |] eqn:Hmc; try discriminate.
  rewrite (Hk a c1 b c' H). exact (Hm c a c1 Hmc).
Qed.

Lemma keeps_ret {A : Type} (a : A) : keeps_mgr_err (ret a).
Proof. intros c b c' H. injection H as _ <-. reflexivity. Qed.

Lemma keeps_blocked {A : Type} : keeps_mgr_err (fun _ : Conn => @Blocked A).
Proof. intros c b c' H. discriminate H. Qed.

Lemma Bootstrap_keeps_mgr_err ctx s1 s2 : keeps_mgr_err (Bootstrap ctx s1 s2).
Proof.
  assert (Hlock : keeps_mgr_err mu_Lock).
  { intros c a c'. unfold mu_Lock. destruct (mu_held c); [discriminate|].
    intros H. injection H as _ <-. reflexivity. }
  assert (Hunlock : keeps_mgr_err mu_Unlock).
  { intros c a c'. unfold mu_Unlock. destruct (mu_held c); [|discriminate].
    intros H. injection H as _ <-. reflexivity. }
  assert (Hnew : keeps_mgr_err (newQuestion None)).
  { intros c a c'. unfold newQuestion. destruct (idgen_next (questionIDs c)).
    intros H. injection H as _ <-. reflexivity. }
  assert (Hat : forall r, keeps_mgr_err (question_at r)).
  { intros r c a c'. unfold question_at. destruct (qheap c !! r); [|discriminate].
    intros H. injection H as _ <-. reflexivity. }
  assert (Hpop : forall id, keeps_mgr_err (popQuestion id)).
  { intros id c a c'. unfold popQuestion.
    destruct (get_slot (N.to_nat id) (questions c));
      intros H; injection H as _ <-; reflexivity. }
  assert (Herr : keeps_mgr_err manager_err).
  { intros c a c' H. injection H as _ <-. reflexivity. }
  assert (Hstart : forall r, keeps_mgr_err (question_start r)).
  { intros r. apply keeps_bind; [apply Hat|]. intros q c a c' H.
    injection H as _ <-. reflexivity. }
  unfold Bootstrap. destruct s1.
  - apply keeps_bind; [exact Hlock|]. intros _.
    apply keeps_bind; [exact Hnew|]. intros q.
    apply keeps_bind; [apply Hat|]. intros q0.
    apply keeps_bind.
    + destruct s2.
      * apply keeps_bind.
        { intros c a c' H. injection H as _ <-. reflexivity. }
        intros _. apply keeps_bind; [apply Hstart|]. intros _. apply keeps_ret.
      * destruct ctx; [|apply keeps_blocked].
        apply keeps_bind; [apply Hpop|]. intros _. apply keeps_ret.
      * apply keeps_bind; [exact Herr|]. intros [e|]; [|apply keeps_blocked].
        apply keeps_bind; [apply Hpop|]. intros _. apply keeps_ret.
    + intros r. apply keeps_bind; [exact Hunlock|]. intros _. apply keeps_ret.
  - destruct ctx; [apply keeps_ret | apply keeps_blocked].
  - apply keeps_bind; [exact Herr|]. intros [e|]; [apply keeps_ret | apply keeps_blocked].
Qed.

(** X22: what [Wait] returns.  [Wait] never returns nil and never
    changes the connection: it blocks while the connection runs, and
    returns the manager's terminal error afterwards.  On a connection
    that was running, that error is [ErrConnClosed] after [Close],
    whatever the transport answered; the [Abort] copied from the peer's
    abort message after that message was handled, also when its
    exception did not decode; and the error given to [abort] after the
    connection aborted by itself. *)
Theorem Wait_returns_terminal_error c :
  (forall why, Wait c <> Panic why) /\
  (forall r c', Wait c = Done r c' ->
     c' = c /\ exists e, r = Some e /\ mgr_err c = Some e) /\
  (mgr_err c = None ->
     Wait c = Blocked /\
     (forall w k r c', Close w k c = Done r c' ->
        Wait c' = Done (Some ErrConnClosed) c') /\
     (forall a c', handleMessage (Msg_abort a) c = Done tt c' ->
        Wait c' = Done (Some (fst (copyAbort (Msg_abort a)))) c') /\
     (forall err c', abort err c = Done tt c' ->
        Wait c' = Done (Some err) c')).
Proof.
  destruct (mgr_err c) as [e|] eqn:Hm.
  - rewrite (Wait_done c e Hm). split_and!.
    + discriminate.
    + intros r c' H. injection H as <- <-. split; [reflexivity|].
      exists e. split; reflexivity.
    + discriminate.
  - assert (Hb : Wait c = Blocked).
    { unfold Wait, manager_wait, manager_finished, bind. rewrite Hm. reflexivity. }
    rewrite Hb.
    split_and!; [discriminate | intros r c' H; discriminate H | intros _].
    split_and!; [reflexivity | | |].
    + intros w k r c'.
      unfold Close, manager_shutdown, manager_wait, manager_finished. unfold_M.
      rewrite Hm. simpl.
      destruct w as [ew|]; [|destruct k as [ek|]];
        intros H; injection H as _ <-; apply Wait_done; reflexivity.
    + intros a c'. unfold handleMessage, log_if_err, manager_shutdown.
      destruct a as [exc|err]; simpl; unfold_M; simpl; rewrite Hm;
        intros H; injection H as <-; apply Wait_done; reflexivity.
    + intros err c'. rewrite (abort_running err c Hm).
      intros H. injection H as <-. apply Wait_done. reflexivity.
Qed.

Lemma Wait_returns_terminal_error_witness :
  Wait (NewConn None) = Blocked /\
  Wait (after (Close None (Some (errTransport "closed"))) (NewConn None))
  = Done (Some ErrConnClosed)
      (after (Close None (Some (errTransport "closed"))) (NewConn None)).
Proof.
  destruct (proj2 (proj2 (Wait_returns_terminal_error (NewConn None))) eq_refl)
    as (Hb & Hclose & _).
  split; [exact Hb|].
  apply (Hclose None (Some (errTransport "closed")) (Some (errTransport "closed"))).
  vm_compute. reflexivity.
Defined.

(** X23: the first shutdown wins.  Once the manager holds a terminal
    error, nothing replaces it: not [abort] with another error, not
    [Close], which then returns [ErrConnClosed], not [Bootstrap] on any
    path, not the handling of any inbound message, a later abort of the
    peer included.  After each of them [Wait] returns the first
    error. *)
Theorem terminal_error_is_final c e :
  mgr_err c = Some e ->
  (forall err c', abort err c = Done tt c' -> Wait c' = Done (Some e) c') /\
  (forall werr cerr r c', Close werr cerr c = Done r c' ->
     r = Some ErrConnClosed /\ Wait c' = Done (Some e) c') /\
  (forall ctx s1 s2 r c', Bootstrap ctx s1 s2 c = Done r c' ->
     Wait c' = Done (Some e) c') /\
  (forall m c', mu_held c = false -> conn_wf c ->
     handleMessage m c = Done tt c' -> Wait c' = Done (Some e) c').
Proof.
  intros Hm. split_and!.
  - intros err c'. unfold abort, sendMessage, manager_shutdown. unfold_M.
    rewrite Hm. simpl. rewrite Hm.
    intros H. injection H as <-. apply Wait_done. exact Hm.
  - intros werr cerr r c'. unfold Close, manager_shutdown, bind, ret.
    rewrite Hm. simpl.
    intros H. injection H as <- <-. split; [reflexivity|].
    apply Wait_done. exact Hm.
  - intros ctx s1 s2 r c' H. apply Wait_done.
    rewrite (Bootstrap_keeps_mgr_err ctx s1 s2 c r c' H). exact Hm.
  - intros m c' Hmu Hwf H.
    destruct (handleMessage_step m c Hmu Hwf)
      as [(c1 & Hrun & Hfr & _)|(f & why & _ & _ & Hp)]; [|congruence].
    rewrite Hrun in H. injection H as <-.
    apply Wait_done. apply (fr_mgr _ _ Hfr). exact Hm.
Qed.

Lemma terminal_error_is_final_witness :
  Wait (after (abort errBadTarget) conn_peer_aborted)
  = Done (Some (Abort "oops")) (after (abort errBadTarget) conn_peer_aborted) /\
  Wait (after (handleMessage (Msg_abort (Ok (mkException "again")))) conn_peer_aborted)
  = Done (Some (Abort "oops"))
      (after (handleMessage (Msg_abort (Ok (mkException "again")))) conn_peer_aborted).
Proof.
  destruct (terminal_error_is_final conn_peer_aborted (Abort "oops") eq_refl)
    as (Habort & _ & _ & Hmsg).
  split.
  - apply (Habort errBadTarget). vm_compute. reflexivity.
  - apply (Hmsg (Msg_abort (Ok (mkException "again")))).
    + reflexivity.
    + intros i r H. vm_compute in H.
      destruct i as [|[|i]]; simpl in H; discriminate H.
    + vm_compute. reflexivity.
Defined.


(** ** Disembargo on a promised answer *)



(** ** Filling the parameters of an outbound call *)

(** X26: [fillParams] always returns, and it touches nothing of the
    connection but the export table and its ID pool.  When placing the
    parameters or setting the content fails, that error is returned,
    the connection is untouched and the payload is left empty.
    Otherwise the content of the payload is the parameters, and the
    error returned is that of setting the cap table, nil included: a
    failed allocation of the descriptor list never shows.  When nothing
    fails the cap table has one descriptor per capability of the
    parameters. *)
Theorem fillParams_outcomes seg c :
  exists p r c',
    fillParams seg c = Done (p, r) c' /\
    export_core c' = export_core c /\
    match seg_PlaceParams seg with
    | Fail e => r = Some e /\ c' = c /\ p = mkPayload (Ok PNull) (Ok [])
    | Ok params =>
      match seg_SetContent seg with
      | Some e => r = Some e /\ c' = c /\ p = mkPayload (Ok PNull) (Ok [])
      | None =>
        pl_Content p = Ok (ptr_val params) /\
        r = seg_SetCapTable seg /\
        (r = None -> seg_NewCapDescriptor_List seg = None ->
         exists t, pl_CapTable p = Ok t /\ length t = length (ptr_caps params))
      end
    end.
Proof.
  unfold fillParams.
  destruct (seg_PlaceParams seg) as [params|e].
  2:{ eexists _, _, _. split; [reflexivity|]. split_and!; reflexivity. }
  destruct (seg_SetContent seg) as [e|].
  { eexists _, _, _. split; [reflexivity|]. split_and!; reflexivity. }
  destruct (makeCapTable_frame (seg_NewCapDescriptor_List seg) (ptr_caps params) c)
    as (t & c' & Hrun & Hcore & Hlen).
  destruct (seg_SetCapTable seg) as [e|] eqn:Hset.
  - eexists _, _, c'. split; [step Hrun; reflexivity|].
    split_and!; [exact Hcore | reflexivity | reflexivity | discriminate].
  - eexists _, _, c'. split; [step Hrun; reflexivity|].
    split_and!; [exact Hcore | reflexivity | reflexivity |].
    intros _ Halloc. exists t. split; [reflexivity | apply Hlen, Halloc].
Qed.

Lemma fillParams_outcomes_witness :
  exists p c',
    fillParams
      (mkSegmentCalls (Ok (mkPtr (PStruct []) [LocalClient 3; NilClient])) None None None)
      conn_bootstrapped = Done (p, None) c' /\
    exists t, pl_CapTable p = Ok t /\ length t = 2%nat.
Proof.
  destruct (fillParams_outcomes
              (mkSegmentCalls (Ok (mkPtr (PStruct []) [LocalClient 3; NilClient]))
                 None None None) conn_bootstrapped)
    as (p & r & c' & Hrun & _ & _ & Hr & Ht).
  simpl in Hr. subst r.
  exists p, c'. split; [exact Hrun|].
  apply Ht; reflexivity.
Defined.

(** ** The export of a bootstrap answer, from return to finish *)

Lemma makeCapTable_new_export k c :
  export_of_client (LocalClient k) c = None ->
  makeCapTable None [LocalClient k] c =
  Done ([CD_senderHosted (next_export_id c)], None)
    (set_exportIDs (snd (idgen_next (exportIDs c)))
       (set_exports
          (set_slot (N.to_nat (next_export_id c))
             (Some (mkExport (next_export_id c) (LocalClient k) 1)) (exports c)) c)).
Proof.
  intros H. unfold next_export_id.
  unfold makeCapTable, makeCapTable_loop, descriptorForClient, addExport. unfold_M.
  rewrite H. destruct (idgen_next (exportIDs c)) as [eid g]. reflexivity.
Qed.

(** X27: the export of a bootstrap answer.  A bootstrap with a fresh ID
    on a running connection whose main interface is a local capability
    not exported yet: the capability is exported under the next export
    ID with one reference, and the results sent to the peer name that
    export.  A finish for the answer then removes the answer, sends
    nothing, and, with [releaseResultCaps], drops the export again and
    recycles its ID; without it the export stays, with its one
    reference, for the peer to release. *)
Theorem bootstrap_export_lifecycle c id k :
  mu_held c = false ->
  mgr_err c = None ->
  answers c !! id = None ->
  mainFunc c = Some (Ok (LocalClient k)) ->
  export_of_client (LocalClient k) c = None ->
  exists c1,
    handleMessage (Msg_bootstrap (Ok (mkBootstrap id))) c = Done tt c1 /\
    findExport (next_export_id c) c1
    = Some (mkExport (next_export_id c) (LocalClient k) 1) /\
    out c1 = out c ++
      [newReturnResults id
         (mkPayload (Ok (PInterface 0)) (Ok [CD_senderHosted (next_export_id c)]))] /\
    forall rel, exists c2,
      handleMessage (Msg_finish (Ok (mkFinish id rel))) c1 = Done tt c2 /\
      answers c2 = answers c /\
      out c2 = out c1 /\
      mgr_err c2 = None /\
      if rel then
        findExport (next_export_id c) c2 = None /\
        next_export_id c2 = next_export_id c
      else
        exports c2 = exports c1.
Proof.
  intros Hmu Hrun Ha Hmf Hexp.
  set (eid := next_export_id c).
  set (main := LocalClient k).
  set (cL := set_mu_held true c).
  assert (Hlock : mu_Lock c = Done tt cL)
    by (unfold mu_Lock; rewrite Hmu; reflexivity).
  set (c2 := set_answers (<[id := newAnswer id]> (answers cL)) cL).
  assert (Hins : insertAnswer id cL = Done (Some id) c2)
    by (apply insertAnswer_fresh; exact Ha).
  assert (Ha2 : answers c2 !! id = Some (newAnswer id))
    by (simpl; apply lookup_insert_eq).
  destruct (answer_fulfill_unqueued id (mkPtr (PInterface 0) [main])
              (newAnswer id) c2 Ha2 eq_refl eq_refl Hrun)
    as (t & c3 & Hct & _ & _ & Hful).
  cbn [ptr_caps] in Hct. unfold main in Hct at 1.
  rewrite (makeCapTable_new_export k c2 Hexp) in Hct.
  injection Hct as <- <-.
  change (next_export_id c2) with eid in Hful.
  set (c3 := set_exportIDs (snd (idgen_next (exportIDs c2)))
               (set_exports
                  (set_slot (N.to_nat eid) (Some (mkExport eid main 1)) (exports c2))
                  c2)) in *.
  cbn [ptr_val newAnswer a_id a_canceled] in Hful.
  match type of Hful with _ = Done None ?x => set (c4 := x) in * end.
  assert (Hboot : handleBootstrapMessage id cL
                  = Done None
                      (set_answers
                         (<[id := mkAnswer id true true (Some (mkPtr (PInterface 0) [main]))
                                    None [eid] [] []]> (answers c)) c4)).
  { unfold handleBootstrapMessage. step Hins.
    step_by ltac:(unfold gets; reflexivity).
    change (mainFunc c2) with (mainFunc c). rewrite Hmf. step Hful.
    unfold answer_cancel, alter_answer, modify, bind, ret. f_equal.
    unfold c4. cbn [answers set_answers set_out].
    rewrite (alter_found _ id _ _ (lookup_insert_eq _ _ _)).
    rewrite insert_insert_eq. simpl. rewrite insert_insert_eq. reflexivity. }
  match type of Hboot with _ = Done None ?x => set (c5 := x) in * end.
  exists (set_mu_held false c5). split_and!.
  - unfold handleMessage. cbn [Message_Bootstrap boot_QuestionId].
    step Hlock. step Hboot. unfold mu_Unlock, log_if_err. unfold_M. reflexivity.
  - unfold findExport. simpl. apply get_slot_set_slot.
  - reflexivity.
  - intros rel.
    set (c1 := set_mu_held false c5).
    set (c1L := set_mu_held true c1).
    assert (Hlock1 : mu_Lock c1 = Done tt c1L) by reflexivity.
    set (a := mkAnswer id true true (Some (mkPtr (PInterface 0) [main])) None [eid] [] []).
    set (c6 := set_answers (delete id (answers c1L)) c1L).
    assert (Hpop : popAnswer id c1L = Done (Some a) c6).
    { unfold popAnswer. f_equal. simpl. apply lookup_insert_eq. }
    assert (Hans6 : answers c6 = answers c).
    { simpl. apply delete_insert_id. exact Ha. }
    destruct rel.
    + set (c7 := set_exportIDs (idgen_remove eid (exportIDs c6))
                   (set_exports (<[N.to_nat eid := None]> (exports c6)) c6)).
      assert (Hrel : releaseExport eid 1 c6 = Done tt c7).
      { unfold releaseExport.
        assert (Hf : findExport eid c6 = Some (mkExport eid main 1))
          by (unfold findExport; simpl; apply get_slot_set_slot).
        unfold gets, bind. rewrite Hf. reflexivity. }
      exists (set_mu_held false c7). split_and!.
      * unfold handleMessage. cbn [Message_Finish fin_QuestionId].
        step Hlock1. step Hpop. cbn [fin_ReleaseResultCaps a_resultCaps a forM_].
        step_by ltac:(step Hrel; reflexivity).
        reflexivity.
      * exact Hans6.
      * reflexivity.
      * exact Hrun.
      * unfold findExport. simpl. apply get_slot_cleared.
      * reflexivity.
    + exists (set_mu_held false c6). split_and!.
      * unfold handleMessage. cbn [Message_Finish fin_QuestionId].
        step Hlock1. step Hpop. cbn [fin_ReleaseResultCaps].
        step_by ltac:(reflexivity).
        reflexivity.
      * exact Hans6.
      * reflexivity.
      * exact Hrun.
      * reflexivity.
Qed.

Lemma bootstrap_export_lifecycle_witness :
  exists c2,
    handleMessage (Msg_finish (Ok (mkFinish 0 true))) conn_bootstrapped = Done tt c2 /\
    findExport 0 c2 = None /\
    next_export_id c2 = 0.
Proof.
  destruct (bootstrap_export_lifecycle conn_main_interface 0 1
              eq_refl eq_refl eq_refl eq_refl eq_refl)
    as (c1 & Hboot & _ & _ & Hfin).
  assert (Hc1 : c1 = conn_bootstrapped).
  { unfold conn_bootstrapped, after. rewrite Hboot. reflexivity. }
  destruct (Hfin true) as (c2 & Hrun & _ & _ & _ & Hnone & Hnext).
  rewrite Hc1 in Hrun.
  exists c2. split_and!; assumption.
Defined.

(** ** The channel mutex *)

(** X28: [chanMutex.TryLock].  It never panics, and when it returns it
    has either taken the mutex, which was free, and returns nil, or
    left the connection as it was and returns the error of the context,
    which is done.  Once it has taken the mutex, [Lock] blocks and a
    further [TryLock] whose context is not done blocks, whatever case
    it waits on, until [Unlock] hands the mutex back, which gives the
    connection as it was before. *)
Theorem TryLock_takes_or_gives_up c ctx s :
  (forall why, TryLock ctx s c <> Panic why) /\
  (forall r c',
     TryLock ctx s c = Done r c' ->
     (r = None /\ mu_held c = false /\ mu_held c' = true /\
      mu_Lock c' = Blocked /\
      (forall s', TryLock None s' c' = Blocked) /\
      mu_Unlock c' = Done tt c)
     \/
     (exists e, r = Some e /\ ctx = Some e /\ c' = c)).
Proof.
  unfold TryLock. destruct s.
  - unfold mu_Lock at 1 2. unfold bind, ret.
    destruct (mu_held c) eqn:Hmu.
    + split; [discriminate|]. intros r c' H. discriminate H.
    + split; [discriminate|]. intros r c' H. injection H as <- <-.
      left. split_and!; try reflexivity.
      * intros [|]; reflexivity.
      * unfold mu_Unlock. simpl. f_equal. apply unlock_lock. exact Hmu.
  - destruct ctx as [e|].
    + split; [discriminate|]. intros r c' H. injection H as <- <-.
      right. exists e. split_and!; reflexivity.
    + split; [discriminate|]. intros r c' H. discriminate H.
Qed.

Lemma TryLock_takes_or_gives_up_witness :
  mu_Unlock (after (TryLock None Try_mu) (NewConn None)) = Done tt (NewConn None).
Proof.
  destruct (proj2 (TryLock_takes_or_gives_up (NewConn None) None Try_mu)
              None (after (TryLock None Try_mu) (NewConn None)) eq_refl)
    as [(_ & _ & _ & _ & _ & H) | (e & Hr & _)].
  - exact H.
  - discriminate Hr.
Defined.
